(** * The AAF animation pipeline of esp_emote_gfx

    A shallow embedding of the container index, the frame header parser,
    the RLE and Huffman block decoders, the palette resolver, the pixel
    renderers and the per-frame decode cache of

      - [src/decoder/gfx_aaf_dec.c]   (decoder and container format)
      - [src/widget/gfx_draw_anim.c]  (block decode, compositor, cache)

    Conventions.  Bytes and machine integers are [Z]; [size_t], [uint32_t]
    and pointers are 32 bits wide (the target is a 32-bit core) and their
    wrap-around is written out with [sz].  A pointer into a byte buffer is
    the list of the bytes that follow it, so [p + k] is [skipn k p]; a load
    outside that list has no defined value and makes the function return
    [None].  Stores through an output pointer are recorded, in program
    order, as a log of (index, value) pairs: the decoders never look at the
    capacity of the buffer they write to, and neither does the log.  Heap
    allocation of one byte or more is assumed to succeed; what a request for
    zero bytes gives is a parameter of the frame preparation. *)

From Stdlib Require Import ZArith List Bool Lia.
Import ListNotations.
Local Open Scope Z_scope.

(** ** Machine model *)

Inductive esp_err_t : Set :=
| ESP_OK
| ESP_FAIL
| ESP_ERR_NO_MEM
| ESP_ERR_INVALID_CRC.

Definition esp_err_eqb (a b : esp_err_t) : bool :=
  match a, b with
  | ESP_OK, ESP_OK | ESP_FAIL, ESP_FAIL
  | ESP_ERR_NO_MEM, ESP_ERR_NO_MEM
  | ESP_ERR_INVALID_CRC, ESP_ERR_INVALID_CRC => true
  | _, _ => false
  end.

(** [size_t] / [uint32_t] arithmetic. *)
Definition sz (z : Z) : Z := z mod 2 ^ 32.

(** [p[i]] for a pointer [p] into a byte buffer. *)
Definition load (p : list Z) (i : Z) : option Z :=
  if i <? 0 then None else nth_error p (Z.to_nat i).

(** A log of stores [p[i] = v], oldest first. *)
Definition stores : Set := list (Z * Z).

Definition is_byte (b : Z) : bool := (0 <=? b) && (b <? 256).

Notation "x <- e ;; k" :=
  (match e with Some x => k | None => None end)
    (at level 61, e at next level, right associativity, only parsing).

(** The stores that write the list [l] to consecutive cells from [p]. *)
Fixpoint write_from (p : Z) (l : list Z) : stores :=
  match l with
  | [] => []
  | v :: l' => (p, v) :: write_from (p + 1) l'
  end.

(** The effect of one store, and of a log of stores, on a buffer; a store
    outside the buffer is a memory error, which [in_bounds] detects. *)
Fixpoint poke (buf : list Z) (i : nat) (v : Z) : list Z :=
  match buf, i with
  | [], _ => []
  | _ :: t, O => v :: t
  | h :: t, S i' => h :: poke t i' v
  end.

Definition apply_store (buf : list Z) (s : Z * Z) : list Z :=
  if fst s <? 0 then buf else poke buf (Z.to_nat (fst s)) (snd s).

Definition apply_stores (buf : list Z) (log : stores) : list Z :=
  fold_left apply_store log buf.

Definition in_bounds (capacity : Z) (log : stores) : bool :=
  forallb (fun s => (0 <=? fst s) && (fst s <? capacity)) log.

(** ** Run-length decoder ([gfx_aaf_rle_decode]) *)

Module Rle.

(** The result of a call: the return value, the stores to [output] and the
    indices of [input] that were read, in order. *)
Record result : Set := mk_result {
  ret : esp_err_t;
  written : stores;
  read : list Z
}.

(** [for (uint8_t i = 0; i < count; i++) output[out_pos++] = value;] *)
Fixpoint fill (count : nat) (value out_pos : Z) (out : stores) : Z * stores :=
  match count with
  | O => (out_pos, out)
  | S c => fill c value (sz (out_pos + 1)) (out ++ [(out_pos, value)])
  end.

(** The [while (in_pos + 1 <= input_len)] loop; every iteration consumes
    two input bytes, so [fuel] bounds the number of iterations. *)
Fixpoint loop (fuel : nat) (input : list Z) (input_len output_len : Z)
         (in_pos out_pos : Z) (out : stores) (rd : list Z) : option result :=
  match fuel with
  | O => None
  | S fuel' =>
    if sz (in_pos + 1) <=? input_len then
      count <- load input in_pos ;;
      value <- load input (sz (in_pos + 1)) ;;
      let rd' := rd ++ [in_pos; sz (in_pos + 1)] in
      if sz (out_pos + count) >? output_len then
        Some (mk_result ESP_FAIL out rd')
      else
        let '(out_pos', out') := fill (Z.to_nat count) value out_pos out in
        loop fuel' input input_len output_len (sz (in_pos + 2)) out_pos' out' rd'
    else Some (mk_result ESP_OK out rd)
  end.

Definition gfx_aaf_rle_decode (input : list Z) (input_len output_len : Z)
  : option result :=
  loop (S (Z.to_nat input_len)) input input_len output_len 0 0 [] [].

(** The encoder of the round-trip property: a run is a (count, value)
    pair, written as two bytes; it stands for [count] copies of [value]. *)
Definition run : Set := (Z * Z)%type.

Definition encode (runs : list run) : list Z :=
  flat_map (fun r => [fst r; snd r]) runs.

Definition expand (runs : list run) : list Z :=
  flat_map (fun r => repeat (snd r) (Z.to_nat (fst r))) runs.

Definition run_ok (r : run) : bool :=
  (1 <=? fst r) && (fst r <=? 255) && is_byte (snd r).

End Rle.

(** ** Huffman engine ([decode_huffman_data], [gfx_aaf_huffman_decode]) *)

Module Huffman.

(** [struct Node]; [NULL] is the null pointer. *)
Inductive Node : Set :=
| NULL
| node (is_leaf : bool) (value : Z) (left right : Node).

(** [calloc(1, sizeof(Node))] *)
Definition create_node : Node := node false 0 NULL NULL.

(** [if (!p) p = create_node();] *)
Definition ensure (p : Node) : Node :=
  match p with NULL => create_node | _ => p end.

(** [code = (code << 8) | dict_bytes[dict_pos++]] on a [uint64_t],
    [code_byte_len] times. *)
Fixpoint read_code (n : nat) (dict_bytes : list Z) (dict_pos code : Z)
  : option Z :=
  match n with
  | O => Some code
  | S n' =>
    b <- load dict_bytes dict_pos ;;
    read_code n' dict_bytes (sz (dict_pos + 1))
              (Z.lor (Z.shiftl code 8 mod 2 ^ 64) b)
  end.

(** The insertion loop [for (bit = code_len - 1; bit >= 0; --bit)] with
    [n] iterations left, followed by the two assignments that mark the
    node reached as a leaf.  The tree is rebuilt along the path that the C
    code updates in place.  A shift count of 64 or more (a code longer than
    the 64-bit accumulator) is outside C's defined behaviour; the model
    takes the mathematical shift of the 64-bit value, which is 0. *)
Fixpoint insert (n : nat) (code byte_val : Z) (current : Node) : Node :=
  match current with
  | NULL => NULL
  | node lf v l r =>
    match n with
    | O => node true byte_val l r
    | S bit =>
      let bit_val := Z.land (Z.shiftr code (Z.of_nat bit)) 1 in
      if bit_val =? 0
      then node lf v (insert bit code byte_val (ensure l)) r
      else node lf v l (insert bit code byte_val (ensure r))
    end
  end.

(** The [while (dict_pos < dict_len)] loop; an entry takes at least two
    bytes, so [fuel] bounds the number of iterations. *)
Fixpoint build_tree (fuel : nat) (dict_bytes : list Z) (dict_len dict_pos : Z)
         (root : Node) : option Node :=
  match fuel with
  | O => None
  | S fuel' =>
    if dict_pos <? dict_len then
      byte_val <- load dict_bytes dict_pos ;;
      code_len <- load dict_bytes (sz (dict_pos + 1)) ;;
      let code_byte_len := (code_len + 7) / 8 in
      code <- read_code (Z.to_nat code_byte_len) dict_bytes
                        (sz (dict_pos + 2)) 0 ;;
      build_tree fuel' dict_bytes dict_len
                 (sz (dict_pos + 2 + code_byte_len))
                 (insert (Z.to_nat code_len) code byte_val root)
    else Some root
  end.

(** [(data[bit_index / 8] >> (7 - bit_index % 8)) & 1] *)
Definition data_bit (data : list Z) (bit_index : Z) : option Z :=
  b <- load data (bit_index / 8) ;;
  Some (Z.land (Z.shiftr b (7 - bit_index mod 8)) 1).

(** [current = bit == 0 ? current->left : current->right] *)
Definition child (current : Node) (bit : Z) : Node :=
  match current with
  | NULL => NULL
  | node _ _ l r => if bit =? 0 then l else r
  end.

(** The loop [for (bit_index = ...; bit_index < total_bits; bit_index++)]
    with [n] iterations left.  It ends early, by [break], on a null child.
    The result is [out_pos] and the stores to [output]. *)
Fixpoint decode_bits (n : nat) (data : list Z) (bit_index : Z)
         (root current : Node) (out_pos : Z) (out : stores)
  : option (Z * stores) :=
  match n with
  | O => Some (out_pos, out)
  | S n' =>
    bit <- data_bit data bit_index ;;
    match child current bit with
    | NULL => Some (out_pos, out)
    | node true value _ _ =>
      decode_bits n' data (bit_index + 1) root root
                  (sz (out_pos + 1)) (out ++ [(out_pos, value)])
    | node false _ _ _ as next =>
      decode_bits n' data (bit_index + 1) root next out_pos out
    end
  end.

(** The result of a decode call: the return value, the value left in
    [*output_len] and the stores to [output]. *)
Record result : Set := mk_result {
  ret : esp_err_t;
  output_len : Z;
  written : stores
}.

Definition decode_huffman_data (data : list Z) (data_len : Z)
           (dict_bytes : list Z) (dict_len : Z) : option result :=
  if (data_len =? 0) || (dict_len =? 0) then Some (mk_result ESP_OK 0 [])
  else
    padding <- load dict_bytes 0 ;;
    root <- build_tree (Z.to_nat dict_len) dict_bytes dict_len 1 create_node ;;
    let total_bits := sz (data_len * 8) in
    let total_bits :=
      if padding >? 0 then sz (total_bits - padding) else total_bits in
    r <- decode_bits (Z.to_nat total_bits) data 0 root root 0 [] ;;
    Some (mk_result ESP_OK (fst r) (snd r)).

(** [output_len0] is the value of [*output_len] before the call; the
    early returns leave it as it is. *)
Definition gfx_aaf_huffman_decode (buffer : list Z) (buflen : Z)
           (output_len0 : Z) : option result :=
  if buflen <? 1 then Some (mk_result ESP_FAIL output_len0 [])
  else
    hi <- load buffer 2 ;;
    lo <- load buffer 1 ;;
    let dict_len := Z.lor (Z.shiftl hi 8) lo mod 2 ^ 16 in
    if buflen <? 3 + dict_len then Some (mk_result ESP_FAIL output_len0 [])
    else
      let data_len := sz (buflen - 3 - dict_len) in
      if data_len =? 0 then Some (mk_result ESP_FAIL output_len0 [])
      else
        r <- decode_huffman_data
               (skipn (Z.to_nat (3 + dict_len)) buffer) data_len
               (skipn 3 buffer) dict_len ;;
        match ret r with
        | ESP_OK => Some (mk_result ESP_OK (output_len r) (written r))
        | _ => Some (mk_result ESP_FAIL (output_len r) (written r))
        end.

(** *** The encoder side of the round-trip property

    A code is its list of bits, first bit first; a mapping is a list of
    (value, code) entries. *)
Definition code : Set := list bool.
Definition mapping : Set := list (Z * code).

Definition b2z (b : bool) : Z := if b then 1 else 0.

(** The number whose binary digits, most significant first, are [c]. *)
Definition code_value (c : code) : Z :=
  fold_left (fun acc b => 2 * acc + b2z b) c 0.

(** The [n] low-order bytes of [x], most significant first. *)
Fixpoint be_bytes (n : nat) (x : Z) : list Z :=
  match n with
  | O => []
  | S n' => (x / 256 ^ Z.of_nat n') mod 256 :: be_bytes n' x
  end.

Definition code_byte_len (c : code) : nat :=
  Z.to_nat ((Z.of_nat (length c) + 7) / 8).

(** One (value, code length, code bits) triple. *)
Definition serialize_entry (e : Z * code) : list Z :=
  fst e :: Z.of_nat (length (snd e))
        :: be_bytes (code_byte_len (snd e)) (code_value (snd e)).

(** The table: the padding byte, then the triples. *)
Definition serialize_table (padding : Z) (m : mapping) : list Z :=
  padding :: flat_map serialize_entry m.

Fixpoint code_of (m : mapping) (v : Z) : code :=
  match m with
  | [] => []
  | (v', c) :: m' => if v' =? v then c else code_of m' v
  end.

Definition encode (m : mapping) (s : list Z) : list bool :=
  flat_map (code_of m) s.

Definition byte_of_bits (b7 b6 b5 b4 b3 b2 b1 b0 : bool) : Z :=
  128 * b2z b7 + 64 * b2z b6 + 32 * b2z b5 + 16 * b2z b4
  + 8 * b2z b3 + 4 * b2z b2 + 2 * b2z b1 + b2z b0.

(** Eight bits to a byte, first bit in the most significant position; a
    last group of fewer than eight bits is filled with zeros. *)
Fixpoint pack_bits (bits : list bool) : list Z :=
  match bits with
  | [] => []
  | b7 :: b6 :: b5 :: b4 :: b3 :: b2 :: b1 :: b0 :: rest =>
    byte_of_bits b7 b6 b5 b4 b3 b2 b1 b0 :: pack_bits rest
  | b7 :: t =>
    [byte_of_bits b7 (nth 0 t false) (nth 1 t false) (nth 2 t false)
                  (nth 3 t false) (nth 4 t false) (nth 5 t false) false]
  end.

Fixpoint is_prefix (p c : code) : bool :=
  match p, c with
  | [], _ => true
  | _ :: _, [] => false
  | a :: p', b :: c' => Bool.eqb a b && is_prefix p' c'
  end.

(** No code of the mapping is a prefix of the code of another entry. *)
Fixpoint prefix_free (m : mapping) : bool :=
  match m with
  | [] => true
  | e :: m' =>
    forallb (fun e' => negb (is_prefix (snd e) (snd e'))
                       && negb (is_prefix (snd e') (snd e))) m'
    && prefix_free m'
  end.

Definition entry_ok (e : Z * code) : bool :=
  is_byte (fst e) && (1 <=? length (snd e))%nat && (length (snd e) <=? 64)%nat.

Definition in_domain (m : mapping) (v : Z) : bool :=
  existsb (fun e => fst e =? v) m.

(** *** The tree seen along paths

    The node reached from [t] by the bits of [p]. *)
Fixpoint descend (t : Node) (p : code) : Node :=
  match p with
  | [] => t
  | b :: p' => descend (child t (b2z b)) p'
  end.

(** [insert], driven by the bits of the code instead of the shifts. *)
Fixpoint insert_code (c : code) (byte_val : Z) (current : Node) : Node :=
  match current with
  | NULL => NULL
  | node lf v l r =>
    match c with
    | [] => node true byte_val l r
    | false :: c' => node lf v (insert_code c' byte_val (ensure l)) r
    | true :: c' => node lf v l (insert_code c' byte_val (ensure r))
    end
  end.

(** The tree of a mapping: its codes inserted in table order. *)
Definition tree_of (m : mapping) (root : Node) : Node :=
  fold_left (fun t e => insert_code (snd e) (fst e) t) m root.

(** What the decoder sees of a node. *)
Inductive kind : Set :=
| KNull
| KInner
| KLeaf (value : Z).

Definition node_kind (t : Node) : kind :=
  match t with
  | NULL => KNull
  | node false _ _ _ => KInner
  | node true v _ _ => KLeaf v
  end.

(** [decode_bits], driven by the list of the bits it reads. *)
Fixpoint decode_list (bits : list bool) (root current : Node) (out_pos : Z)
         (out : stores) : Z * stores :=
  match bits with
  | [] => (out_pos, out)
  | b :: bits' =>
    match child current (b2z b) with
    | NULL => (out_pos, out)
    | node true value _ _ =>
      decode_list bits' root root (sz (out_pos + 1)) (out ++ [(out_pos, value)])
    | node false _ _ _ as next => decode_list bits' root next out_pos out
    end
  end.

(** The number of bits the decoding loop of [decode_huffman_data] is
    given: [data_len * 8], less the padding when there is one, computed in
    [size_t]. *)
Definition total_bits (data_len padding : Z) : Z :=
  let total_bits := sz (data_len * 8) in
  if padding >? 0 then sz (total_bits - padding) else total_bits.

End Huffman.

(** ** Frame header and palette ([gfx_aaf_parse_header],
    [gfx_aaf_calculate_offsets], [gfx_aaf_parse_palette]) *)

Module Header.

Inductive gfx_aaf_format_t : Set :=
| GFX_AAF_FORMAT_SBMP
| GFX_AAF_FORMAT_REDIRECT
| GFX_AAF_FORMAT_INVALID.

(** [gfx_aaf_header_t]; a null [block_len] or [palette] is the empty list. *)
Record gfx_aaf_header_t : Set := mk_header {
  format : list Z;
  version : list Z;
  bit_depth : Z;
  width : Z;
  height : Z;
  blocks : Z;
  block_height : Z;
  block_len : list Z;
  data_offset : Z;
  palette : list Z;
  num_colors : Z
}.

(** A 16-bit and a 32-bit load at [p + i], little-endian. *)
Definition load16 (p : list Z) (i : Z) : option Z :=
  b0 <- load p i ;;
  b1 <- load p (i + 1) ;;
  Some (b0 + 256 * b1).

Definition load32 (p : list Z) (i : Z) : option Z :=
  b0 <- load p i ;;
  b1 <- load p (i + 1) ;;
  b2 <- load p (i + 2) ;;
  b3 <- load p (i + 3) ;;
  Some (b0 + 256 * b1 + 65536 * b2 + 16777216 * b3).

(** The [n] bytes that [memcpy(dst, p + off, n)] copies. *)
Definition slice (p : list Z) (off n : Z) : option (list Z) :=
  if (off <? 0) || (n <? 0) || (Z.of_nat (length p) <? off + n) then None
  else Some (firstn (Z.to_nat n) (skipn (Z.to_nat off) p)).

(** [for (i = 0; i < blocks; i++)]: [block_len[i]] is the 32-bit word at
    [data + 18 + i * 4]. *)
Fixpoint read_block_len (n : nat) (data : list Z) (i : Z) : option (list Z) :=
  match n with
  | O => Some []
  | S n' =>
    len <- load32 data (18 + i * 4) ;;
    rest <- read_block_len n' data (i + 1) ;;
    Some (len :: rest)
  end.

(** [memset(header, 0, sizeof(gfx_aaf_header_t))] followed by the copy of
    the two tag bytes. *)
Definition blank_header (fmt : list Z) : gfx_aaf_header_t :=
  mk_header fmt [] 0 0 0 0 0 [] 0 [] 0.

Definition tag_S : list Z := [95; 83].
Definition tag_R : list Z := [95; 82].

Definition tag_eqb (a b : list Z) : bool :=
  match a, b with
  | [a0; a1], [b0; b1] => (a0 =? b0) && (a1 =? b1)
  | _, _ => false
  end.

Definition gfx_aaf_parse_header (data : list Z)
  : option (gfx_aaf_format_t * gfx_aaf_header_t) :=
  fmt <- slice data 0 2 ;;
  if tag_eqb fmt tag_S then
    ver <- slice data 3 6 ;;
    depth <- load data 9 ;;
    if negb ((depth =? 4) || (depth =? 8) || (depth =? 24)) then
      Some (GFX_AAF_FORMAT_INVALID,
            mk_header fmt ver depth 0 0 0 0 [] 0 [] 0)
    else
      w <- load16 data 10 ;;
      h <- load16 data 12 ;;
      nblocks <- load16 data 14 ;;
      bh <- load16 data 16 ;;
      lens <- read_block_len (Z.to_nat nblocks) data 0 ;;
      if depth =? 24 then
        Some (GFX_AAF_FORMAT_SBMP,
              mk_header fmt ver depth w h nblocks bh lens
                        ((18 + nblocks * 4) mod 2 ^ 16) [] 0)
      else
        let ncolors := Z.shiftl 1 depth in
        pal <- slice data (18 + nblocks * 4) (ncolors * 4) ;;
        Some (GFX_AAF_FORMAT_SBMP,
              mk_header fmt ver depth w h nblocks bh lens
                        ((18 + nblocks * 4 + ncolors * 4) mod 2 ^ 16)
                        pal ncolors)
  else if tag_eqb fmt tag_R then
    file_length <- load data 2 ;;
    name <- slice data 3 file_length ;;
    Some (GFX_AAF_FORMAT_REDIRECT,
          mk_header fmt [] 0 0 0 0 0 [] 0 (name ++ [0]) (file_length + 1))
  else Some (GFX_AAF_FORMAT_INVALID, blank_header fmt).

(** [offsets[0] = data_offset], then the loop
    [offsets[i] = offsets[i - 1] + block_len[i - 1]] with [n] iterations
    left; the result lists the values stored, in index order. *)
Fixpoint offsets_loop (n : nat) (prev : Z) (lens : list Z) : list Z :=
  match n, lens with
  | S n', len :: lens' =>
    let off := sz (prev + len) in off :: offsets_loop n' off lens'
  | _, _ => []
  end.

Definition gfx_aaf_calculate_offsets (header : gfx_aaf_header_t) : list Z :=
  data_offset header
  :: offsets_loop (Z.to_nat (blocks header) - 1) (data_offset header)
                  (block_len header).

(** [__builtin_bswap16] *)
Definition bswap16 (x : Z) : Z :=
  Z.lor (Z.shiftl (Z.land x 255) 8) (Z.land (Z.shiftr x 8) 255).

(** The value left in [result.full]. *)
Definition gfx_aaf_parse_palette (header : gfx_aaf_header_t) (index : Z)
           (swap : bool) : option Z :=
  c0 <- load (palette header) (index * 4) ;;
  c1 <- load (palette header) (index * 4 + 1) ;;
  c2 <- load (palette header) (index * 4 + 2) ;;
  let rgb565 :=
    Z.lor (Z.lor (Z.shiftl (Z.land c2 248) 8) (Z.shiftl (Z.land c1 252) 3))
          (Z.shiftr (Z.land c0 248) 3) in
  Some ((if swap then bswap16 (rgb565 mod 2 ^ 16) else rgb565) mod 2 ^ 16).

(** *** The 5-6-5 reduction as the specification words it

    The top 5 bits of the red byte go to bits 15..11, the top 6 bits of
    the green byte to bits 10..5, the top 5 bits of the blue byte to bits
    4..0. *)
Definition truncate_565 (r g b : Z) : Z :=
  (r / 8) * 2048 + (g / 4) * 32 + b / 8.

(** The two bytes of a 16-bit value exchanged. *)
Definition swap_bytes16 (x : Z) : Z := (x mod 256) * 256 + x / 256.

End Header.

(** ** Block decoder ([gfx_anim_decode_block]) *)

Module Block.

Import Header.

(** The result of decoding a block: the return value, the stores to
    [decode_buffer] and the stores to the scratch [huffman_buffer]. *)
Record result : Set := mk_result {
  ret : esp_err_t;
  to_decode_buffer : stores;
  to_huffman_buffer : stores
}.

Section Decode.

(** The external JPEG decoder: compressed bytes, their length, the size of
    the output buffer and the byte-order flag to a return value and the
    stores to the output buffer. *)
Variable gfx_jpeg_decode : list Z -> Z -> Z -> bool -> esp_err_t * stores.

(** [scratch] is the content of the memory [malloc(rle_out_len)] returns
    (as many bytes as were asked for). *)
Definition gfx_anim_decode_block (data offsets : list Z)
           (header : gfx_aaf_header_t) (block : Z) (scratch : list Z)
           (width block_height : Z) (swap_color : bool) : option result :=
  off <- load offsets block ;;
  let block_data := skipn (Z.to_nat off) data in
  block_len <- load (block_len header) block ;;
  encoding_type <- load block_data 0 ;;
  if encoding_type =? 0 then
    let rle_out_len := sz (width * block_height) in
    r <- Rle.gfx_aaf_rle_decode (skipn 1 block_data) (sz (block_len - 1))
                                rle_out_len ;;
    match Rle.ret r with
    | ESP_OK => Some (mk_result ESP_OK (Rle.written r) [])
    | _ => Some (mk_result ESP_FAIL (Rle.written r) [])
    end
  else if encoding_type =? 1 then
    let rle_out_len := sz (width * block_height) in
    h <- Huffman.gfx_aaf_huffman_decode block_data (sz block_len) 0 ;;
    let huffman_out_len := Huffman.output_len h in
    if huffman_out_len >? rle_out_len then
      Some (mk_result ESP_FAIL [] (Huffman.written h))
    else
      let huffman_buffer := apply_stores scratch (Huffman.written h) in
      r <- Rle.gfx_aaf_rle_decode huffman_buffer huffman_out_len rle_out_len ;;
      match Rle.ret r with
      | ESP_OK => Some (mk_result ESP_OK (Rle.written r) (Huffman.written h))
      | _ => Some (mk_result ESP_FAIL (Rle.written r) (Huffman.written h))
      end
  else if encoding_type =? 3 then
    h <- Huffman.gfx_aaf_huffman_decode block_data (sz block_len) 0 ;;
    match Huffman.ret h with
    | ESP_OK =>
      if negb (Huffman.output_len h =? sz (width * block_height)) then
        Some (mk_result ESP_FAIL (Huffman.written h) [])
      else Some (mk_result ESP_OK (Huffman.written h) [])
    | _ => Some (mk_result ESP_FAIL (Huffman.written h) [])
    end
  else if encoding_type =? 2 then
    let jpg_out_len := sz (width * block_height * 2) in
    let '(jpeg_ret, out) :=
      gfx_jpeg_decode (skipn 1 block_data) (sz (block_len - 1))
                      jpg_out_len swap_color in
    match jpeg_ret with
    | ESP_OK => Some (mk_result ESP_OK out [])
    | _ => Some (mk_result ESP_FAIL out [])
    end
  else Some (mk_result ESP_FAIL [] []).

End Decode.

End Block.

(** ** Container index ([gfx_aaf_format_init],
    [gfx_aaf_format_get_frame_data], [gfx_aaf_format_get_frame_size]) *)

Module Container.

Import Header.

Definition GFX_AAF_MAGIC_HEAD : Z := 23130.       (* 0x5A5A *)
Definition GFX_AAF_MAGIC_LEN : Z := 2.
Definition GFX_AAF_FORMAT_MAGIC : Z := 137.       (* 0x89 *)
Definition GFX_AAF_FORMAT_STR : list Z := [65; 65; 70].
Definition GFX_AAF_FORMAT_OFFSET : Z := 0.
Definition GFX_AAF_STR_OFFSET : Z := 1.
Definition GFX_AAF_NUM_OFFSET : Z := 4.
Definition GFX_AAF_CHECKSUM_OFFSET : Z := 8.
Definition GFX_AAF_TABLE_LEN : Z := 12.
Definition GFX_AAF_TABLE_OFFSET : Z := 16.

(** The value of a 32-bit pattern read as [int]. *)
Definition to_int (z : Z) : Z :=
  let u := sz z in if u <? 2 ^ 31 then u else u - 2 ^ 32.

(** [asset_table_entry_t] *)
Record asset_table_entry_t : Set := mk_table_entry {
  asset_size : Z;
  asset_offset : Z
}.

(** [asset_entry_t]: [asset_mem] is an offset into the container buffer,
    [table] the table entry pointed to. *)
Record asset_entry_t : Set := mk_entry {
  asset_mem : Z;
  table : asset_table_entry_t
}.

(** [gfx_aaf_format_ctx_t] *)
Record gfx_aaf_format_ctx_t : Set := mk_ctx {
  entries : list asset_entry_t;
  total_frames : Z
}.

(** [for (i = 0; i < length; i++) checksum += data[i];] with [n]
    iterations left. *)
Fixpoint checksum_loop (n : nat) (data : list Z) (i checksum : Z) : option Z :=
  match n with
  | O => Some checksum
  | S n' =>
    b <- load data i ;;
    checksum_loop n' data (i + 1) (sz (checksum + b))
  end.

Definition gfx_aaf_format_calc_checksum (data : list Z) (length : Z)
  : option Z :=
  checksum_loop (Z.to_nat length) data 0 0.

Definition str_eqb (a b : list Z) : bool :=
  match a, b with
  | [a0; a1; a2], [b0; b1; b2] => (a0 =? b0) && (a1 =? b1) && (a2 =? b2)
  | _, _ => false
  end.

(** The loop over the asset table with [n] iterations left: [Some (inl e)]
    is a jump to [err] with code [e]. *)
Fixpoint entries_loop (n : nat) (data : list Z) (total_frames i : Z)
  : option (esp_err_t + list asset_entry_t) :=
  match n with
  | O => Some (inr [])
  | S n' =>
    size <- load32 data (GFX_AAF_TABLE_OFFSET + i * 8) ;;
    offset <- load32 data (GFX_AAF_TABLE_OFFSET + i * 8 + 4) ;;
    let mem := sz (GFX_AAF_TABLE_OFFSET + sz (total_frames * 8) + offset) in
    magic <- load16 data mem ;;
    if negb (magic =? GFX_AAF_MAGIC_HEAD) then Some (inl ESP_ERR_INVALID_CRC)
    else
      rest <- entries_loop n' data total_frames (i + 1) ;;
      match rest with
      | inl e => Some (inl e)
      | inr es => Some (inr (mk_entry mem (mk_table_entry size offset) :: es))
      end
  end.

(** The return value and the handle left in [*ret_parser] ([None] is
    [NULL]). *)
Definition gfx_aaf_format_init (data : list Z)
  : option (esp_err_t * option gfx_aaf_format_ctx_t) :=
  magic <- load data GFX_AAF_FORMAT_OFFSET ;;
  if negb (magic =? GFX_AAF_FORMAT_MAGIC) then Some (ESP_ERR_INVALID_CRC, None)
  else
    str <- slice data GFX_AAF_STR_OFFSET 3 ;;
    if negb (str_eqb str GFX_AAF_FORMAT_STR) then
      Some (ESP_ERR_INVALID_CRC, None)
    else
      frames <- load32 data GFX_AAF_NUM_OFFSET ;;
      let total_frames := to_int frames in
      stored_chk <- load32 data GFX_AAF_CHECKSUM_OFFSET ;;
      stored_len <- load32 data GFX_AAF_TABLE_LEN ;;
      calculated_chk <-
        gfx_aaf_format_calc_checksum
          (skipn (Z.to_nat GFX_AAF_TABLE_OFFSET) data) stored_len ;;
      if negb (calculated_chk =? stored_chk) then
        Some (ESP_ERR_INVALID_CRC, None)
      else
        r <- entries_loop (Z.to_nat total_frames) data total_frames 0 ;;
        match r with
        | inl e => Some (e, None)
        | inr es => Some (ESP_OK, Some (mk_ctx es total_frames))
        end.

(** What a frame accessor returns.  [Wild i] is a value computed from the
    memory at [entries + i] where [i] is no index of the entries array:
    the array has been accessed out of its bounds. *)
Inductive fetched : Set :=
| Null
| Value (v : Z)
| Wild (index : Z).

(** [*(parser->entries + index)] *)
Definition entry_at (parser : gfx_aaf_format_ctx_t) (index : Z)
  : option asset_entry_t :=
  if index <? 0 then None else nth_error (entries parser) (Z.to_nat index).

Definition gfx_aaf_format_get_frame_data (parser : gfx_aaf_format_ctx_t)
           (index : Z) : fetched :=
  if total_frames parser >? index then
    match entry_at parser index with
    | Some e => Value (asset_mem e + GFX_AAF_MAGIC_LEN)
    | None => Wild index
    end
  else Null.

Definition gfx_aaf_format_get_frame_size (parser : gfx_aaf_format_ctx_t)
           (index : Z) : fetched :=
  if total_frames parser >? index then
    match entry_at parser index with
    | Some e => Value (to_int (asset_size (table e) - GFX_AAF_MAGIC_LEN))
    | None => Wild index
    end
  else Value (-1).

(** The sum of the bytes of a region, before reduction to 32 bits. *)
Definition byte_sum (l : list Z) : Z := fold_right Z.add 0 l.

(** The buffer with the byte at offset [i] replaced by [b]. *)
Definition mutate (data : list Z) (i : Z) (b : Z) : list Z :=
  if i <? 0 then data else poke data (Z.to_nat i) b.

End Container.

(** ** Compositor ([gfx_anim_render_4bit_pixels],
    [gfx_anim_render_8bit_pixels], [gfx_anim_render_24bit_pixels]) *)

Module Render.

Import Header.

(** [gfx_area_t] *)
Record gfx_area_t : Set := mk_area { x1 : Z; y1 : Z; x2 : Z; y2 : Z }.

(** The sentinel of an unresolved palette-cache slot, [0xFFFFFFFF]. *)
Definition UNRESOLVED : Z := 4294967295.

(** The lazy look-up both palette renderers repeat for every index:
<<
    if (palette_cache[index] == 0xFFFFFFFF) {
        gfx_color_t color = gfx_aaf_parse_palette(header, index, swap_color);
        palette_cache[index] = color.full;
    }
    color_val.full = (uint16_t)palette_cache[index];
>>
    It returns the cache and [color_val.full]. *)
Definition cached_color (header : gfx_aaf_header_t) (palette_cache : list Z)
           (index : Z) (swap_color : bool) : option (list Z * Z) :=
  slot <- load palette_cache index ;;
  if slot =? UNRESOLVED then
    color <- gfx_aaf_parse_palette header index swap_color ;;
    Some (poke palette_cache (Z.to_nat index) color, color mod 2 ^ 16)
  else Some (palette_cache, slot mod 2 ^ 16).

(** The mirrored store the renderers make after a store at column [x]:
<<
    if (mirror_enabled) {
        int mirror_x = width + mirror_offset + width - 1 - x;
        if (mirror_x >= 0 && (dest_x_offset + mirror_x) < dest_stride) {
            dest_buf[y * dest_stride + mirror_x] = color;
        }
    }
>> *)
Definition mirror_store (mirror_enabled : bool)
           (width mirror_offset dest_x_offset dest_stride y x color : Z)
           (dest : stores) : stores :=
  if mirror_enabled then
    let mirror_x := width + mirror_offset + width - 1 - x in
    if (mirror_x >=? 0) && (dest_x_offset + mirror_x <? dest_stride)
    then dest ++ [(y * dest_stride + mirror_x, color)]
    else dest
  else dest.

Section Renderers.

Variables (dest_stride : Z) (src_buf : list Z) (src_stride : Z).
Variables (header : gfx_aaf_header_t) (clip_area : gfx_area_t).
Variables (swap_color mirror_enabled : bool).
Variables (mirror_offset dest_x_offset : Z).

(** *** 8 bits per pixel *)

(** The inner loop [for (x = ...; x < w; x++)] with [n] iterations left. *)
Fixpoint row_8bit (n : nat) (y x : Z) (palette_cache : list Z)
         (dest : stores) : option (list Z * stores) :=
  match n with
  | O => Some (palette_cache, dest)
  | S n' =>
    index <- load src_buf (y * src_stride + x) ;;
    r <- cached_color header palette_cache index swap_color ;;
    let '(palette_cache', color_val) := r in
    let dest1 := dest ++ [(y * dest_stride + x, color_val)] in
    let dest2 := mirror_store mirror_enabled (width header) mirror_offset
                              dest_x_offset dest_stride y x color_val dest1 in
    row_8bit n' y (x + 1) palette_cache' dest2
  end.

Fixpoint rows_8bit (n : nat) (w y : Z) (palette_cache : list Z)
         (dest : stores) : option (list Z * stores) :=
  match n with
  | O => Some (palette_cache, dest)
  | S n' =>
    r <- row_8bit (Z.to_nat w) y 0 palette_cache dest ;;
    rows_8bit n' w (y + 1) (fst r) (snd r)
  end.

(** The palette cache and the stores to [dest_buf] after the call. *)
Definition gfx_anim_render_8bit_pixels (palette_cache : list Z)
  : option (list Z * stores) :=
  let w := x2 clip_area - x1 clip_area in
  let h := y2 clip_area - y1 clip_area in
  rows_8bit (Z.to_nat h) w 0 palette_cache [].

(** *** 4 bits per pixel, two pixels to a byte *)

(** The inner loop [for (x = ...; x < clip_w; x += 2)] with [n] iterations
    left.  The second mirrored store writes [color_val1], as the source
    has it. *)
Fixpoint row_4bit (n : nat) (y x : Z) (palette_cache : list Z)
         (dest : stores) : option (list Z * stores) :=
  match n with
  | O => Some (palette_cache, dest)
  | S n' =>
    packed_gray <- load src_buf (Z.quot (y * src_stride) 2 + Z.quot x 2) ;;
    let index1 := Z.shiftr (Z.land packed_gray 240) 4 in
    let index2 := Z.land packed_gray 15 in
    r1 <- cached_color header palette_cache index1 swap_color ;;
    let '(cache1, color_val1) := r1 in
    let dest1 := dest ++ [(y * dest_stride + x, color_val1)] in
    let dest2 := mirror_store mirror_enabled (width header) mirror_offset
                              dest_x_offset dest_stride y x color_val1 dest1 in
    r2 <- cached_color header cache1 index2 swap_color ;;
    let '(cache2, color_val2) := r2 in
    let dest3 := dest2 ++ [(y * dest_stride + x + 1, color_val2)] in
    let dest4 := mirror_store mirror_enabled (width header) mirror_offset
                              dest_x_offset dest_stride y (x + 1) color_val1
                              dest3 in
    row_4bit n' y (x + 2) cache2 dest4
  end.

Fixpoint rows_4bit (n : nat) (clip_w y : Z) (palette_cache : list Z)
         (dest : stores) : option (list Z * stores) :=
  match n with
  | O => Some (palette_cache, dest)
  | S n' =>
    r <- row_4bit (Z.to_nat ((clip_w + 1) / 2)) y 0 palette_cache dest ;;
    rows_4bit n' clip_w (y + 1) (fst r) (snd r)
  end.

Definition gfx_anim_render_4bit_pixels (palette_cache : list Z)
  : option (list Z * stores) :=
  let clip_w := x2 clip_area - x1 clip_area in
  let clip_h := y2 clip_area - y1 clip_area in
  rows_4bit (Z.to_nat clip_h) clip_w 0 palette_cache [].

(** *** 16-bit colour copied as it is *)

Fixpoint row_24bit (n : nat) (y x : Z) (dest : stores) : option stores :=
  match n with
  | O => Some dest
  | S n' =>
    pixel <- load16 src_buf (2 * (y * src_stride + x)) ;;
    let dest1 := dest ++ [(y * dest_stride + x, pixel)] in
    let dest2 := mirror_store mirror_enabled src_stride mirror_offset
                              dest_x_offset dest_stride y x pixel dest1 in
    row_24bit n' y (x + 1) dest2
  end.

Fixpoint rows_24bit (n : nat) (w y : Z) (dest : stores) : option stores :=
  match n with
  | O => Some dest
  | S n' =>
    dest' <- row_24bit (Z.to_nat w) y 0 dest ;;
    rows_24bit n' w (y + 1) dest'
  end.

Definition gfx_anim_render_24bit_pixels : option stores :=
  let w := x2 clip_area - x1 clip_area in
  let h := y2 clip_area - y1 clip_area in
  rows_24bit (Z.to_nat h) w 0 [].

End Renderers.

(** A log in which every store at a column [x] of a row is followed by a
    store of the same colour at the mirror column of [x]. *)
Inductive mirrored (width mirror_offset dest_stride : Z) : stores -> Prop :=
| mirrored_nil : mirrored width mirror_offset dest_stride []
| mirrored_pair (log : stores) (y x color : Z) :
    mirrored width mirror_offset dest_stride log ->
    mirrored width mirror_offset dest_stride
             (log ++ [(y * dest_stride + x, color);
                      (y * dest_stride
                       + (width + mirror_offset + width - 1 - x), color)]).

(** The destination has room for the mirror image of every column of a
    row [clip_w] pixels wide. *)
Definition mirror_fits (dest_stride mirror_offset dest_x_offset : Z)
           (width clip_w : Z) : Prop :=
  clip_w <= width + mirror_offset + width
  /\ dest_x_offset + width + mirror_offset + width <= dest_stride.

End Render.

(** ** Frame decode cache ([gfx_draw_animation],
    [gfx_anim_free_frame_info]) *)

Module Cache.

Import Header Render.

(** The part of [gfx_anim_frame_info_t] that the number of decodes and
    the cached block index depend on: the three buffers are either
    allocated or [NULL].  The bytes of the pixel buffer, which the decodes
    write and the renderers read, are in [Pixels]. *)
Record gfx_anim_frame_info_t : Set := mk_frame {
  header : gfx_aaf_header_t;
  frame_data : bool;
  block_offsets : bool;
  pixel_buffer : bool;
  last_block : Z
}.

(** What a draw call does, in order: block decodes with their results (the
    decode-count probe) and the blocks handed to a renderer. *)
Inductive event : Set :=
| Decoded (block : Z) (result : esp_err_t)
| Rendered (block : Z) (clip_block : gfx_area_t).

Definition is_decode (e : event) : bool :=
  match e with Decoded _ _ => true | Rendered _ _ => false end.

(** The decodes of a trace, and their number. *)
Definition decodes (trace : list event) : list event := filter is_decode trace.

Definition decode_count (trace : list event) : nat := length (decodes trace).

(** The state a frame advance or a rebind leaves: every buffer released,
    [last_block = -1]. *)
Definition gfx_anim_free_frame_info (frame : gfx_anim_frame_info_t)
  : gfx_anim_frame_info_t :=
  mk_frame (if width (header frame) >? 0 then blank_header []
            else header frame)
           false false false (-1).

(** A frame is bound when [gfx_anim_preprocess_frame] has succeeded: the
    frame data, a header of non-zero width and the buffers are there. *)
Definition bound (frame : gfx_anim_frame_info_t) : bool :=
  frame_data frame && negb (width (header frame) =? 0)
  && block_offsets frame && pixel_buffer frame.

Section Draw.

(** [gfx_anim_decode_block] on the bound frame, as a function of the
    block index and of [swap_color]. *)
Variable decode_block : Z -> bool -> esp_err_t.

(** The clip rectangle of [block], and the two source offsets. *)
Definition clip_of_block (hdr : gfx_aaf_header_t) (obj_x obj_y : Z)
           (clip_object : gfx_area_t) (block : Z) : gfx_area_t :=
  let block_start_y := block * block_height hdr + obj_y in
  let block_end_y :=
    (if block =? blocks hdr - 1 then height hdr
     else (block + 1) * block_height hdr) + obj_y in
  let block_start_x := 0 + obj_x in
  let block_end_x := width hdr + obj_x in
  mk_area (Z.max (x1 clip_object) block_start_x)
          (Z.max (y1 clip_object) block_start_y)
          (Z.min (x2 clip_object) block_end_x)
          (Z.min (y2 clip_object) block_end_y).

(** The two tests that make the loop [continue] before it comes to the
    decode: an empty clip rectangle, a source offset out of range. *)
Definition touches (hdr : gfx_aaf_header_t) (obj_x obj_y : Z)
           (clip_object : gfx_area_t) (block : Z) : bool :=
  let clip_block := clip_of_block hdr obj_x obj_y clip_object block in
  let src_offset_x := x1 clip_block - (0 + obj_x) in
  let src_offset_y := y1 clip_block - (block * block_height hdr + obj_y) in
  negb ((x1 clip_block >=? x2 clip_block) || (y1 clip_block >=? y2 clip_block))
  && negb ((src_offset_x <? 0) || (src_offset_y <? 0)
           || (src_offset_x >=? width hdr)
           || (src_offset_y >=? block_height hdr)).

(** The loop [for (block = ...; block < aaf_blocks; block++)] with [n]
    iterations left; it returns [*last_block] and the trace. *)
Fixpoint blocks_loop (n : nat) (hdr : gfx_aaf_header_t) (obj_x obj_y : Z)
         (clip_object : gfx_area_t) (swap_color : bool) (block : Z)
         (last : Z) (trace : list event) : Z * list event :=
  match n with
  | O => (last, trace)
  | S n' =>
    let next := blocks_loop n' hdr obj_x obj_y clip_object swap_color
                            (block + 1) in
    if negb (touches hdr obj_x obj_y clip_object block) then next last trace
    else if negb (block =? last) then
      let decode_result := decode_block block swap_color in
      match decode_result with
      | ESP_OK =>
        let trace' := trace ++ [Decoded block decode_result] in
        if (bit_depth hdr =? 4) || (bit_depth hdr =? 8)
           || (bit_depth hdr =? 24)
        then next block
                  (trace' ++ [Rendered block
                     (clip_of_block hdr obj_x obj_y clip_object block)])
        else next block trace'
      | _ => next last (trace ++ [Decoded block decode_result])
      end
    else
      if (bit_depth hdr =? 4) || (bit_depth hdr =? 8) || (bit_depth hdr =? 24)
      then next last
                (trace ++ [Rendered block
                   (clip_of_block hdr obj_x obj_y clip_object block)])
      else next last trace
  end.

(** [clip_object]: the request cut to the bounding box of the object. *)
Definition clip_of_request (hdr : gfx_aaf_header_t) (obj_x obj_y : Z)
           (req : gfx_area_t) : gfx_area_t :=
  mk_area (Z.max (x1 req) obj_x) (Z.max (y1 req) obj_y)
          (Z.min (x2 req) (obj_x + width hdr))
          (Z.min (y2 req) (obj_y + height hdr)).

(** A render request for the rectangle [req] of an object placed at
    [(obj_x, obj_y)] (the position after alignment).  It returns the frame
    state and the trace of the call. *)
Definition gfx_draw_animation (frame : gfx_anim_frame_info_t)
           (obj_x obj_y : Z) (req : gfx_area_t) (swap_color : bool)
  : gfx_anim_frame_info_t * list event :=
  if negb (frame_data frame) then (frame, [])
  else if width (header frame) =? 0 then (frame, [])
  else if negb (block_offsets frame) || negb (pixel_buffer frame)
  then (frame, [])
  else
    let hdr := header frame in
    let clip_object := clip_of_request hdr obj_x obj_y req in
    if (x1 clip_object >=? x2 clip_object)
       || (y1 clip_object >=? y2 clip_object)
    then (frame, [])
    else
      let r :=
        blocks_loop (Z.to_nat (blocks hdr)) hdr obj_x obj_y clip_object
                    swap_color 0 (last_block frame) [] in
      (mk_frame hdr (frame_data frame) (block_offsets frame)
                (pixel_buffer frame) (fst r), snd r).

(** The request touches block [k] and no other block of the frame. *)
Definition touches_only (hdr : gfx_aaf_header_t) (obj_x obj_y : Z)
           (req : gfx_area_t) (k : Z) : bool :=
  (0 <=? k) && (k <? blocks hdr)
  && forallb
       (fun b =>
          Bool.eqb (touches hdr obj_x obj_y
                            (clip_of_request hdr obj_x obj_y req) (Z.of_nat b))
                   (Z.of_nat b =? k))
       (seq 0 (Z.to_nat (blocks hdr))).

End Draw.

End Cache.

(** ** Block payloads as an encoder lays them out *)

Module Layout.

(** A run as the decoder accepts it: the count is any byte, 0 included. *)
Definition run_byte (r : Rle.run) : bool := is_byte (fst r) && is_byte (snd r).

(** The runs the decoder expands before the capacity test stops it: the
    longest head of [runs] whose expansions fit into [room] cells one
    after the other. *)
Fixpoint fitting (runs : list Rle.run) (room : Z) : list Rle.run :=
  match runs with
  | [] => []
  | r :: runs' =>
    if fst r <=? room then r :: fitting runs' (room - fst r) else []
  end.

(** All runs fit. *)
Fixpoint fits (runs : list Rle.run) (room : Z) : bool :=
  match runs with
  | [] => true
  | r :: runs' => (fst r <=? room) && fits runs' (room - fst r)
  end.

(** The two bytes of a 16-bit value and the four bytes of a 32-bit value,
    least significant first. *)
Definition le16 (x : Z) : list Z := [x mod 256; x / 256 mod 256].

Definition le32 (x : Z) : list Z :=
  [x mod 256; x / 256 mod 256; x / 65536 mod 256; x / 16777216 mod 256].

(** A Huffman block: the encoding tag, the length of the table in two
    bytes, the table, the packed payload. *)
Definition huffman_block (tag : Z) (m : Huffman.mapping) (s : list Z)
           (pad : list bool) : list Z :=
  let table := Huffman.serialize_table (Z.of_nat (length pad)) m in
  tag :: le16 (Z.of_nat (length table))
      ++ table ++ Huffman.pack_bits (Huffman.encode m s ++ pad).

(** A run-length block: the encoding tag 0 and the (count, value) pairs. *)
Definition rle_block (runs : list Rle.run) : list Z := 0 :: Rle.encode runs.

(** Where a block is: in frame bytes [pre ++ blk ++ post], the offset of
    the block in [offsets] and its length in the header. *)
Definition block_at (pre blk : list Z) (offsets : list Z)
           (header : Header.gfx_aaf_header_t) (block : Z) : Prop :=
  load offsets block = Some (Z.of_nat (length pre))
  /\ load (Header.block_len header) block = Some (Z.of_nat (length blk)).

End Layout.

(** ** Frame headers as an encoder lays them out *)

Module HeaderLayout.

Import Header Layout.

(** The split-bitmap header of section 6 of the format: tag, one
    reserved byte, version, bit depth, the four 16-bit geometry fields,
    the 32-bit block lengths, the palette. *)
Definition serialize_header (reserved : Z) (h : gfx_aaf_header_t) : list Z :=
  tag_S ++ [reserved] ++ version h ++ [bit_depth h]
        ++ le16 (width h) ++ le16 (height h)
        ++ le16 (blocks h) ++ le16 (block_height h)
        ++ flat_map le32 (block_len h) ++ palette h.

Definition is_u32 (x : Z) : bool := (0 <=? x) && (x <? 4294967296).



End HeaderLayout.

(** ** Rectangles and pixels, for the statements about
    [gfx_draw_animation] *)

Module Area.

Import Header Render.

(** The pixel [(x, y)] lies in the half-open rectangle [a]. *)
Definition covers (a : gfx_area_t) (x y : Z) : Prop :=
  x1 a <= x < x2 a /\ y1 a <= y < y2 a.

(** The rectangle [a] has a pixel. *)
Definition nonempty (a : gfx_area_t) : Prop := x1 a < x2 a /\ y1 a < y2 a.

(** The rectangle [a] lies in [b]. *)
Definition inside (a b : gfx_area_t) : Prop :=
  x1 b <= x1 a /\ x2 a <= x2 b /\ y1 b <= y1 a /\ y2 a <= y2 b.

(** The rows and columns of [block] on the screen, for an object placed at
    [(obj_x, obj_y)]: [block_height] rows from [block * block_height] on. *)
Definition block_box (hdr : gfx_aaf_header_t) (obj_x obj_y block : Z)
  : gfx_area_t :=
  mk_area obj_x (block * block_height hdr + obj_y)
          (obj_x + width hdr) ((block + 1) * block_height hdr + obj_y).

(** The three depths [gfx_draw_animation] has a renderer for. *)
Definition has_renderer (hdr : gfx_aaf_header_t) : bool :=
  (bit_depth hdr =? 4) || (bit_depth hdr =? 8) || (bit_depth hdr =? 24).

(** The blocks tile the rows of the frame: at least one block, every block
    but the last [block_height] rows high, the last one not higher. *)
Definition tiled (hdr : gfx_aaf_header_t) : Prop :=
  0 < block_height hdr /\ 0 < blocks hdr
  /\ (blocks hdr - 1) * block_height hdr < height hdr
     <= blocks hdr * block_height hdr.

(** What holds of an event of the block loop of [gfx_draw_animation] that
    starts at block [lo] with [n] iterations left and the cached block
    [last]: a decode is of a block the request touches and carries the
    result of [gfx_anim_decode_block]; a rendered block is the cached one or
    one whose decode succeeds, and it is rendered in its clip rectangle. *)
Definition event_ok (decode_block : Z -> bool -> esp_err_t)
           (hdr : gfx_aaf_header_t) (obj_x obj_y : Z)
           (clip_object : gfx_area_t) (swap_color : bool)
           (lo : Z) (n : nat) (last : Z) (e : Cache.event) : Prop :=
  match e with
  | Cache.Decoded b res =>
    lo <= b < lo + Z.of_nat n
    /\ res = decode_block b swap_color
    /\ Cache.touches hdr obj_x obj_y clip_object b = true
  | Cache.Rendered b clip =>
    lo <= b < lo + Z.of_nat n
    /\ (b = last \/ decode_block b swap_color = ESP_OK)
    /\ clip = Cache.clip_of_block hdr obj_x obj_y clip_object b
    /\ Cache.touches hdr obj_x obj_y clip_object b = true
  end.

End Area.

(** ** What the renderers are expected to paint *)

Module Paint.

Import Header Render.

(** A palette cache agrees with the palette when each of its slots is
    unresolved or holds the colour [gfx_aaf_parse_palette] gives for its
    index. *)
Definition consistent (header : gfx_aaf_header_t) (swap_color : bool)
           (palette_cache : list Z) : Prop :=
  forall index slot,
    load palette_cache index = Some slot ->
    slot = UNRESOLVED
    \/ gfx_aaf_parse_palette header index swap_color = Some slot.

(** The pixels of a clip rectangle [h] rows high and [w] columns wide, row
    by row. *)
Definition positions (h w : Z) : list (Z * Z) :=
  flat_map (fun y => map (fun x => (Z.of_nat y, Z.of_nat x))
                         (seq 0 (Z.to_nat w)))
           (seq 0 (Z.to_nat h)).

(** The stores for the pixel [(x, y)] of an 8-bit block: the colour of the
    palette entry the source byte selects, at the pixel and, with
    mirroring, at its mirror column. *)
Definition paint_8bit (dest_stride : Z) (src_buf : list Z) (src_stride : Z)
           (header : gfx_aaf_header_t) (swap_color mirror_enabled : bool)
           (mirror_offset dest_x_offset : Z) (y x : Z) : option stores :=
  index <- load src_buf (y * src_stride + x) ;;
  color <- gfx_aaf_parse_palette header index swap_color ;;
  Some (mirror_store mirror_enabled (width header) mirror_offset dest_x_offset
                     dest_stride y x color [(y * dest_stride + x, color)]).

(** The stores for the pixel [(x, y)] of a block of 16-bit colour. *)
Definition paint_24bit (dest_stride : Z) (src_buf : list Z) (src_stride : Z)
           (mirror_enabled : bool) (mirror_offset dest_x_offset : Z)
           (y x : Z) : option stores :=
  pixel <- load16 src_buf (2 * (y * src_stride + x)) ;;
  Some (mirror_store mirror_enabled src_stride mirror_offset dest_x_offset
                     dest_stride y x pixel [(y * dest_stride + x, pixel)]).

(** The stores for the two pixels [(x, y)] and [(x + 1, y)] that one
    source byte of a 4-bit block holds, [x] even: the colour of the high
    nibble at [x], the colour of the low nibble at [x + 1]; the mirror
    stores are those of the source, both with the colour of the high
    nibble. *)
Definition paint_4bit (dest_stride : Z) (src_buf : list Z) (src_stride : Z)
           (header : gfx_aaf_header_t) (swap_color mirror_enabled : bool)
           (mirror_offset dest_x_offset : Z) (y x : Z) : option stores :=
  packed_gray <- load src_buf (Z.quot (y * src_stride) 2 + Z.quot x 2) ;;
  color1 <- gfx_aaf_parse_palette header
                                  (Z.shiftr (Z.land packed_gray 240) 4)
                                  swap_color ;;
  color2 <- gfx_aaf_parse_palette header (Z.land packed_gray 15) swap_color ;;
  Some (mirror_store mirror_enabled (width header) mirror_offset dest_x_offset
          dest_stride y (x + 1) color1
          (mirror_store mirror_enabled (width header) mirror_offset
                        dest_x_offset dest_stride y x color1
                        [(y * dest_stride + x, color1)]
           ++ [(y * dest_stride + x + 1, color2)])).

End Paint.

(** ** Animation playback ([gfx_anim_timer_callback], [gfx_anim_set_src],
    [gfx_anim_set_segment], [gfx_anim_start], [gfx_anim_stop],
    [gfx_anim_set_mirror]) *)

Module Anim.

Import Header Container Cache.

Inductive gfx_obj_type_t : Set :=
| GFX_OBJ_TYPE_IMAGE
| GFX_OBJ_TYPE_LABEL
| GFX_OBJ_TYPE_ANIMATION.

(** The return values of the widget calls: those of the decoder and the
    two codes of the argument checks. *)
Inductive obj_err_t : Set :=
| Esp (e : esp_err_t)
| ESP_ERR_INVALID_ARG
| ESP_ERR_INVALID_STATE.

(** [gfx_anim_property_t], with the fields the playback calls use.  The
    three frame counters and [fps] are [uint32_t], the type of the
    arguments of [gfx_anim_set_segment]; [file_desc] is the container
    handle or [NULL]; [timer] is the timer with its period in
    milliseconds, or [NULL]. *)
Record gfx_anim_property_t : Set := mk_anim {
  file_desc : option gfx_aaf_format_ctx_t;
  start_frame : Z;
  end_frame : Z;
  current_frame : Z;
  fps : Z;
  repeat : bool;
  is_playing : bool;
  timer : option Z;
  frame : gfx_anim_frame_info_t;
  mirror_enabled : bool;
  mirror_offset : Z
}.

(** The fields of [gfx_obj_t] the playback calls look at. *)
Record gfx_obj_t : Set := mk_obj {
  type : gfx_obj_type_t;
  src : option gfx_anim_property_t;
  is_dirty : bool
}.

(** Assignments to one field. *)
Definition set_current (anim : gfx_anim_property_t) (v : Z)
  : gfx_anim_property_t :=
  mk_anim (file_desc anim) (start_frame anim) (end_frame anim) v (fps anim)
          (repeat anim) (is_playing anim) (timer anim) (frame anim)
          (mirror_enabled anim) (mirror_offset anim).

Definition set_playing (anim : gfx_anim_property_t) (v : bool)
  : gfx_anim_property_t :=
  mk_anim (file_desc anim) (start_frame anim) (end_frame anim)
          (current_frame anim) (fps anim) (repeat anim) v (timer anim)
          (frame anim) (mirror_enabled anim) (mirror_offset anim).

Definition set_frame (anim : gfx_anim_property_t)
           (v : gfx_anim_frame_info_t) : gfx_anim_property_t :=
  mk_anim (file_desc anim) (start_frame anim) (end_frame anim)
          (current_frame anim) (fps anim) (repeat anim) (is_playing anim)
          (timer anim) v (mirror_enabled anim) (mirror_offset anim).

(** [gfx_anim_timer_callback(obj)]: the object after the call. *)
Definition gfx_anim_timer_callback (obj : gfx_obj_t) : gfx_obj_t :=
  match src obj with
  | None => obj
  | Some anim =>
    if negb (is_playing anim) then obj
    else
      let anim1 := set_current anim (sz (current_frame anim + 1)) in
      if current_frame anim1 >? end_frame anim1 then
        if repeat anim1 then
          mk_obj (type obj) (Some (set_current anim1 (start_frame anim1))) true
        else
          mk_obj (type obj) (Some (set_playing anim1 false)) (is_dirty obj)
      else mk_obj (type obj) (Some anim1) true
  end.

(** The checks every call below begins with: [obj == NULL], the type of
    the object, [obj->src == NULL].  On success the body [k] runs on the
    animation; the result is the return value and the object. *)
Definition on_animation (obj : option gfx_obj_t)
           (k : gfx_anim_property_t -> obj_err_t * gfx_anim_property_t)
  : obj_err_t * option gfx_obj_t :=
  match obj with
  | None => (ESP_ERR_INVALID_ARG, None)
  | Some o =>
    match type o with
    | GFX_OBJ_TYPE_ANIMATION =>
      match src o with
      | None => (ESP_ERR_INVALID_STATE, obj)
      | Some anim =>
        let r := k anim in
        (fst r, Some (mk_obj (type o) (Some (snd r)) (is_dirty o)))
      end
    | _ => (ESP_ERR_INVALID_ARG, obj)
    end
  end.

Definition gfx_anim_stop (obj : option gfx_obj_t)
  : obj_err_t * option gfx_obj_t :=
  on_animation obj (fun anim =>
    if negb (is_playing anim) then (Esp ESP_OK, anim)
    else (Esp ESP_OK, set_playing anim false)).

Definition gfx_anim_start (obj : option gfx_obj_t)
  : obj_err_t * option gfx_obj_t :=
  on_animation obj (fun anim =>
    match file_desc anim with
    | None => (ESP_ERR_INVALID_STATE, anim)
    | Some _ =>
      if is_playing anim then (Esp ESP_OK, anim)
      else (Esp ESP_OK,
            set_current (set_playing anim true) (start_frame anim))
    end).

Definition gfx_anim_set_mirror (obj : option gfx_obj_t) (enabled : bool)
           (offset : Z) : obj_err_t * option gfx_obj_t :=
  on_animation obj (fun anim =>
    (Esp ESP_OK,
     mk_anim (file_desc anim) (start_frame anim) (end_frame anim)
             (current_frame anim) (fps anim) (repeat anim) (is_playing anim)
             (timer anim) (frame anim) enabled offset)).

(** [gfx_anim_set_segment]; [None] when the call does not return: the
    assertion of [gfx_aaf_format_get_total_frames] on a [NULL] handle, or
    the division [1000 / fps] by zero. *)
Definition gfx_anim_set_segment (obj : option gfx_obj_t)
           (start end_ fps_ : Z) (repeat_ : bool)
  : option (obj_err_t * option gfx_obj_t) :=
  match obj with
  | None => Some (ESP_ERR_INVALID_ARG, None)
  | Some o =>
    match type o with
    | GFX_OBJ_TYPE_ANIMATION =>
      match src o with
      | None => Some (ESP_ERR_INVALID_STATE, obj)
      | Some anim =>
        parser <- file_desc anim ;;
        let total_frames := total_frames parser in
        let end_frame :=
          if end_ >? sz (total_frames - 1) then sz (total_frames - 1)
          else end_ in
        timer' <-
          (if negb (fps anim =? fps_) then
             match timer anim with
             | Some _ =>
               if fps_ =? 0 then None else Some (Some (1000 / fps_))
             | None => Some None
             end
           else Some (timer anim)) ;;
        Some (Esp ESP_OK,
              Some (mk_obj (type o)
                      (Some (mk_anim (file_desc anim) start end_frame start
                                     fps_ repeat_ (is_playing anim) timer'
                                     (frame anim) (mirror_enabled anim)
                                     (mirror_offset anim)))
                      (is_dirty o)))
      end
    | _ => Some (ESP_ERR_INVALID_ARG, obj)
    end
  end.

(** [gfx_anim_set_src]; [src_data] is the buffer or [NULL].  [None] when
    the container check reads outside the buffer. *)
Definition gfx_anim_set_src (obj : option gfx_obj_t)
           (src_data : option (list Z))
  : option (obj_err_t * option gfx_obj_t) :=
  match obj, src_data with
  | None, _ => Some (ESP_ERR_INVALID_ARG, obj)
  | _, None => Some (ESP_ERR_INVALID_ARG, obj)
  | Some o, Some data =>
    match type o with
    | GFX_OBJ_TYPE_ANIMATION =>
      match src o with
      | None => Some (ESP_ERR_INVALID_STATE, obj)
      | Some anim =>
        let anim1 :=
          if is_playing anim then set_playing anim false else anim in
        let header1 :=
          if width (header (frame anim1)) >? 0 then blank_header []
          else header (frame anim1) in
        let frame1 :=
          mk_frame header1 false (block_offsets (frame anim1))
                   (pixel_buffer (frame anim1)) (last_block (frame anim1)) in
        let anim2 := set_frame anim1 frame1 in
        r <- gfx_aaf_format_init data ;;
        match snd r with
        | None =>
          Some (Esp ESP_FAIL, Some (mk_obj (type o) (Some anim2) (is_dirty o)))
        | Some new_desc =>
          Some (Esp ESP_OK,
                Some (mk_obj (type o)
                        (Some (mk_anim (Some new_desc) 0
                                       (sz (total_frames new_desc - 1)) 0
                                       (fps anim2) (repeat anim2)
                                       (is_playing anim2) (timer anim2)
                                       (frame anim2) (mirror_enabled anim2)
                                       (mirror_offset anim2)))
                        (is_dirty o)))
        end
      end
    | _ => Some (ESP_ERR_INVALID_ARG, obj)
    end
  end.

(** [n] timer periods. *)
Definition ticks (n : nat) (obj : gfx_obj_t) : gfx_obj_t :=
  Nat.iter n gfx_anim_timer_callback obj.

End Anim.

(** ** Frame preparation ([gfx_anim_preprocess_frame]) *)

Module Preprocess.

Import Header Container Render Cache.

(** What the call leaves: its return value, the frame information, the
    values stored to [block_offsets], the size of the pixel buffer and the
    palette cache ([None] is [NULL]). *)
Record prepared : Set := mk_prepared {
  ret : bool;
  frame : gfx_anim_frame_info_t;
  offsets : list Z;
  pixel_buffer_size : Z;
  color_palette : option (list Z)
}.

(** The argument of the allocation of the pixel buffer, computed in
    [int]: [None] when the product overflows, [Some None] when no branch
    allocates. *)
Definition pixel_bytes (header : gfx_aaf_header_t) : option (option Z) :=
  let width := width header in
  let block_height := block_height header in
  if bit_depth header =? 4 then
    if width * (block_height + Z.rem block_height 2) <? 2 ^ 31
    then Some (Some (Z.quot (width * (block_height + Z.rem block_height 2)) 2))
    else None
  else if bit_depth header =? 8 then
    if width * block_height <? 2 ^ 31 then Some (Some (width * block_height))
    else None
  else if bit_depth header =? 24 then
    if width * block_height * 2 <? 2 ^ 31
    then Some (Some (width * block_height * 2))
    else None
  else Some None.

(** [color_depth] *)
Definition color_depth (header : gfx_aaf_header_t) : Z :=
  if bit_depth header =? 4 then 16
  else if bit_depth header =? 8 then 256
  else 0.

(** Whether an allocation of zero bytes gives a pointer to no bytes
    ([true]) or [NULL] ([false]): C leaves the choice to the allocator.  An
    allocation of one byte or more is taken to succeed. *)
Section Allocator.

Variable malloc_zero : bool.

Definition allocated (size : Z) : bool := negb (size =? 0) || malloc_zero.

(** [gfx_anim_preprocess_frame] for an animation whose container is the
    buffer [data] with the handle [file_desc].  [None] when a frame
    accessor reads outside the entries or the header parser outside the
    buffer, when a size overflows, or when the header has no block and the
    allocator has given a pointer to no bytes, where
    [gfx_aaf_calculate_offsets] stores [offsets[0]] outside it. *)
Definition gfx_anim_preprocess_frame (data : list Z)
           (file_desc : gfx_aaf_format_ctx_t) (current_frame : Z)
           (frame : gfx_anim_frame_info_t) : option prepared :=
  let freed := gfx_anim_free_frame_info frame in
  match gfx_aaf_format_get_frame_data file_desc (to_int current_frame) with
  | Wild _ => None
  | Null => Some (mk_prepared false freed [] 0 None)
  | Value frame_data =>
    r <- gfx_aaf_parse_header (skipn (Z.to_nat frame_data) data) ;;
    let header := snd r in
    let failed :=
        mk_prepared false (mk_frame header true false false (-1)) [] 0 None in
    match fst r with
    | GFX_AAF_FORMAT_SBMP =>
      if negb (allocated (blocks header * 4)) then Some failed
      else
        size <- pixel_bytes header ;;
        match size with
        | None => Some failed
        | Some n =>
          if negb (allocated n) then Some failed
          else if blocks header =? 0 then None
          else
            Some (mk_prepared true (mk_frame header true true true (-1))
                    (gfx_aaf_calculate_offsets header) n
                    (if color_depth header =? 0 then None
                     else Some (List.repeat UNRESOLVED
                                            (Z.to_nat (color_depth header)))))
        end
    | _ => Some failed
    end
  end.

End Allocator.

End Preprocess.

(** ** Object alignment ([gfx_obj_calculate_aligned_position]) *)

Module Align.

(** The values of [obj->align_type] the switch names; [GFX_ALIGN_other]
    stands for any value that takes the [default] branch. *)
Inductive gfx_align_t : Set :=
| GFX_ALIGN_TOP_LEFT
| GFX_ALIGN_TOP_MID
| GFX_ALIGN_TOP_RIGHT
| GFX_ALIGN_LEFT_MID
| GFX_ALIGN_CENTER
| GFX_ALIGN_RIGHT_MID
| GFX_ALIGN_BOTTOM_LEFT
| GFX_ALIGN_BOTTOM_MID
| GFX_ALIGN_BOTTOM_RIGHT
| GFX_ALIGN_OUT_TOP_LEFT
| GFX_ALIGN_OUT_TOP_MID
| GFX_ALIGN_OUT_TOP_RIGHT
| GFX_ALIGN_OUT_LEFT_TOP
| GFX_ALIGN_OUT_LEFT_MID
| GFX_ALIGN_OUT_LEFT_BOTTOM
| GFX_ALIGN_OUT_RIGHT_TOP
| GFX_ALIGN_OUT_RIGHT_MID
| GFX_ALIGN_OUT_RIGHT_BOTTOM
| GFX_ALIGN_OUT_BOTTOM_LEFT
| GFX_ALIGN_OUT_BOTTOM_MID
| GFX_ALIGN_OUT_BOTTOM_RIGHT
| GFX_ALIGN_other.

(** The geometry fields of [gfx_obj_t]. *)
Record gfx_obj_t : Set := mk_obj {
  x : Z;
  y : Z;
  width : Z;
  height : Z;
  align_type : gfx_align_t;
  align_x_ofs : Z;
  align_y_ofs : Z;
  use_align : bool
}.

Section Coordinates.

(** The conversion of an [int] to [gfx_coord_t], the coordinate type of
    the library. *)
Variable coord : Z -> Z.

(** The values left in [*x] and [*y].  The arithmetic is that of [int],
    with the division of C, and every assignment converts to
    [gfx_coord_t]. *)
Definition gfx_obj_calculate_aligned_position (obj : gfx_obj_t)
           (parent_width parent_height : Z) : Z * Z :=
  if negb (use_align obj) then (coord (x obj), coord (y obj))
  else
    let pw := coord parent_width in
    let ph := coord parent_height in
    let left := align_x_ofs obj in
    let mid_x := Z.quot (pw - width obj) 2 + align_x_ofs obj in
    let right := pw - width obj + align_x_ofs obj in
    let top := align_y_ofs obj in
    let mid_y := Z.quot (ph - height obj) 2 + align_y_ofs obj in
    let bottom := ph - height obj + align_y_ofs obj in
    let out_left := - width obj + align_x_ofs obj in
    let out_right := pw + align_x_ofs obj in
    let out_top := - height obj + align_y_ofs obj in
    let out_bottom := ph + align_y_ofs obj in
    let calculated :=
      match align_type obj with
      | GFX_ALIGN_TOP_LEFT => (left, top)
      | GFX_ALIGN_TOP_MID => (mid_x, top)
      | GFX_ALIGN_TOP_RIGHT => (right, top)
      | GFX_ALIGN_LEFT_MID => (left, mid_y)
      | GFX_ALIGN_CENTER => (mid_x, mid_y)
      | GFX_ALIGN_RIGHT_MID => (right, mid_y)
      | GFX_ALIGN_BOTTOM_LEFT => (left, bottom)
      | GFX_ALIGN_BOTTOM_MID => (mid_x, bottom)
      | GFX_ALIGN_BOTTOM_RIGHT => (right, bottom)
      | GFX_ALIGN_OUT_TOP_LEFT => (left, out_top)
      | GFX_ALIGN_OUT_TOP_MID => (mid_x, out_top)
      | GFX_ALIGN_OUT_TOP_RIGHT => (out_right, out_top)
      | GFX_ALIGN_OUT_LEFT_TOP => (out_left, top)
      | GFX_ALIGN_OUT_LEFT_MID => (out_left, mid_y)
      | GFX_ALIGN_OUT_LEFT_BOTTOM => (out_left, out_bottom)
      | GFX_ALIGN_OUT_RIGHT_TOP => (out_right, top)
      | GFX_ALIGN_OUT_RIGHT_MID => (out_right, mid_y)
      | GFX_ALIGN_OUT_RIGHT_BOTTOM => (out_right, out_bottom)
      | GFX_ALIGN_OUT_BOTTOM_LEFT => (left, out_bottom)
      | GFX_ALIGN_OUT_BOTTOM_MID => (mid_x, out_bottom)
      | GFX_ALIGN_OUT_BOTTOM_RIGHT => (out_right, out_bottom)
      | GFX_ALIGN_other => (x obj, y obj)
      end in
    (coord (fst calculated), coord (snd calculated)).

End Coordinates.

(** The nine alignments inside the parent, the twelve outside of it. *)
Definition inner (a : gfx_align_t) : bool :=
  match a with
  | GFX_ALIGN_TOP_LEFT | GFX_ALIGN_TOP_MID | GFX_ALIGN_TOP_RIGHT
  | GFX_ALIGN_LEFT_MID | GFX_ALIGN_CENTER | GFX_ALIGN_RIGHT_MID
  | GFX_ALIGN_BOTTOM_LEFT | GFX_ALIGN_BOTTOM_MID | GFX_ALIGN_BOTTOM_RIGHT =>
    true
  | _ => false
  end.

Definition outer (a : gfx_align_t) : bool :=
  match a with
  | GFX_ALIGN_other => false
  | _ => negb (inner a)
  end.

(** [gfx_coord_t] as a signed integer of 16 bits. *)
Definition int16 (z : Z) : Z := (z + 2 ^ 15) mod 2 ^ 16 - 2 ^ 15.

End Align.

(** ** The byte layout of a container, for the round trip through
    [gfx_aaf_format_init] and the frame accessors *)

Module ContainerLayout.

Import Container Layout.

(** A frame as the container stores it: the magic 0x5A5A, then the frame
    bytes. *)
Definition blob (f : list Z) : list Z := 90 :: 90 :: f.

(** The table: for every frame its stored size and its offset, counted
    from the end of the table; [off] is the offset of the first one. *)
Fixpoint table_of (off : Z) (frames : list (list Z)) : list (Z * Z) :=
  match frames with
  | [] => []
  | f :: fs =>
    let size := Z.of_nat (length (blob f)) in
    (size, off) :: table_of (off + size) fs
  end.

Definition table_bytes (t : list (Z * Z)) : list Z :=
  flat_map (fun e => le32 (fst e) ++ le32 (snd e)) t.

(** The bytes from offset 16 on: the table, then the stored frames. *)
Definition body (frames : list (list Z)) : list Z :=
  table_bytes (table_of 0 frames) ++ concat (map blob frames).

(** 0x89 "AAF", the number of frames, the checksum and the length of the
    body, the body. *)
Definition serialize_container (frames : list (list Z)) : list Z :=
  [137; 65; 65; 70]
    ++ le32 (Z.of_nat (length frames))
    ++ le32 (sz (byte_sum (body frames)))
    ++ le32 (Z.of_nat (length (body frames)))
    ++ body frames.

(** The entries the loader builds from a table whose frames begin at
    [base]. *)
Definition entries_of (base : Z) (t : list (Z * Z)) : list asset_entry_t :=
  map (fun e => mk_entry (base + snd e) (mk_table_entry (fst e) (snd e))) t.

End ContainerLayout.

(** ** The draw routine and the bytes of the pixel buffer
    ([gfx_draw_animation]) *)

Module Pixels.

Import Header Render.

(** [gfx_anim_frame_info_t] as in [Cache], with the bytes that
    [pixel_buffer] points to ([None] is [NULL]).  The buffer is shared: every
    block decode of the frame writes to it and every renderer reads from
    it. *)
Record gfx_anim_frame_info_t : Set := mk_frame {
  header : gfx_aaf_header_t;
  frame_data : bool;
  block_offsets : bool;
  pixel_buffer : option (list Z);
  last_block : Z
}.

(** What a draw call does, in order: block decodes with their results and
    their stores to [decode_buffer], and the blocks handed to a renderer
    with the bytes [decode_buffer] holds at that moment. *)
Inductive event : Set :=
| Decoded (block : Z) (result : esp_err_t) (out : stores)
| Rendered (block : Z) (clip_block : gfx_area_t) (decode_buffer : list Z).

(** The stores of the decodes of a trace, oldest first. *)
Definition stores_of (trace : list event) : stores :=
  flat_map (fun e => match e with
                     | Decoded _ _ out => out
                     | Rendered _ _ _ => []
                     end) trace.

(** The frame and the events without the bytes, as [Cache] has them. *)
Definition erase (frame : gfx_anim_frame_info_t)
  : Cache.gfx_anim_frame_info_t :=
  Cache.mk_frame (header frame) (frame_data frame) (block_offsets frame)
                 (match pixel_buffer frame with
                  | Some _ => true
                  | None => false
                  end)
                 (last_block frame).

Definition erase_event (e : event) : Cache.event :=
  match e with
  | Decoded block result _ => Cache.Decoded block result
  | Rendered block clip_block _ => Cache.Rendered block clip_block
  end.

Definition bound (frame : gfx_anim_frame_info_t) : bool :=
  Cache.bound (erase frame).

Section Draw.

(** [gfx_anim_decode_block] on the bound frame, as a function of the
    block index and of [swap_color]: its return value and its stores to
    [decode_buffer].  The decoders write to the buffer and never read it.
    A store outside the buffer is a memory error and leaves the bytes of
    the buffer as they are ([apply_stores]). *)
Variable decode_block : Z -> bool -> esp_err_t * stores.

(** The body of the loop over the blocks, for one block: it returns
    [*last_block], the bytes of [decode_buffer] and the events of the
    iteration.  A decode that fails has stored to [decode_buffer] before
    the loop goes on to the next block with [*last_block] as it was. *)
Definition block_step (hdr : gfx_aaf_header_t) (obj_x obj_y : Z)
           (clip_object : gfx_area_t) (swap_color : bool) (block : Z)
           (last : Z) (decode_buffer : list Z)
  : Z * list Z * list event :=
  if negb (Cache.touches hdr obj_x obj_y clip_object block)
  then (last, decode_buffer, [])
  else
    let clip_block := Cache.clip_of_block hdr obj_x obj_y clip_object block in
    let render (source : list Z) :=
        if (bit_depth hdr =? 4) || (bit_depth hdr =? 8)
           || (bit_depth hdr =? 24)
        then [Rendered block clip_block source]
        else [] in
    if negb (block =? last) then
      let '(decode_result, out) := decode_block block swap_color in
      let decode_buffer' := apply_stores decode_buffer out in
      match decode_result with
      | ESP_OK =>
        (block, decode_buffer',
         Decoded block decode_result out :: render decode_buffer')
      | _ => (last, decode_buffer', [Decoded block decode_result out])
      end
    else (last, decode_buffer, render decode_buffer).

(** The loop [for (block = ...; block < aaf_blocks; block++)] with [n]
    iterations left. *)
Fixpoint blocks_loop (n : nat) (hdr : gfx_aaf_header_t) (obj_x obj_y : Z)
         (clip_object : gfx_area_t) (swap_color : bool) (block : Z)
         (last : Z) (decode_buffer : list Z) (trace : list event)
  : Z * list Z * list event :=
  match n with
  | O => (last, decode_buffer, trace)
  | S n' =>
    let '(last', decode_buffer', events) :=
      block_step hdr obj_x obj_y clip_object swap_color block last
                 decode_buffer in
    blocks_loop n' hdr obj_x obj_y clip_object swap_color (block + 1)
                last' decode_buffer' (trace ++ events)
  end.

(** A render request for the rectangle [req] of an object placed at
    [(obj_x, obj_y)] (the position after alignment).  It returns the frame
    state and the trace of the call. *)
Definition gfx_draw_animation (frame : gfx_anim_frame_info_t)
           (obj_x obj_y : Z) (req : gfx_area_t) (swap_color : bool)
  : gfx_anim_frame_info_t * list event :=
  if negb (frame_data frame) then (frame, [])
  else if width (header frame) =? 0 then (frame, [])
  else
    match pixel_buffer frame with
    | None => (frame, [])
    | Some decode_buffer =>
      if negb (block_offsets frame) then (frame, [])
      else
        let hdr := header frame in
        let clip_object := Cache.clip_of_request hdr obj_x obj_y req in
        if (x1 clip_object >=? x2 clip_object)
           || (y1 clip_object >=? y2 clip_object)
        then (frame, [])
        else
          let '(last, decode_buffer', trace) :=
            blocks_loop (Z.to_nat (blocks hdr)) hdr obj_x obj_y clip_object
                        swap_color 0 (last_block frame) decode_buffer [] in
          (mk_frame hdr (frame_data frame) (block_offsets frame)
                    (Some decode_buffer') last, trace)
    end.

(** What holds of the event [e] of the block loop that starts at block
    [lo] with [n] iterations left, the cached block [last] and the bytes
    [buffer] in the pixel buffer, when the events [before] have come before
    it.  A decode is of a block the request touches and carries what
    [gfx_anim_decode_block] gives.  A block handed to a renderer is touched
    and rendered in its clip rectangle from the buffer with all the stores
    made so far; it is the block decoded just before with [ESP_OK], or it is
    the block that was cached at the start, and then every decode made so
    far was of an earlier block and has failed. *)
Definition event_at (hdr : gfx_aaf_header_t) (obj_x obj_y : Z)
           (clip_object : gfx_area_t) (swap_color : bool)
           (lo : Z) (n : nat) (last : Z) (buffer : list Z)
           (before : list event) (e : event) : Prop :=
  match e with
  | Decoded b res out =>
    lo <= b < lo + Z.of_nat n
    /\ Cache.touches hdr obj_x obj_y clip_object b = true
    /\ decode_block b swap_color = (res, out)
  | Rendered b clip source =>
    lo <= b < lo + Z.of_nat n
    /\ Cache.touches hdr obj_x obj_y clip_object b = true
    /\ clip = Cache.clip_of_block hdr obj_x obj_y clip_object b
    /\ source = apply_stores buffer (stores_of before)
    /\ ((exists before' out, before = before' ++ [Decoded b ESP_OK out])
        \/ (b = last
            /\ forall b' res out,
                 In (Decoded b' res out) before ->
                 lo <= b' < b
                 /\ decode_block b' swap_color = (res, out)
                 /\ res <> ESP_OK))
  end.

End Draw.

End Pixels.

(** * Properties *)

(** Case analysis on the first integer comparison of the goal. *)
Ltac zcase :=
  match goal with
  | |- context [?a >? ?b] =>
    rewrite (Z.gtb_ltb a b); destruct (Z.ltb_spec b a)
  | |- context [?a >=? ?b] =>
    rewrite (Z.geb_leb a b); destruct (Z.leb_spec b a)
  | |- context [?a <? ?b] => destruct (Z.ltb_spec a b)
  | |- context [?a <=? ?b] => destruct (Z.leb_spec a b)
  | |- context [?a =? ?b] => destruct (Z.eqb_spec a b)
  end.

(** ** The machine model *)

Lemma sz_small z : 0 <= z < 2 ^ 32 -> sz z = z.
Proof. intros H. unfold sz. now apply Z.mod_small. Qed.

Lemma load_nat (p : list Z) (i : nat) : load p (Z.of_nat i) = nth_error p i.
Proof. unfold load. zcase; [lia|]. now rewrite Nat2Z.id. Qed.

Lemma load_app_r (pre l : list Z) (i : Z) :
  0 <= i -> load (pre ++ l) (Z.of_nat (length pre) + i) = load l i.
Proof.
  intros Hi. unfold load. do 2 (zcase; [lia|]).
  replace (Z.to_nat (Z.of_nat (length pre) + i))
    with (length pre + Z.to_nat i)%nat by lia.
  now rewrite nth_error_app2, Nat.add_comm, Nat.add_sub by lia.
Qed.

Lemma load_app_l (l post : list Z) (i : Z) :
  0 <= i < Z.of_nat (length l) -> load (l ++ post) i = load l i.
Proof.
  intros Hi. unfold load. zcase; [lia|]. apply nth_error_app1. lia.
Qed.

Lemma load_cons_succ (b : Z) (l : list Z) (i : Z) :
  0 <= i -> load (b :: l) (i + 1) = load l i.
Proof.
  intros Hi. unfold load. do 2 (zcase; [lia|]).
  replace (Z.to_nat (i + 1)) with (S (Z.to_nat i)) by lia. reflexivity.
Qed.

Lemma load_some_bound (p : list Z) (i v : Z) :
  load p i = Some v -> 0 <= i < Z.of_nat (length p).
Proof.
  unfold load. zcase; [discriminate|].
  intros E. assert (nth_error p (Z.to_nat i) <> None) as Hn by congruence.
  apply nth_error_Some in Hn. lia.
Qed.

Lemma write_from_app (p : Z) (l1 l2 : list Z) :
  write_from p (l1 ++ l2)
  = write_from p l1 ++ write_from (p + Z.of_nat (length l1)) l2.
Proof.
  revert p. induction l1 as [|v l1 IH]; intros p; simpl.
  - now rewrite Z.add_0_r.
  - rewrite IH. do 3 f_equal. lia.
Qed.

Lemma write_from_length (p : Z) (l : list Z) :
  length (write_from p l) = length l.
Proof. revert p. induction l; intros; simpl; auto. Qed.

Lemma write_from_values (p : Z) (l : list Z) : map snd (write_from p l) = l.
Proof. revert p. induction l; intros; simpl; f_equal; auto. Qed.

Lemma poke_app (pre post : list Z) (h v : Z) :
  poke (pre ++ h :: post) (length pre) v = pre ++ v :: post.
Proof. induction pre; simpl; [reflexivity | now f_equal]. Qed.

Lemma poke_length (buf : list Z) (i : nat) (v : Z) :
  length (poke buf i v) = length buf.
Proof. revert i. induction buf; intros [|i]; simpl; auto. Qed.

(** Writing a list to consecutive cells of a buffer that has room for it
    replaces exactly those cells. *)
(** Consecutive stores stay inside a buffer exactly when it has room for
    all of them. *)
Lemma write_from_out_of_bounds (capacity : Z) (l : list Z) :
  forall p, 0 <= p <= capacity -> capacity < p + Z.of_nat (length l) ->
    in_bounds capacity (write_from p l) = false.
Proof.
  induction l as [|v l IH]; intros p Hp Hc; [simpl in Hc; lia|].
  change (in_bounds capacity (write_from p (v :: l)))
    with ((0 <=? p) && (p <? capacity)
          && in_bounds capacity (write_from (p + 1) l)).
  destruct (Z.ltb_spec p capacity) as [Hlt|Hge].
  - rewrite IH; [apply andb_false_r | lia | cbn [length] in Hc; lia].
  - now rewrite andb_false_r.
Qed.

Lemma write_from_in_bounds (capacity : Z) (l : list Z) :
  forall p, 0 <= p -> p + Z.of_nat (length l) <= capacity ->
    in_bounds capacity (write_from p l) = true.
Proof.
  induction l as [|v l IH]; intros p Hp Hc; [reflexivity|].
  change (in_bounds capacity (write_from p (v :: l)))
    with ((0 <=? p) && (p <? capacity)
          && in_bounds capacity (write_from (p + 1) l)).
  cbn [length] in Hc. rewrite IH by lia.
  destruct (Z.leb_spec 0 p); [|lia].
  destruct (Z.ltb_spec p capacity); [reflexivity | lia].
Qed.

Lemma apply_write_from (l pre post : list Z) :
  (length l <= length post)%nat ->
  apply_stores (pre ++ post) (write_from (Z.of_nat (length pre)) l)
  = pre ++ l ++ skipn (length l) post.
Proof.
  revert pre post. induction l as [|v l IH]; intros pre post Hlen; simpl.
  - reflexivity.
  - destruct post as [|h post]; [simpl in Hlen; lia|].
    unfold apply_stores in *. simpl. unfold apply_store at 2. simpl.
    zcase; [lia|].
    rewrite Nat2Z.id, poke_app.
    replace (pre ++ v :: post) with ((pre ++ [v]) ++ post)
      by now rewrite <- app_assoc.
    replace (Z.of_nat (length pre) + 1) with (Z.of_nat (length (pre ++ [v])))
      by (rewrite length_app; simpl; lia).
    rewrite IH by (simpl in Hlen; lia).
    now rewrite <- app_assoc.
Qed.

Lemma in_bounds_write_from (capacity p : Z) (l : list Z) :
  0 <= p -> p + Z.of_nat (length l) <= capacity ->
  in_bounds capacity (write_from p l) = true.
Proof.
  revert p. induction l as [|v l IH]; intros p Hp Hc; simpl; [reflexivity|].
  simpl in Hc. rewrite IH by lia. do 2 (zcase; [|lia]). reflexivity.
Qed.

Lemma load_app_head (pre post : list Z) (b : Z) :
  load (pre ++ b :: post) (Z.of_nat (length pre)) = Some b.
Proof. rewrite load_nat, nth_error_app2, Nat.sub_diag by lia. reflexivity. Qed.

Lemma load_app_next (pre post : list Z) (a b : Z) :
  load (pre ++ a :: b :: post) (Z.of_nat (length pre) + 1) = Some b.
Proof.
  replace (Z.of_nat (length pre) + 1) with (Z.of_nat (length (pre ++ [a])))
    by (rewrite length_app; simpl; lia).
  replace (pre ++ a :: b :: post) with ((pre ++ [a]) ++ b :: post)
    by now rewrite <- app_assoc.
  apply load_app_head.
Qed.

(** ** Run-length decoder *)

Section RleFacts.

Import Rle.

Lemma fill_spec (n : nat) (v p : Z) (out : stores) :
  0 <= p -> p + Z.of_nat n < 2 ^ 32 ->
  fill n v p out = (p + Z.of_nat n, out ++ write_from p (repeat v n)).
Proof.
  revert p out. induction n as [|n IH]; intros p out Hp Hn.
  - simpl. now rewrite Z.add_0_r, app_nil_r.
  - cbn [fill repeat write_from]. rewrite sz_small by lia.
    rewrite IH by lia. rewrite <- app_assoc. simpl. f_equal. lia.
Qed.

Lemma run_ok_bounds (r : run) :
  run_ok r = true -> 1 <= fst r <= 255 /\ 0 <= snd r < 256.
Proof.
  unfold run_ok, is_byte. intros H.
  repeat (apply andb_prop in H; destruct H as [H ?]). lia.
Qed.

Lemma expand_cons_length (r : run) (runs : list run) :
  0 <= fst r ->
  Z.of_nat (length (expand (r :: runs)))
  = fst r + Z.of_nat (length (expand runs)).
Proof.
  intros H. unfold expand. simpl. rewrite length_app, repeat_length. lia.
Qed.

(** The loop, started in front of the encoding of [runs], stores their
    expansion and stops at the end of the input. *)
Lemma loop_encode (runs : list run) :
  forall (pre post : list Z) (fuel : nat) (input_len output_len out_pos : Z)
         (out : stores) (rd : list Z),
    forallb run_ok runs = true ->
    (length runs < fuel)%nat ->
    input_len = Z.of_nat (length pre) + Z.of_nat (length (encode runs)) ->
    input_len < 2 ^ 32 - 1 ->
    0 <= out_pos ->
    out_pos + Z.of_nat (length (expand runs)) <= output_len < 2 ^ 32 ->
    exists rd',
      loop fuel (pre ++ encode runs ++ post) input_len output_len
           (Z.of_nat (length pre)) out_pos out rd
      = Some (mk_result ESP_OK (out ++ write_from out_pos (expand runs)) rd').
Proof.
  induction runs as [|[c v] runs IH];
    intros pre post fuel input_len output_len out_pos out rd Hok Hfuel Hlen
           Hmax Hpos Hroom;
    (destruct fuel as [|fuel]; [simpl in Hfuel; lia|]).
  - simpl in Hlen. cbn [loop]. rewrite sz_small by lia.
    zcase; [lia|]. exists rd. simpl. now rewrite app_nil_r.
  - cbn [forallb] in Hok. apply andb_prop in Hok as [Hr Hok].
    apply run_ok_bounds in Hr. cbn [fst snd] in Hr.
    rewrite expand_cons_length in Hroom by (simpl; lia). cbn [fst] in Hroom.
    cbn [encode flat_map app length] in Hlen.
    fold (encode runs) in Hlen.
    cbn [loop encode flat_map fst snd app]. fold (encode runs).
    rewrite (sz_small (_ + 1)), (sz_small (_ + 2)) by lia.
    zcase; [|lia].
    rewrite load_app_head, load_app_next.
    rewrite sz_small by lia. zcase; [lia|].
    rewrite fill_spec by lia.
    replace (pre ++ c :: v :: encode runs ++ post)
      with ((pre ++ [c; v]) ++ encode runs ++ post)
      by now rewrite <- app_assoc.
    replace (Z.of_nat (length pre) + 2)
      with (Z.of_nat (length (pre ++ [c; v])))
      by (rewrite length_app; simpl; lia).
    destruct (IH (pre ++ [c; v]) post fuel input_len output_len
                 (out_pos + Z.of_nat (Z.to_nat c))
                 (out ++ write_from out_pos (repeat v (Z.to_nat c)))
                 (rd ++ [Z.of_nat (length pre); Z.of_nat (length pre) + 1]))
      as [rd' Hrd'];
      try (rewrite ?length_app; simpl in *; lia); [assumption|].
    exists rd'. rewrite Hrd'. do 2 f_equal.
    unfold expand. cbn [flat_map snd fst]. fold (expand runs).
    rewrite write_from_app, repeat_length, <- app_assoc. reflexivity.
Qed.

(** C6.  RLE round-trip: the decoder, run on the (count, value) encoding
    of a byte stream with every count in 1..255 and given an output buffer
    with room for the stream, succeeds and stores exactly the stream, in
    order, from the start of the buffer, leaving the rest of the buffer as
    it was; on the empty input it stores nothing and succeeds. *)
Theorem rle_roundtrip (runs : list run) (post buf : list Z) :
  forallb run_ok runs = true ->
  Z.of_nat (length (encode runs)) < 2 ^ 32 - 1 ->
  (length (expand runs) <= length buf)%nat ->
  Z.of_nat (length buf) < 2 ^ 32 ->
  (exists r,
      gfx_aaf_rle_decode (encode runs ++ post)
                         (Z.of_nat (length (encode runs)))
                         (Z.of_nat (length buf)) = Some r
      /\ ret r = ESP_OK
      /\ written r = write_from 0 (expand runs)
      /\ apply_stores buf (written r)
         = expand runs ++ skipn (length (expand runs)) buf)
  /\ gfx_aaf_rle_decode post 0 (Z.of_nat (length buf))
     = Some (mk_result ESP_OK [] []).
Proof.
  intros Hok Hin Hroom Hbuf. split.
  - unfold gfx_aaf_rle_decode.
    destruct (loop_encode runs [] post
                (S (Z.to_nat (Z.of_nat (length (encode runs)))))
                (Z.of_nat (length (encode runs))) (Z.of_nat (length buf))
                0 [] []) as [rd' Hrd']; try (simpl; lia); [assumption| |].
    + rewrite Nat2Z.id. unfold encode. clear.
      induction runs; simpl; lia.
    + simpl in Hrd'. exists (mk_result ESP_OK (write_from 0 (expand runs)) rd').
      split; [exact Hrd'|]. cbn [ret written]. repeat split.
      apply (apply_write_from (expand runs) [] buf Hroom).
  - reflexivity.
Qed.

End RleFacts.

(** The loop test [in_pos + 1 <= input_len] lets an iteration start on the
    last byte of an input of odd length; the value byte is then read one
    past the end.  Whatever the inputs, no read goes further than that. *)
Lemma rle_loop_reads_bound (fuel : nat) :
  forall (input : list Z) (input_len output_len in_pos out_pos : Z)
         (out : stores) (rd : list Z) (r : Rle.result),
    0 <= in_pos <= input_len + 1 -> input_len < 2 ^ 32 - 2 ->
    Forall (fun i => 0 <= i <= input_len) rd ->
    Rle.loop fuel input input_len output_len in_pos out_pos out rd = Some r ->
    Forall (fun i => 0 <= i <= input_len) (Rle.read r).
Proof.
  induction fuel as [|fuel IH];
    intros input input_len output_len in_pos out_pos out rd r Hpos Hmax Hrd;
    cbn [Rle.loop]; [discriminate|].
  rewrite (sz_small (in_pos + 1)) by lia.
  destruct (Z.leb_spec (in_pos + 1) input_len) as [Hle|Hgt].
  - destruct (load input in_pos) as [count|]; [|discriminate].
    destruct (load input (in_pos + 1)) as [value|]; [|discriminate].
    assert (Forall (fun i => 0 <= i <= input_len) (rd ++ [in_pos; in_pos + 1]))
      as Hrd'.
    { apply Forall_app. split; [assumption|]. repeat constructor; lia. }
    destruct (sz (out_pos + count) >? output_len).
    + intros E. injection E as <-. exact Hrd'.
    + destruct (Rle.fill (Z.to_nat count) value out_pos out) as [p o].
      apply IH; try assumption. rewrite sz_small by lia. lia.
  - intros E. injection E as <-. exact Hrd.
Qed.

(** C9.  On an input of odd length the decoder reads the value byte of the
    last pair at index [input_len], outside the input: with [input_len = 1]
    it reads [input[0]] and [input[1]], and expands the pair it made of the
    byte behind the buffer. *)
Theorem rle_reads_past_odd_input :
  Rle.gfx_aaf_rle_decode [3; 7] 1 8
  = Some (Rle.mk_result ESP_OK [(0, 7); (1, 7); (2, 7)] [0; 1])
  /\ existsb (fun i => 1 <=? i) [0; 1] = true.
Proof. split; reflexivity. Qed.

(** ** Huffman engine: failure reporting and output bounds *)

(** [decode_huffman_data] has one return value. *)
Lemma decode_huffman_data_always_ok (data dict_bytes : list Z)
      (data_len dict_len : Z) (r : Huffman.result) :
  Huffman.decode_huffman_data data data_len dict_bytes dict_len = Some r ->
  Huffman.ret r = ESP_OK.
Proof.
  unfold Huffman.decode_huffman_data.
  destruct ((data_len =? 0) || (dict_len =? 0)).
  - intros E. now injection E as <-.
  - destruct (load dict_bytes 0); [|discriminate].
    destruct (Huffman.build_tree _ _ _ _ _); [|discriminate].
    destruct (Huffman.decode_bits _ _ _ _ _ _ _); [|discriminate].
    intros E. now injection E as <-.
Qed.

(** Hence the wrapper fails on its three argument checks only, never on
    what the bit stream holds. *)
Lemma huffman_decode_fails_on_arguments_only (buffer : list Z)
      (buflen len0 : Z) (r : Huffman.result) :
  Huffman.gfx_aaf_huffman_decode buffer buflen len0 = Some r ->
  Huffman.ret r = ESP_FAIL ->
  Huffman.written r = [] /\ Huffman.output_len r = len0.
Proof.
  unfold Huffman.gfx_aaf_huffman_decode.
  destruct (buflen <? 1); [intros E; injection E as <-; auto|].
  destruct (load buffer 2) as [hi|]; [|discriminate].
  destruct (load buffer 1) as [lo|]; [|discriminate].
  destruct (buflen <? _); [intros E; injection E as <-; auto|].
  destruct (_ =? 0); [intros E; injection E as <-; auto|].
  destruct (Huffman.decode_huffman_data _ _ _ _) as [d|] eqn:Ed; [|discriminate].
  apply decode_huffman_data_always_ok in Ed. rewrite Ed.
  intros E. injection E as <-. discriminate.
Qed.

(** C2.  A bit sequence that runs off the tree: the table has the single
    code 0 for the byte 65, the payload byte is 0010_0000.  Two bytes are
    decoded, the third bit finds no right child and the loop is left; the
    call stores the two bytes, reports [output_len = 2] and returns
    [ESP_OK], not a failure. *)
Theorem huffman_invalid_path_returns_ok :
  Huffman.gfx_aaf_huffman_decode [1; 4; 0; 0; 65; 1; 0; 32] 8 0
  = Some (Huffman.mk_result ESP_OK 2 [(0, 65); (1, 65)]).
Proof. reflexivity. Qed.

(** ** Block decoder: output capacity *)

Lemma load_byte (p : list Z) (i v : Z) :
  forallb is_byte p = true -> load p i = Some v -> 0 <= v < 256.
Proof.
  intros Hp. unfold load. destruct (i <? 0); [discriminate|].
  intros E. apply nth_error_In in E.
  rewrite forallb_forall in Hp. specialize (Hp v E).
  unfold is_byte in Hp. apply andb_prop in Hp as [H1 H2]. lia.
Qed.

(** The run-length stage checks the capacity before it stores: whatever
    the input bytes, every store it makes is inside [output_len] cells. *)
Lemma rle_fill_in_bounds (n : nat) :
  forall (v p cap : Z) (out : stores),
    0 <= p -> p + Z.of_nat n <= cap -> cap < 2 ^ 32 ->
    in_bounds cap out = true ->
    in_bounds cap (snd (Rle.fill n v p out)) = true
    /\ fst (Rle.fill n v p out) = p + Z.of_nat n.
Proof.
  induction n as [|n IH]; intros v p cap out Hp Hn Hcap Hout.
  - simpl. split; [assumption | lia].
  - cbn [Rle.fill]. rewrite sz_small by lia.
    destruct (IH v (p + 1) cap (out ++ [(p, v)])) as [H1 H2]; try lia.
    + unfold in_bounds in *. rewrite forallb_app, Hout. simpl.
      do 2 (zcase; [|lia]). reflexivity.
    + split; [assumption | lia].
Qed.

Lemma rle_loop_in_bounds (fuel : nat) :
  forall (input : list Z) (input_len output_len in_pos out_pos : Z)
         (out : stores) (rd : list Z) (r : Rle.result),
    forallb is_byte input = true ->
    0 <= out_pos <= output_len -> output_len < 2 ^ 32 - 255 ->
    in_bounds output_len out = true ->
    Rle.loop fuel input input_len output_len in_pos out_pos out rd = Some r ->
    in_bounds output_len (Rle.written r) = true.
Proof.
  induction fuel as [|fuel IH];
    intros input input_len output_len in_pos out_pos out rd r Hin Hpos Hmax
           Hout;
    cbn [Rle.loop]; [discriminate|].
  destruct (sz (in_pos + 1) <=? input_len).
  - destruct (load input in_pos) as [count|] eqn:Ec; [|discriminate].
    destruct (load input (sz (in_pos + 1))) as [value|]; [|discriminate].
    apply (load_byte _ _ _ Hin) in Ec.
    rewrite sz_small by lia. zcase.
    + intros E. now injection E as <-.
    + destruct (rle_fill_in_bounds (Z.to_nat count) value out_pos
                  output_len out) as [H1 H2]; try lia; try assumption.
      destruct (Rle.fill (Z.to_nat count) value out_pos out) as [p o].
      cbn [fst snd] in *. apply IH; try assumption. lia.
  - intros E. now injection E as <-.
Qed.

Lemma rle_decode_in_bounds (input : list Z) (input_len output_len : Z)
      (r : Rle.result) :
  forallb is_byte input = true ->
  0 <= output_len < 2 ^ 32 - 255 ->
  Rle.gfx_aaf_rle_decode input input_len output_len = Some r ->
  in_bounds output_len (Rle.written r) = true.
Proof.
  intros Hin Hmax. unfold Rle.gfx_aaf_rle_decode.
  apply rle_loop_in_bounds; try assumption; try lia. reflexivity.
Qed.

(** C3.  A Huffman block whose decoded output exceeds the capacity
    [width * block_height = 1]: the table has the single code 0 for the
    byte 65 and the payload byte 0 decodes to eight bytes.  The call does
    return [ESP_FAIL], but only after the Huffman stage has stored all
    eight bytes, seven of them behind the one-byte buffer: into the scratch
    buffer for the encoding tag 1, into [decode_buffer] itself for the
    tag 3. *)
Theorem huffman_block_overruns_capacity :
  let jpeg := fun (_ : list Z) (_ _ : Z) (_ : bool) => (ESP_FAIL, @nil (Z * Z)) in
  let hdr := Header.mk_header Header.tag_S [] 8 1 1 1 1 [8] 0 [] 256 in
  let overrun := write_from 0 (repeat 65 8) in
  Block.gfx_anim_decode_block jpeg [1; 4; 0; 0; 65; 1; 0; 0] [0] hdr 0 [0]
                              1 1 false
  = Some (Block.mk_result ESP_FAIL [] overrun)
  /\ Block.gfx_anim_decode_block jpeg [3; 4; 0; 0; 65; 1; 0; 0] [0] hdr 0 [0]
                                 1 1 false
     = Some (Block.mk_result ESP_FAIL overrun [])
  /\ in_bounds 1 overrun = false.
Proof. repeat split. Qed.

(** ** Container index *)

Section ContainerFacts.

Import Header Container.

(** The accessors test the index against [total_frames] from above only.
    For a handle whose array has [total_frames] entries they behave as
    follows. *)
Lemma frame_accessors_by_range (parser : gfx_aaf_format_ctx_t) (index : Z) :
  Z.of_nat (length (entries parser)) = total_frames parser ->
  (total_frames parser <= index ->
   gfx_aaf_format_get_frame_data parser index = Null
   /\ gfx_aaf_format_get_frame_size parser index = Value (-1))
  /\ (0 <= index < total_frames parser ->
      exists e, entry_at parser index = Some e
        /\ gfx_aaf_format_get_frame_data parser index
           = Value (asset_mem e + GFX_AAF_MAGIC_LEN)
        /\ gfx_aaf_format_get_frame_size parser index
           = Value (to_int (asset_size (table e) - GFX_AAF_MAGIC_LEN)))
  /\ (index < 0 -> 0 <= total_frames parser ->
      gfx_aaf_format_get_frame_data parser index = Wild index
      /\ gfx_aaf_format_get_frame_size parser index = Wild index).
Proof.
  intros Hlen.
  unfold gfx_aaf_format_get_frame_data, gfx_aaf_format_get_frame_size, entry_at.
  repeat split.
  - zcase; [lia | reflexivity].
  - zcase; [lia | reflexivity].
  - intros Hi. destruct (nth_error (entries parser) (Z.to_nat index)) as [e|] eqn:E.
    + exists e. repeat zcase; try lia. auto.
    + apply nth_error_None in E. lia.
  - zcase; [|lia]. zcase; [reflexivity | lia].
  - zcase; [|lia]. zcase; [reflexivity | lia].
Qed.

(** C10.  A negative index passes the only test there is,
    [total_frames > index]: on the handle of a container of one frame,
    index -1 makes [get_frame_data] return a pointer computed from the
    memory in front of the entries array, not [NULL], and
    [get_frame_size] a size read from there, not -1.  Index 1, past the
    last frame, is refused as it should be. *)
Theorem negative_index_reads_before_entries :
  exists parser,
    gfx_aaf_format_init
      [137; 65; 65; 70; 1; 0; 0; 0; 106; 1; 0; 0; 12; 0; 0; 0;
       4; 0; 0; 0; 0; 0; 0; 0; 90; 90; 95; 83]
    = Some (ESP_OK, Some parser)
    /\ total_frames parser = 1
    /\ gfx_aaf_format_get_frame_data parser (-1) = Wild (-1)
    /\ gfx_aaf_format_get_frame_size parser (-1) = Wild (-1)
    /\ gfx_aaf_format_get_frame_data parser 1 = Null
    /\ gfx_aaf_format_get_frame_size parser 1 = Value (-1).
Proof. eexists. split; [reflexivity|]. repeat split. Qed.

Lemma byte_sum_app (l1 l2 : list Z) :
  byte_sum (l1 ++ l2) = byte_sum l1 + byte_sum l2.
Proof. induction l1; simpl; lia. Qed.

(** The checksum loop reads [n] bytes and returns their sum modulo 2^32;
    it needs all of them to be there. *)
Lemma checksum_loop_spec (n : nat) :
  forall (pre l : list Z) (acc : Z),
    0 <= acc < 2 ^ 32 ->
    checksum_loop n (pre ++ l) (Z.of_nat (length pre)) acc
    = if (n <=? length l)%nat then Some (sz (acc + byte_sum (firstn n l)))
      else None.
Proof.
  induction n as [|n IH]; intros pre l acc Hacc.
  - simpl. rewrite Z.add_0_r, sz_small by assumption. reflexivity.
  - cbn [checksum_loop]. destruct l as [|b l].
    + rewrite app_nil_r. unfold load. zcase; [lia|].
      rewrite Nat2Z.id. replace (nth_error pre (length pre)) with (@None Z)
        by (symmetry; apply nth_error_None; lia).
      reflexivity.
    + rewrite load_app_head.
      replace (pre ++ b :: l) with ((pre ++ [b]) ++ l)
        by now rewrite <- app_assoc.
      replace (Z.of_nat (length pre) + 1)
        with (Z.of_nat (length (pre ++ [b])))
        by (rewrite length_app; simpl; lia).
      rewrite IH by (unfold sz; apply Z.mod_pos_bound; lia).
      cbn [length firstn byte_sum fold_right]. fold (byte_sum (firstn n l)).
      change (S n <=? S (length l))%nat with (n <=? length l)%nat.
      destruct (n <=? length l)%nat; [|reflexivity].
      f_equal. unfold sz. rewrite Z.add_mod_idemp_l by lia. f_equal. lia.
Qed.

Lemma calc_checksum_spec (l : list Z) (len : Z) :
  gfx_aaf_format_calc_checksum l len
  = if (Z.to_nat len <=? length l)%nat
    then Some (sz (byte_sum (firstn (Z.to_nat len) l))) else None.
Proof.
  unfold gfx_aaf_format_calc_checksum.
  apply (checksum_loop_spec (Z.to_nat len) [] l 0). lia.
Qed.

Lemma slice_app_l (l post : list Z) (off n : Z) :
  0 <= off -> 0 <= n -> off + n <= Z.of_nat (length l) ->
  slice (l ++ post) off n = slice l off n.
Proof.
  intros Hoff Hn Hlen. unfold slice. rewrite length_app.
  repeat (zcase; try lia); cbn [orb]. f_equal.
  rewrite skipn_app, firstn_app, length_skipn.
  replace (Z.to_nat n - (length l - Z.to_nat off))%nat with O by lia.
  now rewrite firstn_O, app_nil_r.
Qed.

Lemma load32_app_l (l post : list Z) (i : Z) :
  0 <= i -> i + 3 < Z.of_nat (length l) ->
  load32 (l ++ post) i = load32 l i.
Proof.
  intros Hi Hlen. unfold load32. now rewrite !load_app_l by lia.
Qed.

(** Two sums that differ by the difference of two distinct bytes differ
    modulo 2^32. *)
Lemma sz_add_byte_inj (s a b : Z) :
  0 <= a < 256 -> 0 <= b < 256 -> sz (s + a) = sz (s + b) -> a = b.
Proof.
  unfold sz. intros Ha Hb E.
  pose proof (Z.div_mod (s + a) (2 ^ 32) ltac:(lia)) as Da.
  pose proof (Z.div_mod (s + b) (2 ^ 32) ltac:(lia)) as Db.
  rewrite E in Da. change (2 ^ 32) with 4294967296 in *. lia.
Qed.

(** C5.  A container that [gfx_aaf_format_init] accepts is rejected with
    [ESP_ERR_INVALID_CRC] once a single byte of the region covered by the
    checksum (the [stored_len] bytes from offset 16) has been changed to a
    different byte: the byte sum modulo 2^32 over the region moves by the
    non-zero difference of the two bytes and no longer equals the stored
    value. *)
Theorem checksum_detects_single_byte_mutation
        (data : list Z) (parser : gfx_aaf_format_ctx_t) (stored_len i b : Z) :
  forallb is_byte data = true ->
  gfx_aaf_format_init data = Some (ESP_OK, Some parser) ->
  load32 data GFX_AAF_TABLE_LEN = Some stored_len ->
  GFX_AAF_TABLE_OFFSET <= i < GFX_AAF_TABLE_OFFSET + stored_len ->
  is_byte b = true ->
  load data i <> Some b ->
  gfx_aaf_format_init (mutate data i b) = Some (ESP_ERR_INVALID_CRC, None).
Proof.
  unfold GFX_AAF_TABLE_LEN, GFX_AAF_TABLE_OFFSET.
  intros Hbytes Hinit Hlen Hi Hb Hneq.
  unfold gfx_aaf_format_init in Hinit.
  unfold GFX_AAF_FORMAT_OFFSET, GFX_AAF_STR_OFFSET, GFX_AAF_NUM_OFFSET,
    GFX_AAF_CHECKSUM_OFFSET, GFX_AAF_TABLE_LEN, GFX_AAF_TABLE_OFFSET in Hinit.
  destruct (load data 0) as [magic|] eqn:Emagic; [|discriminate].
  destruct (negb (magic =? GFX_AAF_FORMAT_MAGIC)) eqn:Em; [discriminate|].
  destruct (slice data 1 3) as [str|] eqn:Estr; [|discriminate].
  destruct (negb (str_eqb str GFX_AAF_FORMAT_STR)) eqn:Es; [discriminate|].
  destruct (load32 data 4) as [frames|] eqn:Eframes; [|discriminate].
  destruct (load32 data 8) as [stored_chk|] eqn:Echk; [|discriminate].
  rewrite Hlen in Hinit.
  rewrite calc_checksum_spec in Hinit.
  destruct (Z.to_nat stored_len <=? length (skipn (Z.to_nat 16) data))%nat
    eqn:Efit; [|discriminate].
  apply Nat.leb_le in Efit. rewrite length_skipn in Efit.
  destruct (negb (_ =? stored_chk)) eqn:Ec; [discriminate|].
  apply negb_false_iff, Z.eqb_eq in Ec. clear Hinit.
  (* the byte that changes *)
  assert (Z.to_nat i < length data)%nat as Hin by lia.
  destruct (nth_error data (Z.to_nat i)) as [old|] eqn:Eold;
    [|apply nth_error_None in Eold; lia].
  apply nth_error_split in Eold as (pre & post & Hdata & Hpre).
  assert (Z.of_nat (length pre) = i) as Hprei by lia.
  assert (0 <= old < 256) as Hold.
  { apply (load_byte data i); [assumption|]. subst data.
    rewrite <- Hprei. apply load_app_head. }
  assert (old <> b) as Hdiff.
  { intros ->. apply Hneq. subst data. rewrite <- Hprei. apply load_app_head. }
  assert (0 <= b < 256) as Hbb.
  { unfold is_byte in Hb. apply andb_prop in Hb as [H1 H2]. lia. }
  assert (mutate data i b = pre ++ b :: post) as Hmut.
  { unfold mutate. zcase; [lia|]. subst data. rewrite <- Hpre. apply poke_app. }
  rewrite Hmut. subst data.
  rewrite load_app_l in Emagic by lia.
  rewrite slice_app_l in Estr by lia.
  rewrite load32_app_l in Eframes, Echk, Hlen by lia.
  unfold gfx_aaf_format_init.
  unfold GFX_AAF_FORMAT_OFFSET, GFX_AAF_STR_OFFSET, GFX_AAF_NUM_OFFSET,
    GFX_AAF_CHECKSUM_OFFSET, GFX_AAF_TABLE_LEN, GFX_AAF_TABLE_OFFSET.
  rewrite load_app_l, Emagic, Em by lia.
  rewrite slice_app_l, Estr, Es by lia.
  rewrite !load32_app_l, Eframes, Echk, Hlen by lia.
  rewrite calc_checksum_spec.
  rewrite length_app in Efit. cbn [length] in Efit.
  rewrite skipn_app in Ec |- *.
  replace (Z.to_nat 16 - length pre)%nat with O in * by lia.
  cbn [skipn] in Ec |- *.
  rewrite firstn_app in Ec. rewrite !length_app, length_skipn. cbn [length].
  replace (Z.to_nat stored_len <=? length pre - Z.to_nat 16 + S (length post))%nat
    with true by (symmetry; apply Nat.leb_le; lia).
  rewrite firstn_app, length_skipn.
  rewrite (firstn_all2 (n := Z.to_nat stored_len)) in Ec |- *
    by (rewrite length_skipn; lia).
  rewrite length_skipn in Ec.
  destruct (Z.to_nat stored_len - (length pre - Z.to_nat 16))%nat as [|k] eqn:Ek;
    [lia|].
  cbn [firstn] in Ec |- *.
  rewrite byte_sum_app in Ec |- *. cbn [byte_sum fold_right] in Ec |- *.
  fold (byte_sum (firstn k post)) in Ec |- *.
  destruct (negb (_ =? stored_chk)) eqn:Ec'; [reflexivity|].
  apply negb_false_iff, Z.eqb_eq in Ec'. exfalso. apply Hdiff.
  apply (sz_add_byte_inj
           (byte_sum (skipn (Z.to_nat 16) pre) + byte_sum (firstn k post)));
    try assumption.
  etransitivity; [|etransitivity; [exact (eq_trans Ec (eq_sym Ec'))|]];
    f_equal; lia.
Qed.

End ContainerFacts.

(** ** Bit-level arithmetic *)

(** An [or] of a value shifted left by [n] with a value below [2 ^ n] is
    their sum. *)
Lemma lor_shiftl_low (hi lo n : Z) :
  0 <= n -> 0 <= lo < 2 ^ n -> Z.lor (Z.shiftl hi n) lo = hi * 2 ^ n + lo.
Proof.
  intros Hn Hlo.
  assert (Z.land (Z.shiftl hi n) lo = 0) as Hland.
  { apply Z.bits_inj'. intros k Hk.
    rewrite Z.land_spec, Z.bits_0.
    destruct (Z.lt_ge_cases k n) as [Hlt|Hge].
    - now rewrite Z.shiftl_spec_low.
    - rewrite <- (Z.mod_small lo (2 ^ n)) by assumption.
      rewrite Z.mod_pow2_bits_high by lia. apply andb_false_r. }
  pose proof (Z.add_lor_land (Z.shiftl hi n) lo) as H.
  rewrite Hland in H. rewrite <- Z.shiftl_mul_pow2 by assumption. lia.
Qed.

(** A property of all integers below a bound, by enumeration. *)
Lemma forall_below (P : Z -> bool) (n : nat) :
  forallb P (map Z.of_nat (seq 0 n)) = true ->
  forall z, 0 <= z < Z.of_nat n -> P z = true.
Proof.
  intros H z Hz. rewrite forallb_forall in H. apply H.
  rewrite <- (Z2Nat.id z) by lia. apply in_map, in_seq. lia.
Qed.

(** ** Palette colour resolution *)

Section PaletteFacts.

Import Header.

Lemma red_channel (r : Z) :
  0 <= r < 256 -> Z.shiftl (Z.land r 248) 8 = (r / 8) * 2048.
Proof.
  intros H.
  apply Z.eqb_eq,
    (forall_below (fun r => Z.shiftl (Z.land r 248) 8 =? (r / 8) * 2048) 256);
    [now vm_compute | assumption].
Qed.

Lemma green_channel (g : Z) :
  0 <= g < 256 -> Z.shiftl (Z.land g 252) 3 = Z.shiftl (g / 4) 5.
Proof.
  intros H.
  apply Z.eqb_eq,
    (forall_below (fun g => Z.shiftl (Z.land g 252) 3 =? Z.shiftl (g / 4) 5)
                  256);
    [now vm_compute | assumption].
Qed.

Lemma blue_channel (b : Z) :
  0 <= b < 256 -> Z.shiftr (Z.land b 248) 3 = b / 8.
Proof.
  intros H.
  apply Z.eqb_eq,
    (forall_below (fun b => Z.shiftr (Z.land b 248) 3 =? b / 8) 256);
    [now vm_compute | assumption].
Qed.

(** The expression of [gfx_aaf_parse_palette] is the 5-6-5 reduction. *)
Lemma rgb565_expression (r g b : Z) :
  0 <= r < 256 -> 0 <= g < 256 -> 0 <= b < 256 ->
  Z.lor (Z.lor (Z.shiftl (Z.land r 248) 8) (Z.shiftl (Z.land g 252) 3))
        (Z.shiftr (Z.land b 248) 3)
  = truncate_565 r g b
  /\ 0 <= truncate_565 r g b < 65536.
Proof.
  intros Hr Hg Hb. unfold truncate_565.
  assert (0 <= r / 8 < 32) by (split; [apply Z.div_pos | apply Z.div_lt_upper_bound]; lia).
  assert (0 <= g / 4 < 64) by (split; [apply Z.div_pos | apply Z.div_lt_upper_bound]; lia).
  assert (0 <= b / 8 < 32) by (split; [apply Z.div_pos | apply Z.div_lt_upper_bound]; lia).
  split; [|lia].
  rewrite red_channel, green_channel, blue_channel by assumption.
  replace (r / 8 * 2048) with (Z.shiftl (Z.shiftl (r / 8) 6) 5)
    by (rewrite !Z.shiftl_mul_pow2 by lia; lia).
  rewrite <- Z.shiftl_lor.
  rewrite (lor_shiftl_low (r / 8) (g / 4) 6) by lia.
  rewrite lor_shiftl_low by lia.
  rewrite !Z.shiftl_mul_pow2 by lia.
  change (2 ^ 6) with 64. change (2 ^ 5) with 32. lia.
Qed.

(** [__builtin_bswap16] exchanges the two bytes of a 16-bit value. *)
Lemma bswap16_swaps (x : Z) :
  0 <= x < 65536 -> bswap16 x = swap_bytes16 x /\ 0 <= swap_bytes16 x < 65536.
Proof.
  intros Hx. unfold bswap16, swap_bytes16.
  assert (0 <= x / 256 < 256)
    by (split; [apply Z.div_pos | apply Z.div_lt_upper_bound]; lia).
  pose proof (Z.mod_pos_bound x 256 eq_refl).
  split; [|lia].
  change 255 with (Z.ones 8). rewrite !Z.land_ones by lia.
  rewrite Z.shiftr_div_pow2 by lia. change (2 ^ 8) with 256.
  rewrite (Z.mod_small (x / 256)) by lia.
  rewrite lor_shiftl_low by (change (2 ^ 8) with 256; lia).
  reflexivity.
Qed.

Lemma slice_spec (p l : list Z) (off n : Z) :
  slice p off n = Some l ->
  l = firstn (Z.to_nat n) (skipn (Z.to_nat off) p)
  /\ Z.of_nat (length l) = n.
Proof.
  unfold slice.
  destruct (Z.ltb_spec off 0); [discriminate|].
  destruct (Z.ltb_spec n 0); [discriminate|].
  destruct (Z.ltb_spec (Z.of_nat (length p)) (off + n)); [discriminate|].
  cbn [orb]. intros E. injection E as <-. split; [reflexivity|].
  rewrite length_firstn, length_skipn. lia.
Qed.

Lemma slice_bytes (p l : list Z) (off n : Z) :
  forallb is_byte p = true -> slice p off n = Some l ->
  forallb is_byte l = true.
Proof.
  intros Hp Hs. apply slice_spec in Hs as [-> _].
  rewrite forallb_forall in *. intros x Hx. apply Hp.
  rewrite <- (firstn_skipn (Z.to_nat off) p). apply in_or_app. right.
  rewrite <- (firstn_skipn (Z.to_nat n) (skipn (Z.to_nat off) p)).
  apply in_or_app. now left.
Qed.

(** What [gfx_aaf_parse_header] leaves in a split-bitmap header with a
    palette: [2 ^ bit_depth] entries of four bytes, copied from the frame. *)
Lemma parse_header_palette (data : list Z) (header : gfx_aaf_header_t) :
  forallb is_byte data = true ->
  gfx_aaf_parse_header data = Some (GFX_AAF_FORMAT_SBMP, header) ->
  bit_depth header = 4 \/ bit_depth header = 8 ->
  forallb is_byte (palette header) = true
  /\ Z.of_nat (length (palette header)) = 4 * 2 ^ bit_depth header.
Proof.
  intros Hbytes Hparse Hdepth. unfold gfx_aaf_parse_header in Hparse.
  destruct (slice data 0 2) as [fmt|]; [|discriminate].
  destruct (tag_eqb fmt tag_S).
  - destruct (slice data 3 6) as [ver|]; [|discriminate].
    destruct (load data 9) as [depth|]; [|discriminate].
    destruct (negb _); [discriminate|].
    destruct (load16 data 10) as [w|]; [|discriminate].
    destruct (load16 data 12) as [h|]; [|discriminate].
    destruct (load16 data 14) as [nblocks|]; [|discriminate].
    destruct (load16 data 16) as [bh|]; [|discriminate].
    destruct (read_block_len _ data 0) as [lens|]; [|discriminate].
    destruct (Z.eqb_spec depth 24) as [->|Hne].
    + injection Hparse as <-. cbn [bit_depth] in Hdepth. lia.
    + destruct (slice data _ _) as [pal|] eqn:Epal; [|discriminate].
      injection Hparse as <-. cbn [bit_depth palette] in *.
      split; [eapply slice_bytes; eassumption|].
      apply slice_spec in Epal as [_ ->].
      destruct Hdepth as [-> | ->]; reflexivity.
  - destruct (tag_eqb fmt tag_R); [|discriminate].
    destruct (load data 2); [|discriminate].
    destruct (slice data 3 _); discriminate.
Qed.

(** C7.  For a split-bitmap header of bit depth 4 or 8, as parsed from a
    frame, and every palette index below [2 ^ bit_depth]: the entry has
    its four bytes in the palette; without swap, the colour is the 5-6-5
    reduction of its bytes 2 (red), 1 (green) and 0 (blue); with swap, it
    is that value with its two bytes exchanged. *)
Theorem palette_color_is_565_truncation
        (data : list Z) (header : gfx_aaf_header_t) (index : Z) :
  forallb is_byte data = true ->
  gfx_aaf_parse_header data = Some (GFX_AAF_FORMAT_SBMP, header) ->
  bit_depth header = 4 \/ bit_depth header = 8 ->
  0 <= index < 2 ^ bit_depth header ->
  exists b g r,
    load (palette header) (index * 4) = Some b
    /\ load (palette header) (index * 4 + 1) = Some g
    /\ load (palette header) (index * 4 + 2) = Some r
    /\ gfx_aaf_parse_palette header index false = Some (truncate_565 r g b)
    /\ gfx_aaf_parse_palette header index true
       = Some (swap_bytes16 (truncate_565 r g b)).
Proof.
  intros Hbytes Hparse Hdepth Hindex.
  destruct (parse_header_palette data header Hbytes Hparse Hdepth)
    as [Hpal Hlen].
  assert (0 < 2 ^ bit_depth header) by (destruct Hdepth as [-> | ->]; reflexivity).
  assert (forall k, 0 <= k < 3 ->
            exists v, load (palette header) (index * 4 + k) = Some v
                      /\ 0 <= v < 256) as Hload.
  { intros k Hk. unfold load. zcase; [lia|].
    destruct (nth_error (palette header) (Z.to_nat (index * 4 + k)))
      as [v|] eqn:E.
    - exists v. split; [reflexivity|].
      apply (load_byte (palette header) (index * 4 + k)); [assumption|].
      unfold load. zcase; [lia | assumption].
    - apply nth_error_None in E. lia. }
  destruct (Hload 0) as (b & Eb & Hb); [lia|].
  destruct (Hload 1) as (g & Eg & Hg); [lia|].
  destruct (Hload 2) as (r & Er & Hr); [lia|].
  rewrite Z.add_0_r in Eb.
  exists b, g, r. repeat (split; [assumption|]).
  unfold gfx_aaf_parse_palette. rewrite Eb, Eg, Er.
  destruct (rgb565_expression r g b Hr Hg Hb) as [-> Hrange].
  destruct (bswap16_swaps _ Hrange) as [Hswap Hrange'].
  split; f_equal.
  - now apply Z.mod_small.
  - rewrite (Z.mod_small (truncate_565 r g b)) by assumption.
    rewrite Hswap. now apply Z.mod_small.
Qed.

End PaletteFacts.

(** ** Frame decode cache *)

Section CacheFacts.

Import Header Render Cache.

Variable decode_block : Z -> bool -> esp_err_t.

Lemma decodes_app (t1 t2 : list event) :
  decodes (t1 ++ t2) = decodes t1 ++ decodes t2.
Proof. apply filter_app. Qed.

Lemma decode_count_app (t1 t2 : list event) :
  decode_count (t1 ++ t2) = (decode_count t1 + decode_count t2)%nat.
Proof. unfold decode_count. now rewrite decodes_app, length_app. Qed.

(** The block loop over a range of blocks of which at most block [k] is
    touched: block [k] is decoded if it is in the range and not the block
    cached, and the cache moves to [k] if that decode succeeds. *)
Lemma blocks_loop_single (hdr : gfx_aaf_header_t) (obj_x obj_y : Z)
      (clip_object : gfx_area_t) (swap_color : bool) (k : Z) (n : nat) :
  forall (block last : Z) (trace : list event),
    (forall b, block <= b < block + Z.of_nat n ->
               touches hdr obj_x obj_y clip_object b = (b =? k)) ->
    let r := blocks_loop decode_block n hdr obj_x obj_y clip_object swap_color
                         block last trace in
    let hit := (block <=? k) && (k <? block + Z.of_nat n) && negb (k =? last) in
    decodes (snd r)
    = decodes trace
      ++ (if hit then [Decoded k (decode_block k swap_color)] else [])
    /\ fst r = if hit && esp_err_eqb (decode_block k swap_color) ESP_OK
               then k else last.
Proof.
  induction n as [|n IH]; intros block last trace Htouch.
  - cbn [blocks_loop fst snd].
    repeat (zcase; try lia); cbn [andb negb]; now rewrite app_nil_r.
  - cbn [blocks_loop].
    assert (forall b, block + 1 <= b < block + 1 + Z.of_nat n ->
                      touches hdr obj_x obj_y clip_object b = (b =? k))
      as Hrest by (intros b Hb; apply Htouch; lia).
    rewrite (Htouch block) by lia.
    destruct (Z.eqb_spec block k) as [->|Hne]; cbn [negb].
    + destruct (Z.eqb_spec k last) as [->|Hlast]; cbn [negb];
        [|destruct (decode_block k swap_color) eqn:Ed];
        destruct ((bit_depth hdr =? 4) || (bit_depth hdr =? 8)
                  || (bit_depth hdr =? 24));
        match goal with
        | |- context [blocks_loop _ _ _ _ _ _ _ ?b ?l ?t] =>
          destruct (IH b l t Hrest) as [H1 H2]
        end;
        rewrite H1, H2, ?Ed; clear H1 H2;
        repeat (zcase; try lia);
        rewrite ?decodes_app;
        cbn [decodes filter is_decode andb negb esp_err_eqb app];
        now rewrite ?app_nil_r, <- ?app_assoc.
    + destruct (IH (block + 1) last trace Hrest) as [H1 H2].
      rewrite H1, H2. clear H1 H2.
      repeat (zcase; try lia); cbn [andb negb]; auto.
Qed.

(** A frame advance or a rebind empties the cache. *)
Lemma free_frame_info_resets_cache (frame : gfx_anim_frame_info_t) :
  last_block (gfx_anim_free_frame_info frame) = -1
  /\ bound (gfx_anim_free_frame_info frame) = false.
Proof. split; reflexivity. Qed.

Lemma touches_only_spec (hdr : gfx_aaf_header_t) (obj_x obj_y : Z)
      (req : gfx_area_t) (k : Z) :
  touches_only hdr obj_x obj_y req k = true ->
  0 <= k < blocks hdr
  /\ forall b, 0 <= b < 0 + Z.of_nat (Z.to_nat (blocks hdr)) ->
       touches hdr obj_x obj_y (clip_of_request hdr obj_x obj_y req) b
       = (b =? k).
Proof.
  unfold touches_only. intros H.
  apply andb_prop in H as [H Hall]. apply andb_prop in H as [H1 H2].
  split; [lia|]. intros b Hb. rewrite forallb_forall in Hall.
  specialize (Hall (Z.to_nat b)). rewrite Z2Nat.id in Hall by lia.
  apply eqb_prop, Hall, in_seq. lia.
Qed.

(** A block that is touched lies inside the clip rectangle of the request,
    which therefore is not empty. *)
Lemma touches_clip_nonempty (hdr : gfx_aaf_header_t) (obj_x obj_y : Z)
      (clip_object : gfx_area_t) (block : Z) :
  touches hdr obj_x obj_y clip_object block = true ->
  (x1 clip_object >=? x2 clip_object) || (y1 clip_object >=? y2 clip_object)
  = false.
Proof.
  unfold touches, clip_of_block. cbn [x1 y1 x2 y2]. intros H.
  apply andb_prop in H as [H _]. apply negb_true_iff, orb_false_iff in H.
  destruct H as [Hx Hy].
  rewrite Z.geb_leb, Z.leb_gt in Hx, Hy.
  apply orb_false_iff. rewrite !Z.geb_leb, !Z.leb_gt. lia.
Qed.

(** One render request that touches block [k] only, on a bound frame. *)
Lemma draw_single (frame : gfx_anim_frame_info_t) (obj_x obj_y : Z)
      (req : gfx_area_t) (swap_color : bool) (k : Z) :
  bound frame = true ->
  touches_only (header frame) obj_x obj_y req k = true ->
  let r := gfx_draw_animation decode_block frame obj_x obj_y req swap_color in
  decodes (snd r)
  = (if negb (k =? last_block frame)
     then [Decoded k (decode_block k swap_color)] else [])
  /\ last_block (fst r)
     = (if negb (k =? last_block frame)
           && esp_err_eqb (decode_block k swap_color) ESP_OK
        then k else last_block frame)
  /\ header (fst r) = header frame
  /\ bound (fst r) = true.
Proof.
  intros Hbound Honly. pose proof Hbound as Hb. unfold bound in Hb.
  apply andb_prop in Hb as [Hb Hpix]. apply andb_prop in Hb as [Hb Hoff].
  apply andb_prop in Hb as [Hdata Hw]. apply negb_true_iff in Hw.
  destruct (touches_only_spec _ _ _ _ _ Honly) as [Hk Htouch].
  unfold gfx_draw_animation. rewrite Hdata, Hw, Hoff, Hpix. cbn [negb orb].
  rewrite (touches_clip_nonempty (header frame) obj_x obj_y _ k)
    by (rewrite Htouch by lia; apply Z.eqb_refl).
  cbn [fst snd].
  destruct (blocks_loop_single (header frame) obj_x obj_y
              (clip_of_request (header frame) obj_x obj_y req) swap_color k
              (Z.to_nat (blocks (header frame))) 0 (last_block frame) []
              Htouch) as [H1 H2].
  rewrite H1. cbn [last_block header]. rewrite H2. clear H1 H2.
  replace ((0 <=? k) && (k <? 0 + Z.of_nat (Z.to_nat (blocks (header frame)))))
    with true
    by (symmetry; apply andb_true_iff; split;
        [apply Z.leb_le | apply Z.ltb_lt]; lia).
  cbn [andb decodes filter app]. repeat split.
  unfold bound. cbn [frame_data header block_offsets pixel_buffer].
  now rewrite Hw.
Qed.

(** C8, as amended.  On a bound frame, for render requests that touch
    block [k] and no other:
    - when the last-decoded-block index is [k], a request performs no
      block decode and leaves the index at [k];
    - when the index is not [k] and the decode of [k] succeeds, two
      consecutive requests perform exactly one decode in total, the first
      one's, and leave the index at [k];
    - when the decode of [k] fails, the index is left as it was and the
      next request decodes [k] again.
    The statement is about the decodes and the index; what a decode that
    fails does to the bytes of the pixel buffer is in X13. *)
Theorem decode_cache_reuse (frame : gfx_anim_frame_info_t) (obj_x obj_y : Z)
        (req1 req2 : gfx_area_t) (swap1 swap2 : bool) (k : Z) :
  bound frame = true ->
  touches_only (header frame) obj_x obj_y req1 k = true ->
  touches_only (header frame) obj_x obj_y req2 k = true ->
  let first := gfx_draw_animation decode_block frame obj_x obj_y req1 swap1 in
  let second :=
    gfx_draw_animation decode_block (fst first) obj_x obj_y req2 swap2 in
  (last_block frame = k ->
   decode_count (snd first) = O /\ last_block (fst first) = k)
  /\ (last_block frame <> k -> decode_block k swap1 = ESP_OK ->
      decode_count (snd first ++ snd second) = 1%nat
      /\ decodes (snd second) = []
      /\ last_block (fst second) = k)
  /\ (last_block frame <> k -> decode_block k swap1 <> ESP_OK ->
      last_block (fst first) = last_block frame
      /\ decodes (snd first) = [Decoded k (decode_block k swap1)]
      /\ decodes (snd second) = [Decoded k (decode_block k swap2)]).
Proof.
  intros Hbound H1 H2 first second.
  destruct (draw_single frame obj_x obj_y req1 swap1 k Hbound H1)
    as (Hd1 & Hl1 & Hh1 & Hb1).
  fold first in Hd1, Hl1, Hh1, Hb1.
  rewrite <- Hh1 in H2.
  destruct (draw_single (fst first) obj_x obj_y req2 swap2 k Hb1 H2)
    as (Hd2 & Hl2 & _ & _).
  fold second in Hd2, Hl2.
  repeat split.
  - unfold decode_count. rewrite Hd1, H. now rewrite Z.eqb_refl.
  - rewrite Hl1, H. now rewrite Z.eqb_refl.
  - rewrite decode_count_app. unfold decode_count. rewrite Hd1, Hd2, Hl1.
    apply Z.eqb_neq in H. rewrite Z.eqb_sym in H. rewrite H, H0.
    cbn [negb andb esp_err_eqb]. now rewrite Z.eqb_refl.
  - rewrite Hd2, Hl1. apply Z.eqb_neq in H. rewrite Z.eqb_sym in H.
    rewrite H, H0. cbn [negb andb esp_err_eqb]. now rewrite Z.eqb_refl.
  - rewrite Hl2, Hl1. apply Z.eqb_neq in H. rewrite Z.eqb_sym in H.
    rewrite H, H0. cbn [negb andb esp_err_eqb]. now rewrite Z.eqb_refl.
  - rewrite Hl1. destruct (decode_block k swap1); try contradiction;
      cbn [esp_err_eqb]; now rewrite andb_false_r.
  - rewrite Hd1. apply Z.eqb_neq in H. rewrite Z.eqb_sym in H. now rewrite H.
  - rewrite Hd2, Hl1. apply Z.eqb_neq in H. rewrite Z.eqb_sym in H.
    destruct (decode_block k swap1); try contradiction;
      cbn [esp_err_eqb]; rewrite andb_false_r, H; reflexivity.
Qed.

End CacheFacts.

(** ** Compositor: mirrored rendering *)

Section MirrorFacts.

Import Header Render.

Variables (dest_stride : Z) (src_buf : list Z) (src_stride : Z).
Variables (header : gfx_aaf_header_t) (swap_color : bool).
Variables (mirror_offset dest_x_offset : Z).

Lemma mirror_store_fits (width clip_w y x color : Z) (dest : stores) :
  mirror_fits dest_stride mirror_offset dest_x_offset width clip_w ->
  0 <= x < clip_w -> 0 <= dest_x_offset ->
  mirror_store true width mirror_offset dest_x_offset dest_stride y x color dest
  = dest ++ [(y * dest_stride + (width + mirror_offset + width - 1 - x), color)].
Proof.
  intros [H1 H2] Hx Hoff. unfold mirror_store.
  repeat (zcase; try lia). reflexivity.
Qed.

(** The 8-bit renderer mirrors every pixel it writes. *)
Lemma row_8bit_mirrored (clip_w y : Z) (n : nat) :
  forall (x : Z) (palette_cache cache' : list Z) (dest dest' : stores),
    mirror_fits dest_stride mirror_offset dest_x_offset (width header) clip_w -> 0 <= dest_x_offset ->
    0 <= x -> x + Z.of_nat n <= clip_w ->
    mirrored (width header) mirror_offset dest_stride dest ->
    row_8bit dest_stride src_buf src_stride header swap_color true
             mirror_offset dest_x_offset n y x palette_cache dest
    = Some (cache', dest') ->
    mirrored (width header) mirror_offset dest_stride dest'.
Proof.
  induction n as [|n IH];
    intros x palette_cache cache' dest dest' Hfit Hoff Hx Hn Hdest;
    cbn [row_8bit].
  - intros E. now injection E as _ <-.
  - destruct (load src_buf _) as [index|]; [|discriminate].
    destruct (cached_color _ _ _ _) as [[cache1 color]|]; [|discriminate].
    rewrite (mirror_store_fits (width header) clip_w) by (assumption || lia).
    rewrite <- app_assoc. cbn [app].
    apply IH; try assumption; try lia. now constructor.
Qed.

Lemma rows_8bit_mirrored (clip_w : Z) (n : nat) :
  forall (y : Z) (palette_cache cache' : list Z) (dest dest' : stores),
    mirror_fits dest_stride mirror_offset dest_x_offset (width header) clip_w -> 0 <= dest_x_offset ->
    mirrored (width header) mirror_offset dest_stride dest ->
    rows_8bit dest_stride src_buf src_stride header swap_color true
              mirror_offset dest_x_offset n clip_w y palette_cache dest
    = Some (cache', dest') ->
    mirrored (width header) mirror_offset dest_stride dest'.
Proof.
  induction n as [|n IH]; intros y palette_cache cache' dest dest' Hfit Hoff
                                 Hdest; cbn [rows_8bit].
  - intros E. now injection E as _ <-.
  - destruct (row_8bit _ _ _ _ _ _ _ _ _ _ _ _ _) as [[c d]|] eqn:Erow;
      [|discriminate].
    cbn [fst snd]. apply IH; try assumption.
    destruct (Z.le_gt_cases 0 clip_w).
    + apply (row_8bit_mirrored clip_w y (Z.to_nat clip_w) 0 palette_cache c
                               dest d); try assumption; lia.
    + replace (Z.to_nat clip_w) with O in Erow by lia.
      cbn [row_8bit] in Erow. now injection Erow as _ <-.
Qed.

(** So does the renderer of 16-bit colour. *)
Lemma row_24bit_mirrored (clip_w y : Z) (n : nat) :
  forall (x : Z) (dest dest' : stores),
    mirror_fits dest_stride mirror_offset dest_x_offset src_stride clip_w -> 0 <= dest_x_offset ->
    0 <= x -> x + Z.of_nat n <= clip_w ->
    mirrored src_stride mirror_offset dest_stride dest ->
    row_24bit dest_stride src_buf src_stride true mirror_offset dest_x_offset
              n y x dest = Some dest' ->
    mirrored src_stride mirror_offset dest_stride dest'.
Proof.
  induction n as [|n IH]; intros x dest dest' Hfit Hoff Hx Hn Hdest;
    cbn [row_24bit].
  - intros E. now injection E as <-.
  - destruct (load16 src_buf _) as [pixel|]; [|discriminate].
    rewrite (mirror_store_fits src_stride clip_w) by (assumption || lia).
    rewrite <- app_assoc. cbn [app].
    apply IH; try assumption; try lia. now constructor.
Qed.

Lemma rows_24bit_mirrored (clip_w : Z) (n : nat) :
  forall (y : Z) (dest dest' : stores),
    mirror_fits dest_stride mirror_offset dest_x_offset src_stride clip_w ->
    0 <= dest_x_offset ->
    mirrored src_stride mirror_offset dest_stride dest ->
    rows_24bit dest_stride src_buf src_stride true mirror_offset dest_x_offset
               n clip_w y dest = Some dest' ->
    mirrored src_stride mirror_offset dest_stride dest'.
Proof.
  induction n as [|n IH]; intros y dest dest' Hfit Hoff Hdest;
    cbn [rows_24bit].
  - intros E. now injection E as <-.
  - destruct (row_24bit _ _ _ _ _ _ _ _ _ _) as [d|] eqn:Erow; [|discriminate].
    apply IH; try assumption.
    destruct (Z.le_gt_cases 0 clip_w).
    + apply (row_24bit_mirrored clip_w y (Z.to_nat clip_w) 0 dest d);
        try assumption; lia.
    + replace (Z.to_nat clip_w) with O in Erow by lia.
      cbn [row_24bit] in Erow. now injection Erow as <-.
Qed.

End MirrorFacts.

(** C1.  The 4-bit renderer does not mirror the second pixel of a byte.
    A block two pixels wide whose only byte holds the indices 0 and 1,
    with palette colours 31 and 63488, goes to a row of four cells with
    mirroring enabled and offset 0.  The pixels are written at columns 0
    and 1; the mirror column 3 of column 0 receives colour 31, and the
    mirror column 2 of column 1 receives colour 31 as well, where the
    pixel written at column 1 is 63488. *)
Theorem mirror_4bit_repeats_first_pixel :
  let header :=
    Header.mk_header Header.tag_S [] 4 2 1 1 1 [1] 0
                     ([255; 0; 0; 0; 0; 0; 255; 0] ++ repeat 0 56) 16 in
  let clip_area := Render.mk_area 0 0 2 1 in
  exists palette_cache,
    Render.gfx_anim_render_4bit_pixels
      4 [1] 2 header clip_area false true 0 0 (repeat Render.UNRESOLVED 16)
    = Some (palette_cache, [(0, 31); (3, 31); (1, 63488); (2, 31)])
    /\ apply_stores [0; 0; 0; 0] [(0, 31); (3, 31); (1, 63488); (2, 31)]
       = [31; 63488; 31; 31].
Proof. eexists. split; reflexivity. Qed.

(** The same block through the 8-bit renderer, one index to a byte, is
    mirrored as it should be. *)
Example mirror_8bit_same_block :
  let header :=
    Header.mk_header Header.tag_S [] 8 2 1 1 1 [2] 0
                     ([255; 0; 0; 0; 0; 0; 255; 0] ++ repeat 0 1016) 256 in
  let clip_area := Render.mk_area 0 0 2 1 in
  exists palette_cache,
    Render.gfx_anim_render_8bit_pixels
      4 [0; 1] 2 header clip_area false true 0 0 (repeat Render.UNRESOLVED 256)
    = Some (palette_cache, [(0, 31); (3, 31); (1, 63488); (2, 63488)]).
Proof. eexists. reflexivity. Qed.

(** ** The properties at concrete inputs *)

(** The runs (2, 7), (1, 9) decode to 7, 7, 9 in a buffer of four cells. *)
Lemma rle_roundtrip_witness :
  (exists r,
      Rle.gfx_aaf_rle_decode (Rle.encode [(2, 7); (1, 9)] ++ [])
                             (Z.of_nat (length (Rle.encode [(2, 7); (1, 9)])))
                             (Z.of_nat (length [0; 0; 0; 0])) = Some r
      /\ Rle.ret r = ESP_OK
      /\ Rle.written r = write_from 0 (Rle.expand [(2, 7); (1, 9)])
      /\ apply_stores [0; 0; 0; 0] (Rle.written r)
         = Rle.expand [(2, 7); (1, 9)]
           ++ skipn (length (Rle.expand [(2, 7); (1, 9)])) [0; 0; 0; 0])
  /\ Rle.gfx_aaf_rle_decode [] 0 (Z.of_nat (length [0; 0; 0; 0]))
     = Some (Rle.mk_result ESP_OK [] []).
Proof.
  apply (rle_roundtrip [(2, 7); (1, 9)] [] [0; 0; 0; 0]);
    [reflexivity | simpl; lia | simpl; lia | simpl; lia].
Defined.

(** A container of one frame, and the same container with the byte at
    offset 26 changed from 95 to 96. *)
Lemma checksum_detects_single_byte_mutation_witness :
  Container.gfx_aaf_format_init
    (Container.mutate
       [137; 65; 65; 70; 1; 0; 0; 0; 106; 1; 0; 0; 12; 0; 0; 0;
        4; 0; 0; 0; 0; 0; 0; 0; 90; 90; 95; 83] 26 96)
  = Some (ESP_ERR_INVALID_CRC, None).
Proof.
  apply (checksum_detects_single_byte_mutation
           [137; 65; 65; 70; 1; 0; 0; 0; 106; 1; 0; 0; 12; 0; 0; 0;
            4; 0; 0; 0; 0; 0; 0; 0; 90; 90; 95; 83]
           (Container.mk_ctx
              [Container.mk_entry 24 (Container.mk_table_entry 4 0)] 1)
           12 26 96);
    [reflexivity | reflexivity | reflexivity | vm_compute; split; congruence
     | reflexivity | discriminate].
Defined.

(** A 4-bit frame whose palette entry 1 is blue 8, green 16, red 255. *)
Lemma palette_color_is_565_truncation_witness :
  let data := [95; 83; 0; 0; 0; 0; 0; 0; 0; 4; 2; 0; 2; 0; 1; 0; 2; 0;
               3; 0; 0; 0] ++ [0; 0; 0; 0; 8; 16; 255; 0] ++ repeat 0 56
              ++ [0; 2; 0] in
  exists header,
    Header.gfx_aaf_parse_header data
    = Some (Header.GFX_AAF_FORMAT_SBMP, header)
    /\ exists b g r,
      load (Header.palette header) (1 * 4) = Some b
      /\ load (Header.palette header) (1 * 4 + 1) = Some g
      /\ load (Header.palette header) (1 * 4 + 2) = Some r
      /\ Header.gfx_aaf_parse_palette header 1 false
         = Some (Header.truncate_565 r g b)
      /\ Header.gfx_aaf_parse_palette header 1 true
         = Some (Header.swap_bytes16 (Header.truncate_565 r g b)).
Proof.
  intros data. eexists. split; [reflexivity|].
  apply (palette_color_is_565_truncation data);
    [reflexivity | reflexivity | left; reflexivity | vm_compute; split; congruence].
Defined.

(** A frame of two blocks of two rows; both requests ask for the rows of
    block 1.  Nothing is cached at first and the decode succeeds. *)
Lemma decode_cache_reuse_witness :
  let header := Header.mk_header Header.tag_S [] 8 2 4 2 2 [3; 3] 1046 [] 256 in
  let frame := Cache.mk_frame header true true true (-1) in
  let decode_block := fun (_ : Z) (_ : bool) => ESP_OK in
  let req := Render.mk_area 0 2 2 4 in
  let first := Cache.gfx_draw_animation decode_block frame 0 0 req false in
  let second :=
    Cache.gfx_draw_animation decode_block (fst first) 0 0 req false in
  Cache.decode_count (snd first ++ snd second) = 1%nat
  /\ Cache.decodes (snd second) = []
  /\ Cache.last_block (fst second) = 1.
Proof.
  intros header frame decode_block req.
  apply (decode_cache_reuse decode_block frame 0 0 req req false false 1);
    [reflexivity | reflexivity | reflexivity | discriminate | reflexivity].
Defined.

(** The claim of exactly one decode for two consecutive requests fails on
    a frame whose block cannot be decoded: the block of this 4-bit frame
    carries the unknown encoding tag 9, [gfx_anim_decode_block] returns
    [ESP_FAIL], the cache stays at -1 and the second request decodes the
    block again. *)
Lemma failed_decode_is_repeated :
  let data := [95; 83; 0; 0; 0; 0; 0; 0; 0; 4; 2; 0; 2; 0; 1; 0; 2; 0;
               3; 0; 0; 0] ++ repeat 0 64 ++ [9; 0; 0] in
  let jpeg := fun (_ : list Z) (_ _ : Z) (_ : bool) => (ESP_FAIL, @nil (Z * Z)) in
  exists header,
    Header.gfx_aaf_parse_header data
    = Some (Header.GFX_AAF_FORMAT_SBMP, header)
    /\ let offsets := Header.gfx_aaf_calculate_offsets header in
       let decode_block := fun block swap_color =>
         match Block.gfx_anim_decode_block
                 jpeg data offsets header block [0; 0; 0; 0]
                 (Header.width header) (Header.block_height header) swap_color
         with
         | Some r => Block.ret r
         | None => ESP_FAIL
         end in
       let frame := Cache.mk_frame header true true true (-1) in
       let req := Render.mk_area 0 0 2 2 in
       let first := Cache.gfx_draw_animation decode_block frame 0 0 req false in
       let second :=
         Cache.gfx_draw_animation decode_block (fst first) 0 0 req false in
       Cache.touches_only header 0 0 req 0 = true
       /\ decode_block 0 false = ESP_FAIL
       /\ Cache.decode_count (snd first ++ snd second) = 2%nat.
Proof. eexists. split; [reflexivity|]. repeat split. Qed.

(** ** Huffman engine: round trip *)

Section HuffmanFacts.

Import Huffman.

(** *** Codes as numbers *)

Lemma code_value_acc (c : code) (acc : Z) :
  fold_left (fun a b => 2 * a + b2z b) c acc
  = acc * 2 ^ Z.of_nat (length c) + code_value c.
Proof.
  unfold code_value. revert acc.
  induction c as [|b c IH]; intros acc.
  - simpl. lia.
  - cbn [fold_left length]. rewrite IH, (IH (2 * 0 + b2z b)).
    rewrite Nat2Z.inj_succ, Z.pow_succ_r by lia. lia.
Qed.

Lemma code_value_cons (b : bool) (c : code) :
  code_value (b :: c) = b2z b * 2 ^ Z.of_nat (length c) + code_value c.
Proof.
  unfold code_value at 1. cbn [fold_left]. rewrite code_value_acc. lia.
Qed.

Lemma code_value_bound (c : code) : 0 <= code_value c < 2 ^ Z.of_nat (length c).
Proof.
  induction c as [|b c IH].
  - cbn. lia.
  - rewrite code_value_cons. cbn [length].
    rewrite Nat2Z.inj_succ, Z.pow_succ_r by lia.
    destruct b; cbn [b2z]; lia.
Qed.

(** The shift and mask of [insert] read the bits of the code, first bit
    first. *)
Lemma insert_is_insert_code (c : code) :
  forall (hi v : Z) (t : Node),
    0 <= hi ->
    insert (length c) (hi * 2 ^ Z.of_nat (length c) + code_value c) v t
    = insert_code c v t.
Proof.
  induction c as [|b c IH]; intros hi v t Hhi.
  - destruct t; reflexivity.
  - destruct t as [|lf x l r]; [reflexivity|].
    cbn [length insert insert_code].
    pose proof (code_value_bound c) as Hc.
    set (n := Z.of_nat (length c)) in *.
    assert (0 < 2 ^ n) as Hpow by (apply Z.pow_pos_nonneg; lia).
    assert (Z.land (Z.shiftr (hi * 2 ^ Z.of_nat (S (length c))
                              + code_value (b :: c)) n) 1 = b2z b) as Hbit.
    { rewrite code_value_cons, Nat2Z.inj_succ, Z.pow_succ_r by lia. fold n.
      rewrite Z.shiftr_div_pow2 by lia.
      replace (hi * (2 * 2 ^ n) + (b2z b * 2 ^ n + code_value c))
        with (code_value c + (2 * hi + b2z b) * 2 ^ n) by lia.
      rewrite Z.div_add, Z.div_small by lia.
      change 1 with (Z.ones 1) at 1. rewrite Z.land_ones by lia.
      change (2 ^ 1) with 2.
      rewrite Z.add_0_l, Z.add_comm, Z.mul_comm, Z.mod_add by lia.
      destruct b; reflexivity. }
    rewrite Hbit.
    replace (hi * 2 ^ Z.of_nat (S (length c)) + code_value (b :: c))
      with ((2 * hi + b2z b) * 2 ^ n + code_value c)
      by (rewrite code_value_cons, Nat2Z.inj_succ, Z.pow_succ_r by lia;
          fold n; lia).
    destruct b; cbn [b2z Z.eqb]; rewrite IH by lia; reflexivity.
Qed.

(** *** The code bytes of a table entry *)

Lemma be_bytes_length (n : nat) (x : Z) : length (be_bytes n x) = n.
Proof. induction n; simpl; auto. Qed.

(** [read_code] over the big-endian bytes of [x] appends them to the
    accumulator, as long as the result fits the 64 bits. *)
Lemma read_code_be_bytes (n : nat) :
  forall (pre post : list Z) (x acc : Z),
    0 <= x -> 0 <= acc ->
    acc * 256 ^ Z.of_nat n + x mod 256 ^ Z.of_nat n < 2 ^ 64 ->
    Z.of_nat (length pre) + Z.of_nat n < 2 ^ 32 ->
    read_code n (pre ++ be_bytes n x ++ post) (Z.of_nat (length pre)) acc
    = Some (acc * 256 ^ Z.of_nat n + x mod 256 ^ Z.of_nat n).
Proof.
  induction n as [|n IH]; intros pre post x acc Hx Hacc Hfit Hpos.
  - cbn [read_code]. f_equal. cbn. rewrite Z.mod_1_r. lia.
  - cbn [read_code be_bytes app].
    rewrite load_app_head.
    set (b := (x / 256 ^ Z.of_nat n) mod 256).
    assert (0 <= b < 256) as Hb by (apply Z.mod_pos_bound; lia).
    assert (0 < 256 ^ Z.of_nat n) as Hpow by (apply Z.pow_pos_nonneg; lia).
    assert (x mod 256 ^ Z.of_nat (S n)
            = x mod 256 ^ Z.of_nat n + 256 ^ Z.of_nat n * b) as Hsplit.
    { rewrite Nat2Z.inj_succ, Z.pow_succ_r by lia.
      rewrite (Z.mul_comm 256). apply Z.rem_mul_r; lia. }
    rewrite Hsplit in *.
    rewrite Nat2Z.inj_succ, Z.pow_succ_r in * by lia.
    pose proof (Z.mod_pos_bound x (256 ^ Z.of_nat n) Hpow) as Hm.
    assert (acc * 256 < 2 ^ 64) as Hsmall by nia.
    rewrite Z.shiftl_mul_pow2 by lia. change (2 ^ 8) with 256.
    rewrite (Z.mod_small (acc * 256)) by lia.
    replace (acc * 256) with (Z.shiftl acc 8)
      by (rewrite Z.shiftl_mul_pow2 by lia; reflexivity).
    rewrite lor_shiftl_low by (change (2 ^ 8) with 256; lia).
    change (2 ^ 8) with 256.
    rewrite sz_small by lia.
    replace (pre ++ b :: be_bytes n x ++ post)
      with ((pre ++ [b]) ++ be_bytes n x ++ post)
      by now rewrite <- app_assoc.
    replace (Z.of_nat (length pre) + 1) with (Z.of_nat (length (pre ++ [b])))
      by (rewrite length_app; simpl; lia).
    rewrite IH; try lia; [f_equal; lia | rewrite length_app; simpl; lia].
Qed.

Lemma entry_ok_bounds (e : Z * code) :
  entry_ok e = true ->
  0 <= fst e < 256 /\ (1 <= length (snd e) <= 64)%nat.
Proof.
  unfold entry_ok, is_byte. intros H.
  apply andb_prop in H as [H H3]. apply andb_prop in H as [H H2].
  apply andb_prop in H as [H0 H1].
  apply Nat.leb_le in H2, H3. lia.
Qed.

Lemma serialize_entry_length (e : Z * code) :
  length (serialize_entry e) = (2 + code_byte_len (snd e))%nat.
Proof. unfold serialize_entry. cbn [length]. now rewrite be_bytes_length. Qed.

(** The code of an entry fits its code bytes, and the 64 bits of the
    accumulator when it is no longer than 64 bits. *)
Lemma code_value_fits (c : code) :
  (length c <= 64)%nat ->
  code_value c < 256 ^ Z.of_nat (code_byte_len c) /\ code_value c < 2 ^ 64.
Proof.
  intros Hlen. pose proof (code_value_bound c) as Hc.
  unfold code_byte_len.
  set (n := Z.of_nat (length c)) in *.
  assert (0 <= (n + 7) / 8) by (apply Z.div_pos; lia).
  rewrite Z2Nat.id by assumption.
  change 256 with (2 ^ 8). rewrite <- Z.pow_mul_r by lia.
  assert (n <= 8 * ((n + 7) / 8)).
  { pose proof (Z.div_mod (n + 7) 8 ltac:(lia)).
    pose proof (Z.mod_pos_bound (n + 7) 8 ltac:(lia)). lia. }
  split.
  - apply Z.lt_le_trans with (2 ^ n); [lia|].
    apply Z.pow_le_mono_r; lia.
  - apply Z.lt_le_trans with (2 ^ n); [lia|].
    apply Z.pow_le_mono_r; lia.
Qed.

(** The table loop, started in front of the triples of [m], inserts the
    codes of [m] in order. *)
Lemma build_tree_serialized (m : mapping) :
  forall (pre : list Z) (fuel : nat) (root : Node),
    forallb entry_ok m = true ->
    (length m < fuel)%nat ->
    Z.of_nat (length (pre ++ flat_map serialize_entry m)) < 2 ^ 32 ->
    build_tree fuel (pre ++ flat_map serialize_entry m)
               (Z.of_nat (length (pre ++ flat_map serialize_entry m)))
               (Z.of_nat (length pre)) root
    = Some (tree_of m root).
Proof.
  induction m as [|[v c] m IH]; intros pre fuel root Hok Hfuel Hlen;
    (destruct fuel as [|fuel]; [simpl in Hfuel; lia|]).
  - cbn [build_tree flat_map]. rewrite app_nil_r.
    rewrite Z.ltb_irrefl. reflexivity.
  - cbn [forallb] in Hok. apply andb_prop in Hok as [He Hok].
    apply entry_ok_bounds in He. cbn [fst snd] in He.
    destruct He as [Hv Hc].
    destruct (code_value_fits c) as [Hfit1 Hfit2]; [lia|].
    pose proof (code_value_bound c) as Hcv.
    cbn [flat_map] in *. rewrite app_assoc in *.
    assert (length (pre ++ serialize_entry (v, c))
            = (length pre + 2 + code_byte_len c)%nat) as Hpre'.
    { rewrite length_app, serialize_entry_length. cbn [snd]. lia. }
    rewrite (length_app (pre ++ _)) in *. rewrite Hpre' in *.
    cbn [build_tree].
    zcase; [|lia].
    rewrite <- app_assoc.
    change (pre ++ serialize_entry (v, c) ++ flat_map serialize_entry m)
      with (pre ++ v :: Z.of_nat (length c)
                :: be_bytes (code_byte_len c) (code_value c)
                ++ flat_map serialize_entry m).
    rewrite load_app_head.
    rewrite sz_small by lia. rewrite load_app_next.
    rewrite Nat2Z.id.
    fold (code_byte_len c).
    rewrite sz_small by lia.
    replace (pre ++ v :: Z.of_nat (length c)
                 :: be_bytes (code_byte_len c) (code_value c)
                 ++ flat_map serialize_entry m)
      with ((pre ++ [v; Z.of_nat (length c)])
              ++ be_bytes (code_byte_len c) (code_value c)
              ++ flat_map serialize_entry m)
      by now rewrite <- app_assoc.
    replace (Z.of_nat (length pre) + 2)
      with (Z.of_nat (length (pre ++ [v; Z.of_nat (length c)])))
      by (rewrite length_app; simpl; lia).
    rewrite read_code_be_bytes;
      try lia;
      try (rewrite Z.mod_small by lia; lia);
      try (rewrite length_app; simpl; lia).
    rewrite Z.mul_0_l, Z.add_0_l, Z.mod_small by lia.
    pose proof (insert_is_insert_code c 0 v root ltac:(lia)) as Hins.
    rewrite Z.mul_0_l, Z.add_0_l in Hins. rewrite Hins. clear Hins.
    rewrite length_app. cbn [length].
    replace (sz _)
      with (Z.of_nat (length
              ((pre ++ [v; Z.of_nat (length c)])
                 ++ be_bytes (code_byte_len c) (code_value c)))).
    2:{ rewrite !length_app, be_bytes_length. cbn [length].
        assert (0 <= (Z.of_nat (length c) + 7) / 8) by (apply Z.div_pos; lia).
        unfold code_byte_len in *. rewrite sz_small by lia. lia. }
    rewrite (app_assoc _ (be_bytes _ _)).
    set (pre' := (pre ++ [v; Z.of_nat (length c)])
                   ++ be_bytes (code_byte_len c) (code_value c)).
    assert (length (pre' ++ flat_map serialize_entry m)
            = (length pre + 2 + code_byte_len c
               + length (flat_map serialize_entry m))%nat) as Hall.
    { unfold pre'. rewrite !length_app, be_bytes_length. cbn [length]. lia. }
    rewrite <- Hall.
    apply IH; [assumption | simpl in Hfuel; lia | rewrite Hall; exact Hlen].
Qed.

(** *** The tree of a prefix-free mapping *)

Lemma descend_NULL (p : code) : descend NULL p = NULL.
Proof. induction p; simpl; auto. Qed.

Lemma descend_app (t : Node) (p q : code) :
  descend t (p ++ q) = descend (descend t p) q.
Proof. revert t. induction p; intros t; simpl; auto. Qed.

Lemma insert_code_not_null (c : code) (v : Z) (t : Node) :
  t <> NULL -> insert_code c v t <> NULL.
Proof.
  destruct t as [|lf x l r]; [congruence|]. intros _.
  destruct c as [|[] c]; discriminate.
Qed.

Lemma tree_of_not_null (m : mapping) (t : Node) :
  t <> NULL -> tree_of m t <> NULL.
Proof.
  revert t. induction m as [|e m IH]; intros t Ht; [assumption|].
  apply IH. now apply insert_code_not_null.
Qed.

Lemma ensure_not_null (t : Node) : t <> NULL -> ensure t = t.
Proof. destruct t; [congruence | reflexivity]. Qed.

(** What an insertion changes: the node at the end of the code becomes a
    leaf, the missing nodes on the way to it appear as inner nodes, and
    every other node is what it was. *)
Lemma kind_after_insert (c : code) :
  forall (p : code) (v : Z) (t : Node),
    node_kind (descend (insert_code c v (ensure t)) p)
    = if list_eq_dec bool_dec p c then KLeaf v
      else if is_prefix p c
           then match node_kind (descend t p) with
                | KNull => KInner
                | k => k
                end
           else node_kind (descend t p).
Proof.
  induction c as [|b c IH]; intros p v t.
  - destruct p as [|a p].
    + destruct t as [|[] x l r]; reflexivity.
    + destruct (list_eq_dec bool_dec (a :: p) []) as [E|_]; [discriminate|].
      cbn [is_prefix]. destruct t as [|lf x l r]; cbn.
      * destruct a; cbn; now rewrite descend_NULL.
      * reflexivity.
  - destruct p as [|a p].
    + destruct (list_eq_dec bool_dec [] (b :: c)) as [E|_]; [discriminate|].
      cbn [is_prefix descend].
      destruct t as [|[] x l r]; destruct b; reflexivity.
    + assert (descend (insert_code (b :: c) v (ensure t)) (a :: p)
              = if Bool.eqb a b
                then descend (insert_code c v (ensure (child t (b2z b)))) p
                else descend (child t (b2z a)) p) as Hstep.
      { destruct t as [|lf x l r]; destruct a, b; cbn;
          rewrite ?descend_NULL; reflexivity. }
      rewrite Hstep. cbn [is_prefix descend].
      destruct (Bool.eqb a b) eqn:Eab.
      * apply eqb_prop in Eab. subst a. rewrite IH. cbn [andb].
        destruct (list_eq_dec bool_dec p c) as [->|Hne];
          destruct (list_eq_dec bool_dec (b :: c) (b :: c)) as [_|Hne'];
          try congruence;
          destruct (list_eq_dec bool_dec (b :: p) (b :: c)) as [E|_];
          try congruence; reflexivity.
      * cbn [andb].
        destruct (list_eq_dec bool_dec (a :: p) (b :: c)) as [E|_];
          [|reflexivity].
        injection E as -> _. now rewrite eqb_reflx in Eab.
Qed.

Lemma is_prefix_refl (c : code) : is_prefix c c = true.
Proof. induction c as [|b c IH]; cbn; [|rewrite eqb_reflx]; auto. Qed.

(** A leaf stays a leaf under the insertion of a code it is no prefix
    of. *)
Lemma leaf_kept (m : mapping) :
  forall (t : Node) (c : code) (v : Z),
    t <> NULL ->
    (forall e, In e m -> is_prefix c (snd e) = false) ->
    node_kind (descend t c) = KLeaf v ->
    node_kind (descend (tree_of m t) c) = KLeaf v.
Proof.
  induction m as [|e m IH]; intros t c v Ht Hfree Hleaf; [assumption|].
  cbn [tree_of fold_left]. apply IH.
  - now apply insert_code_not_null.
  - intros e' He'. apply Hfree. now right.
  - rewrite <- (ensure_not_null t Ht), kind_after_insert.
    assert (is_prefix c (snd e) = false) as Hc by (apply Hfree; now left).
    destruct (list_eq_dec bool_dec c (snd e)) as [E|_].
    + rewrite E, is_prefix_refl in Hc. discriminate.
    + now rewrite Hc.
Qed.

(** A node that no code ends at does not turn into a leaf, and an inner
    node stays one. *)
Lemma no_leaf_made (m : mapping) :
  forall (t : Node) (p : code),
    t <> NULL ->
    (forall e, In e m -> snd e <> p) ->
    (forall v, node_kind (descend t p) <> KLeaf v) ->
    (forall v, node_kind (descend (tree_of m t) p) <> KLeaf v)
    /\ (node_kind (descend t p) = KInner ->
        node_kind (descend (tree_of m t) p) = KInner).
Proof.
  induction m as [|e m IH]; intros t p Ht Hfree Hleaf; [auto|].
  cbn [tree_of fold_left].
  assert (snd e <> p) as Hp by (apply Hfree; now left).
  pose proof (kind_after_insert (snd e) p (fst e) t) as Hk.
  rewrite (ensure_not_null t Ht) in Hk.
  destruct (list_eq_dec bool_dec p (snd e)) as [E|_]; [congruence|].
  destruct (IH (insert_code (snd e) (fst e) t) p) as [H1 H2].
  - now apply insert_code_not_null.
  - intros e' He'. apply Hfree. now right.
  - intros v. rewrite Hk.
    destruct (is_prefix p (snd e)); [|apply Hleaf].
    destruct (node_kind (descend t p)) eqn:E; try discriminate.
    exfalso. exact (Hleaf _ eq_refl).
  - split; [exact H1|]. intros Hin. apply H2. rewrite Hk, Hin.
    now destruct (is_prefix p (snd e)).
Qed.

Lemma prefix_free_split (m1 m2 : mapping) (e : Z * code) :
  prefix_free (m1 ++ e :: m2) = true ->
  forall e', In e' (m1 ++ m2) ->
    is_prefix (snd e) (snd e') = false /\ is_prefix (snd e') (snd e) = false.
Proof.
  induction m1 as [|e1 m1 IH]; cbn [app prefix_free]; intros H e' He'.
  - apply andb_prop in H as [H _]. rewrite forallb_forall in H.
    specialize (H e' He'). apply andb_prop in H as [H1 H2].
    now rewrite negb_true_iff in H1, H2.
  - apply andb_prop in H as [H1 H2]. destruct He' as [<-|He'].
    + rewrite forallb_forall in H1.
      specialize (H1 e (in_elt e m1 m2)). apply andb_prop in H1 as [Ha Hb].
      now rewrite negb_true_iff in Ha, Hb.
    + now apply IH.
Qed.

Lemma tree_of_app (m1 m2 : mapping) (t : Node) :
  tree_of (m1 ++ m2) t = tree_of m2 (tree_of m1 t).
Proof. apply fold_left_app. Qed.

(** In the tree of a prefix-free mapping, the path of every code ends at
    a leaf that holds the value of the code and passes only inner nodes
    between the root and that leaf. *)
Lemma tree_of_prefix_free (m : mapping) (v : Z) (c : code) :
  prefix_free m = true -> In (v, c) m ->
  node_kind (descend (tree_of m create_node) c) = KLeaf v
  /\ forall p, is_prefix p c = true -> p <> [] -> p <> c ->
       node_kind (descend (tree_of m create_node) p) = KInner.
Proof.
  intros Hfree Hin. apply in_split in Hin as (m1 & m2 & ->).
  pose proof (prefix_free_split m1 m2 (v, c) Hfree) as Hsplit.
  cbn [snd] in Hsplit.
  rewrite tree_of_app.
  change (tree_of ((v, c) :: m2) (tree_of m1 create_node))
    with (tree_of m2 (insert_code c v (tree_of m1 create_node))).
  assert (tree_of m1 create_node <> NULL) as Ht1
      by (apply tree_of_not_null; discriminate).
  set (t1 := tree_of m1 create_node) in *.
  split.
  - apply leaf_kept.
    + now apply insert_code_not_null.
    + intros e He. apply Hsplit, in_or_app. now right.
    + rewrite <- (ensure_not_null t1 Ht1), kind_after_insert.
      destruct (list_eq_dec bool_dec c c); congruence.
  - intros p Hp Hne Hpc.
    assert (forall e, In e (m1 ++ m2) -> snd e <> p) as Hnot.
    { intros e He E. subst p. destruct (Hsplit e He) as [_ H]. congruence. }
    destruct (no_leaf_made m1 create_node p) as [Hnl _].
    + discriminate.
    + intros e He. apply Hnot, in_or_app. now left.
    + destruct p as [|a p]; [congruence|]. intros x.
      cbn. destruct a; cbn; rewrite descend_NULL; discriminate.
    + fold t1 in Hnl.
      destruct (no_leaf_made m2 (insert_code c v t1) p) as [_ Hin].
      * now apply insert_code_not_null.
      * intros e He. apply Hnot, in_or_app. now right.
      * intros x. rewrite <- (ensure_not_null t1 Ht1), kind_after_insert.
        destruct (list_eq_dec bool_dec p c); [congruence|]. rewrite Hp.
        destruct (node_kind (descend t1 p)) eqn:E; try discriminate.
        exfalso. exact (Hnl _ eq_refl).
      * apply Hin.
        rewrite <- (ensure_not_null t1 Ht1), kind_after_insert.
        destruct (list_eq_dec bool_dec p c); [congruence|]. rewrite Hp.
        destruct (node_kind (descend t1 p)) eqn:E; try reflexivity.
        exfalso. exact (Hnl _ eq_refl).
Qed.

(** *** Decoding the bits of a code *)

Lemma child_descend (t : Node) (p : code) (b : bool) :
  child (descend t p) (b2z b) = descend t (p ++ [b]).
Proof. now rewrite descend_app. Qed.

Lemma is_prefix_app (p q : code) : is_prefix p (p ++ q) = true.
Proof. induction p as [|a p IH]; cbn; [|rewrite eqb_reflx]; auto. Qed.

(** From the node reached by a part [p] of the code, the remaining bits
    of the code lead to its leaf; the value is stored and the walk is
    back at the root. *)
Lemma decode_list_code (root : Node) (c : code) (v : Z) (rest : list bool) :
  node_kind (descend root c) = KLeaf v ->
  (forall p, is_prefix p c = true -> p <> [] -> p <> c ->
             node_kind (descend root p) = KInner) ->
  forall (c' p : code) (out_pos : Z) (out : stores),
    p ++ c' = c -> c' <> [] ->
    decode_list (c' ++ rest) root (descend root p) out_pos out
    = decode_list rest root root (sz (out_pos + 1)) (out ++ [(out_pos, v)]).
Proof.
  intros Hleaf Hinner. induction c' as [|b c' IH]; intros p out_pos out Hc Hne;
    [congruence|].
  cbn [app decode_list]. rewrite child_descend.
  assert ((p ++ [b]) ++ c' = c) as Hc' by (rewrite <- app_assoc; exact Hc).
  destruct c' as [|b' c'].
  - rewrite app_nil_r in Hc'. rewrite Hc'.
    destruct (descend root c) as [|[] x l r]; cbn in Hleaf; try discriminate.
    injection Hleaf as ->. reflexivity.
  - assert (node_kind (descend root (p ++ [b])) = KInner) as Hk.
    { apply Hinner.
      - rewrite <- Hc'. apply is_prefix_app.
      - destruct p; discriminate.
      - intros E. rewrite <- Hc' in E.
        apply (f_equal (@length bool)) in E.
        rewrite !length_app in E. cbn [length] in E. lia. }
    specialize (IH (p ++ [b]) out_pos out Hc' ltac:(discriminate)).
    destruct (descend root (p ++ [b])) as [|[] x l r]; cbn in Hk;
      try discriminate.
    exact IH.
Qed.

Lemma code_of_in (m : mapping) (v : Z) :
  in_domain m v = true -> In (v, code_of m v) m.
Proof.
  unfold in_domain. induction m as [|[v' c] m IH]; cbn; [discriminate|].
  destruct (Z.eqb_spec v' v) as [->|Hne]; cbn; auto.
Qed.

(** The bits of an encoded sequence decode to the sequence. *)
Lemma decode_list_encode (m : mapping) (root : Node) (s : list Z) :
  forallb entry_ok m = true ->
  prefix_free m = true ->
  root = tree_of m create_node ->
  forallb (in_domain m) s = true ->
  forall (out_pos : Z) (out : stores),
    0 <= out_pos -> out_pos + Z.of_nat (length s) < 2 ^ 32 ->
    decode_list (encode m s) root root out_pos out
    = (out_pos + Z.of_nat (length s), out ++ write_from out_pos s).
Proof.
  intros Hok Hfree -> . induction s as [|v s IH]; intros Hdom out_pos out Hpos Hmax.
  - cbn. now rewrite Z.add_0_r, app_nil_r.
  - cbn [forallb] in Hdom. apply andb_prop in Hdom as [Hv Hdom].
    apply code_of_in in Hv.
    destruct (tree_of_prefix_free m v (code_of m v) Hfree Hv) as [Hleaf Hinner].
    assert (code_of m v <> []) as Hne.
    { rewrite forallb_forall in Hok. apply Hok, entry_ok_bounds in Hv.
      cbn [snd] in Hv. destruct (code_of m v); [simpl in Hv; lia | discriminate]. }
    cbn [encode flat_map]. fold (encode m s).
    pose proof (decode_list_code _ _ _ (encode m s) Hleaf Hinner
                                 (code_of m v) [] out_pos out eq_refl Hne)
      as Hcode.
    cbn [descend] in Hcode. rewrite Hcode. clear Hcode.
    cbn [length] in Hmax.
    rewrite sz_small by lia. rewrite IH by (assumption || lia).
    cbn [write_from length]. rewrite <- app_assoc. cbn [app].
    f_equal. lia.
Qed.

(** *** The bit stream of a packed payload *)

(** As long as the loads succeed, [decode_bits] is [decode_list] on the
    bits it reads. *)
Lemma decode_bits_list (bits : list bool) :
  forall (data : list Z) (i : Z) (root cur : Node) (out_pos : Z) (out : stores),
    (forall k, (k < length bits)%nat ->
               data_bit data (i + Z.of_nat k) = Some (b2z (nth k bits false))) ->
    decode_bits (length bits) data i root cur out_pos out
    = Some (decode_list bits root cur out_pos out).
Proof.
  induction bits as [|b bits IH]; intros data i root cur out_pos out Hbits;
    [reflexivity|].
  cbn [length decode_bits decode_list].
  pose proof (Hbits O ltac:(simpl; lia)) as H0.
  cbn [nth] in H0. rewrite Z.add_0_r in H0. rewrite H0.
  assert (forall k, (k < length bits)%nat ->
                    data_bit data (i + 1 + Z.of_nat k)
                    = Some (b2z (nth k bits false))) as Hrest.
  { intros k Hk. specialize (Hbits (S k) ltac:(simpl; lia)).
    cbn [nth] in Hbits. rewrite <- Hbits. f_equal. lia. }
  destruct (child cur (b2z b)) as [|[] x l r]; [reflexivity | |];
    now apply IH.
Qed.

Lemma byte_of_bits_bound (b7 b6 b5 b4 b3 b2 b1 b0 : bool) :
  0 <= byte_of_bits b7 b6 b5 b4 b3 b2 b1 b0 < 256.
Proof. destruct b7, b6, b5, b4, b3, b2, b1, b0; cbn; lia. Qed.

Lemma pack_bits_length (n : nat) :
  forall bits, length bits = (8 * n)%nat -> length (pack_bits bits) = n.
Proof.
  induction n as [|n IH]; intros bits Hlen.
  - destruct bits; [reflexivity | simpl in Hlen; lia].
  - do 8 (destruct bits as [|? bits]; [simpl in Hlen; lia|]).
    cbn [pack_bits length]. f_equal. apply IH. simpl in Hlen. lia.
Qed.

(** Bit [z] of the packed bytes, counted from the most significant bit of
    the first byte, is bit [z] of the list. *)
Lemma data_bit_pack (n : nat) :
  forall (bits : list bool) (z : Z),
    length bits = (8 * n)%nat -> 0 <= z < Z.of_nat (8 * n) ->
    data_bit (pack_bits bits) z = Some (b2z (nth (Z.to_nat z) bits false)).
Proof.
  induction n as [|n IH]; intros bits z Hlen Hz; [lia|].
  destruct bits as [|b7 [|b6 [|b5 [|b4 [|b3 [|b2 [|b1 [|b0 rest]]]]]]]];
    try (simpl in Hlen; lia).
  cbn [pack_bits].
  destruct (Z.lt_ge_cases z 8) as [Hlow|Hhigh].
  - unfold data_bit. rewrite Z.div_small, Z.mod_small by lia.
    cbn [load Z.ltb Z.compare Z.to_nat nth_error].
    assert (z = 0 \/ z = 1 \/ z = 2 \/ z = 3 \/ z = 4 \/ z = 5 \/ z = 6 \/ z = 7)
      as Hcases by lia.
    f_equal.
    destruct Hcases as [-> | [-> | [-> | [-> | [-> | [-> | [-> | ->]]]]]]];
      destruct b7, b6, b5, b4, b3, b2, b1, b0; reflexivity.
  - replace z with (z - 8 + 1 * 8) at 1 by lia.
    unfold data_bit. rewrite Z.div_add, Z.mod_add by lia.
    rewrite load_cons_succ by (apply Z.div_pos; lia).
    replace (Z.to_nat z) with (8 + Z.to_nat (z - 8))%nat by lia.
    cbn [Nat.add nth].
    apply IH; [simpl in Hlen; lia | lia].
Qed.

Lemma encode_nil (m : mapping) (s : list Z) :
  forallb entry_ok m = true ->
  forallb (in_domain m) s = true ->
  encode m s = [] -> s = [].
Proof.
  intros Hok Hdom Henc. destruct s as [|v s]; [reflexivity|].
  cbn [forallb] in Hdom. apply andb_prop in Hdom as [Hv _].
  apply code_of_in in Hv. rewrite forallb_forall in Hok.
  apply Hok, entry_ok_bounds in Hv. cbn [snd] in Hv.
  cbn [encode flat_map] in Henc. apply app_eq_nil in Henc as [E _].
  rewrite E in Hv. simpl in Hv. lia.
Qed.

Lemma encode_length (m : mapping) (s : list Z) :
  forallb entry_ok m = true ->
  forallb (in_domain m) s = true ->
  (length s <= length (encode m s))%nat.
Proof.
  intros Hok. induction s as [|v s IH]; intros Hdom; [simpl; lia|].
  cbn [forallb] in Hdom. apply andb_prop in Hdom as [Hv Hdom].
  apply code_of_in in Hv. rewrite forallb_forall in Hok.
  apply Hok, entry_ok_bounds in Hv. cbn [snd] in Hv.
  cbn [encode flat_map length]. fold (encode m s).
  rewrite length_app. specialize (IH Hdom). lia.
Qed.

Lemma table_length_bound (m : mapping) :
  (2 * length m <= length (flat_map serialize_entry m))%nat.
Proof.
  induction m as [|e m IH]; cbn [flat_map length]; [lia|].
  rewrite length_app, serialize_entry_length. lia.
Qed.

(** C4, as amended.  Huffman round trip: for every prefix-free mapping of
    byte values to codes of 1 to 64 bits, serialized as the table of
    (value, code length, big-endian code bits) triples behind the padding
    byte, and every sequence of values of the mapping, bit-packed most
    significant bit first and filled up to a whole byte with 0 to 7
    padding bits of any content, [decode_huffman_data] returns [ESP_OK],
    reports the length of the sequence and stores exactly the sequence, in
    order, from the start of the output buffer. *)
Theorem huffman_roundtrip (m : mapping) (s : list Z) (pad : list bool) :
  forallb entry_ok m = true ->
  prefix_free m = true ->
  forallb (in_domain m) s = true ->
  (length pad <= 7)%nat ->
  (exists n, length (encode m s ++ pad) = 8 * n)%nat ->
  Z.of_nat (length (serialize_table (Z.of_nat (length pad)) m)) < 2 ^ 32 ->
  Z.of_nat (length (encode m s ++ pad)) < 2 ^ 32 ->
  decode_huffman_data
    (pack_bits (encode m s ++ pad))
    (Z.of_nat (length (pack_bits (encode m s ++ pad))))
    (serialize_table (Z.of_nat (length pad)) m)
    (Z.of_nat (length (serialize_table (Z.of_nat (length pad)) m)))
  = Some (mk_result ESP_OK (Z.of_nat (length s)) (write_from 0 s)).
Proof.
  intros Hok Hfree Hdom Hpad [n Hn] Htable Hbits.
  pose proof (pack_bits_length n _ Hn) as Hpack.
  rewrite length_app in Hn, Hbits.
  unfold decode_huffman_data. rewrite Hpack.
  destruct (Z.eqb_spec (Z.of_nat n) 0) as [Hzero|Hnz]; cbn [orb].
  - (* no payload: the sequence is empty *)
    assert (encode m s = []) as Henc
        by (destruct (encode m s); [reflexivity | simpl in Hn; lia]).
    now rewrite (encode_nil m s Hok Hdom Henc).
  - unfold serialize_table in *. cbn [length] in *.
    zcase; [lia|].
    cbn [load Z.ltb Z.compare Z.to_nat nth_error].
    pose proof (build_tree_serialized m [Z.of_nat (length pad)]
                  (Z.to_nat (Z.of_nat (S (length (flat_map serialize_entry m)))))
                  create_node Hok) as Hbuild.
    cbn [app length] in Hbuild. change (Z.of_nat 1) with 1 in Hbuild.
    rewrite Hbuild; clear Hbuild;
      [|pose proof (table_length_bound m); lia | assumption].
    (* the number of bits to decode *)
    assert ((if Z.of_nat (length pad) >? 0
             then sz (sz (Z.of_nat n * 8) - Z.of_nat (length pad))
             else sz (Z.of_nat n * 8))
            = Z.of_nat (length (encode m s))) as Htotal.
    { rewrite (sz_small (Z.of_nat n * 8)) by lia.
      zcase; rewrite ?sz_small by lia; lia. }
    rewrite Htotal, Nat2Z.id.
    rewrite decode_bits_list.
    + pose proof (encode_length m s Hok Hdom) as Hs.
      rewrite (decode_list_encode m _ s Hok Hfree eq_refl Hdom) by lia.
      cbn [fst snd]. now rewrite Z.add_0_l.
    + intros k Hk. rewrite Z.add_0_l.
      rewrite (data_bit_pack n) by (rewrite ?length_app; lia).
      rewrite Nat2Z.id, app_nth1 by assumption. reflexivity.
Qed.

End HuffmanFacts.

(** The mapping 65 -> 0, 66 -> 10, 67 -> 11 and the sequence 65, 66, 67,
    65: six bits and two padding bits, in the byte 0101_1001. *)
Lemma huffman_roundtrip_witness :
  let m := [(65, [false]); (66, [true; false]); (67, [true; true])] in
  let s := [65; 66; 67; 65] in
  let pad := [false; true] in
  Huffman.decode_huffman_data
    (Huffman.pack_bits (Huffman.encode m s ++ pad))
    (Z.of_nat (length (Huffman.pack_bits (Huffman.encode m s ++ pad))))
    (Huffman.serialize_table (Z.of_nat (length pad)) m)
    (Z.of_nat (length (Huffman.serialize_table (Z.of_nat (length pad)) m)))
  = Some (Huffman.mk_result ESP_OK (Z.of_nat (length s)) (write_from 0 s)).
Proof.
  intros m s pad.
  apply (huffman_roundtrip m s pad);
    [reflexivity | reflexivity | reflexivity | simpl; lia
     | exists 1%nat; reflexivity | reflexivity | reflexivity].
Defined.

(** The round trip fails for codes that the engine cannot hold.
    - A code of 65 bits, 1 followed by 64 zeros, is prefix-free on its own.
      Its nine code bytes 01 00 .. 00 push the only 1 out of the 64-bit
      accumulator, which is left at 0, so the code is inserted as 65 zero
      bits.  The first bit of the payload, 1, finds no right child: nothing
      is decoded.
    - A code of no bits packs any sequence into an empty payload, for which
      the engine reports no output. *)
Lemma long_or_empty_code_breaks_round_trip :
  (let m := [(65, true :: repeat false 64)] in
   let pad := repeat false 7 in
   Huffman.prefix_free m = true
   /\ Huffman.serialize_table 7 m = [7; 65; 65; 1; 0; 0; 0; 0; 0; 0; 0; 0]
   /\ Huffman.pack_bits (Huffman.encode m [65] ++ pad)
      = [128; 0; 0; 0; 0; 0; 0; 0; 0]
   /\ Huffman.decode_huffman_data
        (Huffman.pack_bits (Huffman.encode m [65] ++ pad)) 9
        (Huffman.serialize_table 7 m) 12
      = Some (Huffman.mk_result ESP_OK 0 [])
   /\ write_from 0 [65] <> [])
  /\ (let m := [(65, @nil bool)] in
      Huffman.prefix_free m = true
      /\ Huffman.decode_huffman_data
           (Huffman.pack_bits (Huffman.encode m [65; 65])) 0
           (Huffman.serialize_table 0 m) 3
         = Some (Huffman.mk_result ESP_OK 0 [])
      /\ write_from 0 [65; 65] <> []).
Proof.
  split; cbv zeta; repeat split; try (vm_compute; reflexivity); discriminate.
Qed.

(** * Further properties of the decoders *)

(** ** Run-length decoder: capacity and input bounds *)

Section RleBehaviour.

Import Rle Layout.

Lemma run_byte_bounds (r : run) :
  run_byte r = true -> 0 <= fst r < 256 /\ 0 <= snd r < 256.
Proof.
  unfold run_byte, is_byte. intros H.
  apply andb_prop in H as [H1 H2].
  apply andb_prop in H1 as [? ?]. apply andb_prop in H2 as [? ?]. lia.
Qed.

Lemma fitting_length (runs : list run) :
  forall room, forallb run_byte runs = true -> 0 <= room ->
    Z.of_nat (length (expand (fitting runs room))) <= room.
Proof.
  induction runs as [|r runs IH]; intros room Hok Hroom; [simpl; lia|].
  cbn [forallb] in Hok. apply andb_prop in Hok as [Hr Hok].
  apply run_byte_bounds in Hr. cbn [fitting].
  destruct (Z.leb_spec (fst r) room); [|simpl; lia].
  rewrite expand_cons_length by lia.
  specialize (IH (room - fst r) Hok ltac:(lia)). lia.
Qed.

(** The loop on an encoded list of runs and any capacity: it stores the
    expansion of the runs that fit, and returns [ESP_OK] if they all do,
    [ESP_FAIL] at the first one that does not. *)
Lemma loop_runs (runs : list run) :
  forall (pre post : list Z) (fuel : nat) (input_len output_len out_pos : Z)
         (out : stores) (rd : list Z),
    forallb run_byte runs = true ->
    (length runs < fuel)%nat ->
    input_len = Z.of_nat (length pre) + Z.of_nat (length (encode runs)) ->
    input_len < 2 ^ 32 - 1 ->
    0 <= out_pos <= output_len -> output_len < 2 ^ 32 - 255 ->
    exists rd',
      loop fuel (pre ++ encode runs ++ post) input_len output_len
           (Z.of_nat (length pre)) out_pos out rd
      = Some (mk_result
                (if fits runs (output_len - out_pos) then ESP_OK else ESP_FAIL)
                (out ++ write_from out_pos
                           (expand (fitting runs (output_len - out_pos))))
                rd').
Proof.
  induction runs as [|[c v] runs IH];
    intros pre post fuel input_len output_len out_pos out rd Hok Hfuel Hlen
           Hmax Hpos Hcap;
    (destruct fuel as [|fuel]; [simpl in Hfuel; lia|]).
  - simpl in Hlen. cbn [loop]. rewrite sz_small by lia.
    zcase; [lia|]. exists rd. simpl. now rewrite app_nil_r.
  - cbn [forallb] in Hok. apply andb_prop in Hok as [Hr Hok].
    apply run_byte_bounds in Hr. cbn [fst snd] in Hr.
    cbn [encode flat_map app length] in Hlen. fold (encode runs) in Hlen.
    cbn [loop encode flat_map fst snd app fits fitting]. fold (encode runs).
    rewrite (sz_small (_ + 1)), (sz_small (_ + 2)) by lia.
    zcase; [|lia].
    rewrite load_app_head, load_app_next.
    rewrite sz_small by lia.
    destruct (Z.leb_spec c (output_len - out_pos)) as [Hfit|Hover];
      destruct (Z.ltb_spec output_len (out_pos + c)) as [Hgt|Hle];
      try lia; rewrite Z.gtb_ltb;
      [destruct (Z.ltb_spec output_len (out_pos + c)); [lia|]
      |destruct (Z.ltb_spec output_len (out_pos + c)); [|lia]].
    + rewrite fill_spec by lia.
      replace (pre ++ c :: v :: encode runs ++ post)
        with ((pre ++ [c; v]) ++ encode runs ++ post)
        by now rewrite <- app_assoc.
      replace (Z.of_nat (length pre) + 2)
        with (Z.of_nat (length (pre ++ [c; v])))
        by (rewrite length_app; simpl; lia).
      destruct (IH (pre ++ [c; v]) post fuel input_len output_len
                   (out_pos + Z.of_nat (Z.to_nat c))
                   (out ++ write_from out_pos (repeat v (Z.to_nat c)))
                   (rd ++ [Z.of_nat (length pre); Z.of_nat (length pre) + 1]))
        as [rd' Hrd'];
        try (rewrite ?length_app; simpl in *; lia); [assumption|].
      exists rd'. rewrite Hrd'. rewrite Z2Nat.id by lia.
      replace (output_len - (out_pos + c)) with (output_len - out_pos - c)
        by lia.
      cbn [andb]. do 2 f_equal.
      unfold expand at 2. cbn [flat_map snd fst].
      fold (expand (fitting runs (output_len - out_pos - c))).
      rewrite write_from_app, repeat_length, <- app_assoc.
      rewrite Z2Nat.id by lia. reflexivity.
    + eexists. cbn [andb expand flat_map write_from]. now rewrite app_nil_r.
Qed.

(** X1.  The decoder on any well-formed input, whatever the capacity: it
    stores, from the start of the output and in order, the expansion of
    the runs that fit into [output_len] cells one after the other; it
    returns [ESP_OK] when every run fits and [ESP_FAIL] at the first run
    that does not, leaving what it has stored where it is.  A count of 0
    is accepted and stores nothing. *)
Theorem rle_decode_by_capacity (runs : list run) (post : list Z)
        (output_len : Z) :
  forallb run_byte runs = true ->
  Z.of_nat (length (encode runs)) < 2 ^ 32 - 1 ->
  0 <= output_len < 2 ^ 32 - 255 ->
  exists r,
    gfx_aaf_rle_decode (encode runs ++ post)
                       (Z.of_nat (length (encode runs))) output_len = Some r
    /\ ret r = (if fits runs output_len then ESP_OK else ESP_FAIL)
    /\ written r = write_from 0 (expand (fitting runs output_len))
    /\ in_bounds output_len (written r) = true.
Proof.
  intros Hok Hin Hcap. unfold gfx_aaf_rle_decode.
  destruct (loop_runs runs [] post
              (S (Z.to_nat (Z.of_nat (length (encode runs)))))
              (Z.of_nat (length (encode runs))) output_len 0 [] [])
    as [rd' Hrd']; try (simpl; lia); [assumption| |].
  - rewrite Nat2Z.id. unfold encode. clear. induction runs; simpl; lia.
  - cbn [app length] in Hrd'. rewrite Z.sub_0_r in Hrd'.
    eexists. split; [exact Hrd'|]. cbn [ret written]. repeat split.
    apply in_bounds_write_from; [lia|].
    pose proof (fitting_length runs output_len Hok). lia.
Qed.

(** With an input of even length the loop stays on the pairs: it returns,
    and every index it has read is inside the input. *)
Lemma rle_loop_even (fuel : nat) :
  forall (input : list Z) (n k output_len out_pos : Z) (out : stores)
         (rd : list Z),
    0 <= k <= n -> 2 * n < 2 ^ 32 - 2 ->
    2 * n <= Z.of_nat (length input) ->
    (Z.to_nat (n - k) < fuel)%nat ->
    Forall (fun i => 0 <= i < 2 * n) rd ->
    exists r,
      loop fuel input (2 * n) output_len (2 * k) out_pos out rd = Some r
      /\ Forall (fun i => 0 <= i < 2 * n) (read r).
Proof.
  induction fuel as [|fuel IH];
    intros input n k output_len out_pos out rd Hk Hmax Hlen Hfuel Hrd;
    [lia|].
  cbn [loop]. rewrite (sz_small (2 * k + 1)) by lia.
  destruct (Z.leb_spec (2 * k + 1) (2 * n)) as [Hle|Hgt].
  - assert (exists count, load input (2 * k) = Some count) as [count Ec].
    { unfold load. zcase; [lia|].
      destruct (nth_error input (Z.to_nat (2 * k))) eqn:E; [eauto|].
      apply nth_error_None in E. lia. }
    assert (exists value, load input (2 * k + 1) = Some value) as [value Ev].
    { unfold load. zcase; [lia|].
      destruct (nth_error input (Z.to_nat (2 * k + 1))) eqn:E; [eauto|].
      apply nth_error_None in E. lia. }
    rewrite Ec, Ev.
    assert (Forall (fun i => 0 <= i < 2 * n) (rd ++ [2 * k; 2 * k + 1]))
      as Hrd'.
    { apply Forall_app. split; [assumption|]. repeat constructor; lia. }
    destruct (sz (out_pos + count) >? output_len).
    + eexists. split; [reflexivity|]. exact Hrd'.
    + destruct (fill (Z.to_nat count) value out_pos out) as [p o].
      rewrite sz_small by lia.
      replace (2 * k + 2) with (2 * (k + 1)) by lia.
      apply IH; try assumption; lia.
  - eexists. split; [reflexivity|]. exact Hrd.
Qed.

(** X2.  On an input of even length that the memory behind [input]
    covers, the decoder returns and every index it has read lies inside
    the input, whatever the bytes and the capacity are. *)
Theorem rle_even_input_read_in_bounds (input : list Z) (n output_len : Z) :
  0 <= n -> 2 * n < 2 ^ 32 - 2 ->
  2 * n <= Z.of_nat (length input) ->
  exists r,
    gfx_aaf_rle_decode input (2 * n) output_len = Some r
    /\ Forall (fun i => 0 <= i < 2 * n) (read r).
Proof.
  intros Hn Hmax Hlen. unfold gfx_aaf_rle_decode.
  apply (rle_loop_even _ input n 0 output_len 0 [] []);
    try assumption; try lia. constructor.
Qed.

End RleBehaviour.

(** ** Huffman engine: what any table and payload give *)

Section HuffmanBehaviour.

Import Huffman.

(** Whatever the tree and the bits, the decoding loop stores its output
    in consecutive cells, one cell for every leaf reached, and reaches at
    most one leaf per bit. *)
Lemma decode_bits_consecutive (n : nat) :
  forall (data : list Z) (i : Z) (root cur : Node) (vals : list Z)
         (p : Z) (out : stores),
    Z.of_nat (length vals) + Z.of_nat n < 2 ^ 32 ->
    decode_bits n data i root cur (Z.of_nat (length vals))
                (write_from 0 vals) = Some (p, out) ->
    exists vals',
      out = write_from 0 vals' /\ p = Z.of_nat (length vals')
      /\ (length vals <= length vals' <= length vals + n)%nat.
Proof.
  induction n as [|n IH]; intros data i root cur vals p out Hmax;
    cbn [decode_bits].
  - intros E. injection E as <- <-. exists vals. repeat split; lia.
  - destruct (data_bit data i) as [bit|]; [|discriminate].
    destruct (child cur bit) as [|[] x l r].
    + intros E. injection E as <- <-. exists vals. repeat split; lia.
    + rewrite sz_small by lia.
      replace (write_from 0 vals ++ [(Z.of_nat (length vals), x)])
        with (write_from 0 (vals ++ [x]))
        by (rewrite write_from_app; reflexivity).
      replace (Z.of_nat (length vals) + 1)
        with (Z.of_nat (length (vals ++ [x])))
        by (rewrite length_app; simpl; lia).
      intros E. apply IH in E; [|rewrite length_app; simpl; lia].
      destruct E as (vals' & -> & -> & Hlen).
      rewrite length_app in Hlen. cbn [length] in Hlen.
      exists vals'. repeat split; lia.
    + intros E. apply IH in E; [|lia].
      destruct E as (vals' & -> & -> & Hlen).
      exists vals'. repeat split; lia.
Qed.

(** X3.  Whatever the table and the payload are, a call of the engine
    that returns has stored its output in the cells 0, 1, .. in order, one
    store per cell, reports their number in [*output_len], and has
    produced at most one byte for every bit of the count the code computes,
    [data_len * 8 - padding] in [size_t].  That count is the number of
    payload bits that are not padding only when the padding byte is at most
    [data_len * 8]; a larger padding byte wraps it around (padding 9 on a
    payload of one byte gives [2 ^ 32 - 1]), and the bound then no longer
    holds the output to the payload.  The decoding loop has the same
    property on every tree, so none of this rests on how the table was
    read. *)
Theorem huffman_output_is_consecutive
        (data dict_bytes : list Z) (data_len dict_len : Z) :
  (forall r,
     decode_huffman_data data data_len dict_bytes dict_len = Some r ->
     written r = write_from 0 (map snd (written r))
     /\ output_len r = Z.of_nat (length (written r))
     /\ forall padding,
          load dict_bytes 0 = Some padding ->
          output_len r <= total_bits data_len padding
          /\ (0 <= padding <= data_len * 8 -> data_len * 8 < 2 ^ 32 ->
              total_bits data_len padding = data_len * 8 - padding))
  /\ (forall (n : nat) (root : Node) (out_pos : Z) (out : stores),
        Z.of_nat n < 2 ^ 32 ->
        decode_bits n data 0 root root 0 [] = Some (out_pos, out) ->
        out = write_from 0 (map snd out)
        /\ out_pos = Z.of_nat (length out)
        /\ out_pos <= Z.of_nat n).
Proof.
  assert (Hloop :
            forall (n : nat) (root : Node) (out_pos : Z) (out : stores),
              Z.of_nat n < 2 ^ 32 ->
              decode_bits n data 0 root root 0 [] = Some (out_pos, out) ->
              out = write_from 0 (map snd out)
              /\ out_pos = Z.of_nat (length out)
              /\ out_pos <= Z.of_nat n).
  { intros n root out_pos out Hn E.
    apply (decode_bits_consecutive _ data 0 root root []) in E;
      [|simpl; lia].
    destruct E as (vals & -> & -> & Hlen).
    rewrite write_from_values, write_from_length. simpl in Hlen.
    repeat split. lia. }
  assert (Htotal : forall padding, 0 <= total_bits data_len padding < 2 ^ 32).
  { intros padding. unfold total_bits, sz. cbv zeta.
    destruct (padding >? 0); apply Z.mod_pos_bound; lia. }
  assert (Hexact :
            forall padding,
              0 <= padding <= data_len * 8 -> data_len * 8 < 2 ^ 32 ->
              total_bits data_len padding = data_len * 8 - padding).
  { intros padding Hp Hmax. unfold total_bits. cbv zeta.
    rewrite (sz_small (data_len * 8)) by lia.
    zcase; rewrite ?sz_small by lia; lia. }
  split; [|exact Hloop].
  intros r. unfold decode_huffman_data.
  destruct ((data_len =? 0) || (dict_len =? 0)).
  - intros E. injection E as <-. cbn [written output_len map write_from length].
    split; [reflexivity|]. split; [reflexivity|].
    intros padding _. split; [apply Htotal | apply Hexact].
  - destruct (load dict_bytes 0) as [padding|]; [|discriminate].
    destruct (build_tree _ _ _ _ _) as [root|]; [|discriminate].
    cbv zeta.
    change (if padding >? 0 then sz (sz (data_len * 8) - padding)
            else sz (data_len * 8)) with (total_bits data_len padding).
    destruct (decode_bits _ _ _ _ _ _ _) as [[p out]|] eqn:E; [|discriminate].
    apply Hloop in E;
      [|rewrite Z2Nat.id by apply Htotal; apply Htotal].
    destruct E as (Hout & Hp & Hle).
    rewrite Z2Nat.id in Hle by apply Htotal.
    intros E. injection E as <-. cbn [written output_len fst snd].
    split; [exact Hout|]. split; [exact Hp|].
    intros padding' E. injection E as <-.
    split; [exact Hle | apply Hexact].
Qed.

(** A padding byte of 9 on a payload of one byte: the loop runs on into
    the byte after the payload and eight bytes come out of a payload that
    has no bit left once the padding is taken off. *)
Example padding_beyond_payload :
  decode_huffman_data [0; 128] 1 [9; 65; 1; 0] 4
  = Some (mk_result ESP_OK 8 (write_from 0 (List.repeat 65 8)))
  /\ total_bits 1 9 = 2 ^ 32 - 1.
Proof. split; reflexivity. Qed.

End HuffmanBehaviour.

(** ** Huffman blocks *)

Section HuffmanBlocks.

Import Huffman Layout.

(** [build_tree_serialized] with more memory behind the table, as the
    wrapper passes it: the table ends where [dict_len] says, not where
    the memory does. *)
Lemma build_tree_table (m : mapping) :
  forall (pre post : list Z) (fuel : nat) (root : Node),
    forallb entry_ok m = true ->
    (length m < fuel)%nat ->
    Z.of_nat (length (pre ++ flat_map serialize_entry m)) < 2 ^ 32 ->
    build_tree fuel (pre ++ flat_map serialize_entry m ++ post)
               (Z.of_nat (length (pre ++ flat_map serialize_entry m)))
               (Z.of_nat (length pre)) root
    = Some (tree_of m root).
Proof.
  induction m as [|[v c] m IH]; intros pre post fuel root Hok Hfuel Hlen;
    (destruct fuel as [|fuel]; [simpl in Hfuel; lia|]).
  - cbn [build_tree flat_map app]. rewrite app_nil_r.
    rewrite Z.ltb_irrefl. reflexivity.
  - cbn [forallb] in Hok. apply andb_prop in Hok as [He Hok].
    apply entry_ok_bounds in He. cbn [fst snd] in He.
    destruct He as [Hv Hc].
    destruct (code_value_fits c) as [Hfit1 Hfit2]; [lia|].
    pose proof (code_value_bound c) as Hcv.
    set (cb := be_bytes (code_byte_len c) (code_value c)).
    set (rest := flat_map serialize_entry m) in *.
    assert (flat_map serialize_entry ((v, c) :: m)
            = [v; Z.of_nat (length c)] ++ cb ++ rest) as Hflat by reflexivity.
    rewrite Hflat in *. clear Hflat.
    assert (length cb = code_byte_len c) as Hcb by apply be_bytes_length.
    assert (0 <= (Z.of_nat (length c) + 7) / 8) as Hdiv
        by (apply Z.div_pos; lia).
    assert (Z.of_nat (code_byte_len c) = (Z.of_nat (length c) + 7) / 8)
      as Hcbl by (unfold code_byte_len; lia).
    rewrite !length_app in Hlen. cbn [length] in Hlen. rewrite Hcb in Hlen.
    set (dict_len := Z.of_nat (length (pre ++ [v; Z.of_nat (length c)]
                                           ++ cb ++ rest))).
    assert (dict_len = Z.of_nat (length pre) + 2
                       + Z.of_nat (code_byte_len c)
                       + Z.of_nat (length rest)) as Hdl.
    { unfold dict_len. rewrite !length_app. cbn [length]. lia. }
    replace (pre ++ ([v; Z.of_nat (length c)] ++ cb ++ rest) ++ post)
      with (pre ++ v :: Z.of_nat (length c) :: cb ++ rest ++ post)
      by (cbn [app]; now rewrite <- app_assoc).
    cbn [build_tree].
    zcase; [|lia].
    rewrite load_app_head.
    rewrite sz_small by lia. rewrite load_app_next.
    rewrite Nat2Z.id. rewrite <- Hcbl, Nat2Z.id.
    rewrite sz_small by lia.
    replace (pre ++ v :: Z.of_nat (length c) :: cb ++ rest ++ post)
      with ((pre ++ [v; Z.of_nat (length c)]) ++ cb ++ rest ++ post)
      by now rewrite <- app_assoc.
    replace (Z.of_nat (length pre) + 2)
      with (Z.of_nat (length (pre ++ [v; Z.of_nat (length c)])))
      by (rewrite length_app; simpl; lia).
    unfold cb at 1.
    rewrite read_code_be_bytes;
      try lia;
      try (rewrite Z.mod_small by lia; lia);
      try (rewrite length_app; simpl; lia).
    rewrite Z.mul_0_l, Z.add_0_l, Z.mod_small by lia.
    pose proof (insert_is_insert_code c 0 v root ltac:(lia)) as Hins.
    rewrite Z.mul_0_l, Z.add_0_l in Hins. rewrite Hins. clear Hins.
    fold cb.
    set (pre' := (pre ++ [v; Z.of_nat (length c)]) ++ cb).
    assert (Z.of_nat (length pre')
            = Z.of_nat (length pre) + 2 + Z.of_nat (code_byte_len c)) as Hp'.
    { unfold pre'. rewrite !length_app. cbn [length]. lia. }
    replace (sz _) with (Z.of_nat (length pre'))
      by (rewrite length_app; cbn [length];
          rewrite sz_small by lia; lia).
    replace ((pre ++ [v; Z.of_nat (length c)]) ++ cb ++ rest ++ post)
      with (pre' ++ rest ++ post)
      by (unfold pre'; now rewrite <- !app_assoc).
    replace dict_len with (Z.of_nat (length (pre' ++ rest)))
      by (rewrite length_app; lia).
    apply IH; [assumption | simpl in Hfuel; lia | rewrite length_app; lia].
Qed.

Lemma data_bit_app (data post : list Z) (z : Z) :
  0 <= z < 8 * Z.of_nat (length data) ->
  data_bit (data ++ post) z = data_bit data z.
Proof.
  intros Hz. unfold data_bit. rewrite load_app_l; [reflexivity|].
  split; [apply Z.div_pos; lia | apply Z.div_lt_upper_bound; lia].
Qed.

(** The engine on a table and a payload that lie in a larger buffer. *)
Lemma huffman_engine_roundtrip (m : mapping) (s : list Z) (pad : list bool)
      (post1 post2 : list Z) (n : nat) :
  forallb entry_ok m = true ->
  prefix_free m = true ->
  forallb (in_domain m) s = true ->
  (length pad <= 7)%nat ->
  length (encode m s ++ pad) = (8 * n)%nat ->
  (0 < n)%nat ->
  Z.of_nat (length (serialize_table (Z.of_nat (length pad)) m)) < 2 ^ 32 ->
  Z.of_nat (8 * n) < 2 ^ 32 ->
  decode_huffman_data
    (pack_bits (encode m s ++ pad) ++ post2) (Z.of_nat n)
    (serialize_table (Z.of_nat (length pad)) m ++ post1)
    (Z.of_nat (length (serialize_table (Z.of_nat (length pad)) m)))
  = Some (mk_result ESP_OK (Z.of_nat (length s)) (write_from 0 s)).
Proof.
  intros Hok Hfree Hdom Hpad Hn Hpos Htable Hbits.
  pose proof (pack_bits_length n _ Hn) as Hpack.
  rewrite length_app in Hn.
  unfold decode_huffman_data.
  unfold serialize_table in *. cbn [length app] in *.
  do 2 (zcase; [lia|]). cbn [orb].
  cbn [load Z.ltb Z.compare Z.to_nat nth_error].
  pose proof (build_tree_table m [Z.of_nat (length pad)] post1
                (Z.to_nat (Z.of_nat (S (length (flat_map serialize_entry m)))))
                create_node Hok) as Hbuild.
  cbn [app length] in Hbuild. change (Z.of_nat 1) with 1 in Hbuild.
  rewrite Hbuild; clear Hbuild;
    [|pose proof (table_length_bound m); lia | assumption].
  assert ((if Z.of_nat (length pad) >? 0
           then sz (sz (Z.of_nat n * 8) - Z.of_nat (length pad))
           else sz (Z.of_nat n * 8))
          = Z.of_nat (length (encode m s))) as Htotal.
  { rewrite (sz_small (Z.of_nat n * 8)) by lia.
    zcase; rewrite ?sz_small by lia; lia. }
  rewrite Htotal, Nat2Z.id.
  rewrite decode_bits_list.
  - pose proof (encode_length m s Hok Hdom) as Hs.
    rewrite (decode_list_encode m _ s Hok Hfree eq_refl Hdom) by lia.
    cbn [fst snd]. now rewrite Z.add_0_l.
  - intros k Hk. rewrite Z.add_0_l.
    rewrite data_bit_app by lia.
    rewrite (data_bit_pack n) by (rewrite ?length_app; lia).
    rewrite Nat2Z.id, app_nth1 by assumption. reflexivity.
Qed.

Lemma le16_value (x : Z) :
  0 <= x < 65536 ->
  Z.lor (Z.shiftl (x / 256 mod 256) 8) (x mod 256) mod 2 ^ 16 = x.
Proof.
  intros Hx.
  assert (0 <= x / 256 < 256)
    by (split; [apply Z.div_pos | apply Z.div_lt_upper_bound]; lia).
  pose proof (Z.mod_pos_bound x 256 eq_refl).
  rewrite (Z.mod_small (x / 256)) by lia.
  rewrite lor_shiftl_low by (change (2 ^ 8) with 256; lia).
  change (2 ^ 8) with 256. change (2 ^ 16) with 65536.
  pose proof (Z.div_mod x 256 ltac:(lia)).
  rewrite Z.mod_small; lia.
Qed.

(** The wrapper on a block as an encoder lays it out. *)
Lemma huffman_wrapper_roundtrip (tag : Z) (m : mapping) (s : list Z)
        (pad : list bool) (post : list Z) (n : nat) (len0 : Z) :
  forallb entry_ok m = true ->
  prefix_free m = true ->
  forallb (in_domain m) s = true ->
  (length pad <= 7)%nat ->
  length (encode m s ++ pad) = (8 * n)%nat ->
  Z.of_nat (length (serialize_table (Z.of_nat (length pad)) m)) < 65536 ->
  Z.of_nat (8 * n) < 2 ^ 32 ->
  gfx_aaf_huffman_decode (huffman_block tag m s pad ++ post)
                         (Z.of_nat (length (huffman_block tag m s pad))) len0
  = Some (if (0 <? Z.of_nat n)
          then mk_result ESP_OK (Z.of_nat (length s)) (write_from 0 s)
          else mk_result ESP_FAIL len0 []).
Proof.
  intros Hok Hfree Hdom Hpad Hn Htable Hbits.
  pose proof (pack_bits_length n _ Hn) as Hpack.
  unfold huffman_block, gfx_aaf_huffman_decode.
  set (table := serialize_table (Z.of_nat (length pad)) m) in *.
  set (payload := pack_bits (encode m s ++ pad)) in *.
  cbn [length app le16].
  rewrite !length_app, Hpack.
  zcase; [lia|].
  change (load (tag :: Z.of_nat (length table) mod 256
                    :: (Z.of_nat (length table) / 256) mod 256
                    :: (table ++ payload) ++ post) 2)
    with (Some ((Z.of_nat (length table) / 256) mod 256)).
  change (load (tag :: Z.of_nat (length table) mod 256
                    :: (Z.of_nat (length table) / 256) mod 256
                    :: (table ++ payload) ++ post) 1)
    with (Some (Z.of_nat (length table) mod 256)).
  cbv beta match.
  rewrite le16_value by lia.
  zcase; [lia|].
  replace (Z.of_nat (S (S (S (length table + n)))) - 3
           - Z.of_nat (length table)) with (Z.of_nat n) by lia.
  rewrite sz_small by lia.
  destruct (Z.eqb_spec (Z.of_nat n) 0) as [Hz|Hnz].
  - replace (0 <? Z.of_nat n) with false by (symmetry; apply Z.ltb_ge; lia).
    reflexivity.
  - replace (0 <? Z.of_nat n) with true by (symmetry; apply Z.ltb_lt; lia).
    replace (Z.to_nat (3 + Z.of_nat (length table)))
      with (3 + length table)%nat by lia.
    cbn [skipn Nat.add].
    rewrite <- !app_assoc.
    rewrite skipn_app, skipn_all, Nat.sub_diag. cbn [skipn app].
    subst table payload.
    rewrite (huffman_engine_roundtrip
               m s pad (pack_bits (encode m s ++ pad) ++ post) post n);
      try assumption; try lia; reflexivity.
Qed.

(** X4.  The block-level Huffman decoder on a block as an encoder lays
    it out (tag, table length, table, packed payload), for a prefix-free
    mapping with codes of 1 to 64 bits and a table shorter than 65536
    bytes: a non-empty sequence is returned exactly, with [ESP_OK] and its
    length in [*output_len]; the empty sequence, whose payload is empty,
    is refused with [ESP_FAIL], and [*output_len] keeps the value it
    had. *)
Theorem huffman_block_decodes (tag : Z) (m : mapping) (s : list Z)
        (pad : list bool) (post : list Z) (n : nat) (len0 : Z) :
  forallb entry_ok m = true ->
  prefix_free m = true ->
  forallb (in_domain m) s = true ->
  (length pad <= 7)%nat ->
  length (encode m s ++ pad) = (8 * n)%nat ->
  Z.of_nat (length (serialize_table (Z.of_nat (length pad)) m)) < 65536 ->
  Z.of_nat (8 * n) < 2 ^ 32 ->
  (s <> [] ->
   gfx_aaf_huffman_decode (huffman_block tag m s pad ++ post)
                          (Z.of_nat (length (huffman_block tag m s pad))) len0
   = Some (mk_result ESP_OK (Z.of_nat (length s)) (write_from 0 s)))
  /\ (s = [] ->
      gfx_aaf_huffman_decode (huffman_block tag m s pad ++ post)
                             (Z.of_nat (length (huffman_block tag m s pad)))
                             len0
      = Some (mk_result ESP_FAIL len0 [])).
Proof.
  intros Hok Hfree Hdom Hpad Hn Htable Hbits.
  rewrite (huffman_wrapper_roundtrip tag m s pad post n len0) by assumption.
  split; intros Hs.
  - pose proof (encode_length m s Hok Hdom) as Hlen.
    rewrite length_app in Hn.
    destruct s; [congruence|]. cbn [length] in Hlen.
    replace (0 <? Z.of_nat n) with true by (symmetry; apply Z.ltb_lt; lia).
    reflexivity.
  - subst s. cbn [encode flat_map app] in Hn.
    replace (0 <? Z.of_nat n) with false by (symmetry; apply Z.ltb_ge; lia).
    reflexivity.
Qed.

End HuffmanBlocks.

(** ** Block decoder: the three encodings end to end *)

Section BlockFacts.

Import Layout.

Variable gfx_jpeg_decode : list Z -> Z -> Z -> bool -> esp_err_t * stores.

Lemma skipn_pre (pre rest : list Z) :
  skipn (Z.to_nat (Z.of_nat (length pre))) (pre ++ rest) = rest.
Proof.
  rewrite Nat2Z.id, skipn_app, skipn_all, Nat.sub_diag. reflexivity.
Qed.

Lemma rle_encode_length (runs : list Rle.run) :
  length (Rle.encode runs) = (2 * length runs)%nat.
Proof. induction runs; simpl in *; lia. Qed.

(** The block decoder on a run-length block. *)
Lemma rle_block_result (pre post : list Z) (runs : list Rle.run)
        (offsets : list Z) (header : Header.gfx_aaf_header_t)
        (block width block_height : Z) (scratch : list Z) (swap : bool) :
  block_at pre (rle_block runs) offsets header block ->
  forallb run_byte runs = true ->
  Z.of_nat (length (rle_block runs)) < 2 ^ 32 - 1 ->
  0 <= width * block_height < 2 ^ 32 - 255 ->
  Block.gfx_anim_decode_block gfx_jpeg_decode (pre ++ rle_block runs ++ post)
                              offsets header block scratch width block_height
                              swap
  = Some (Block.mk_result
            (if fits runs (width * block_height) then ESP_OK else ESP_FAIL)
            (write_from 0 (Rle.expand (fitting runs (width * block_height))))
            [])
  /\ in_bounds (width * block_height)
               (write_from 0 (Rle.expand (fitting runs (width * block_height))))
     = true.
Proof.
  intros [Hoff Hlen] Hok Hsize Hcap. split.
  - unfold Block.gfx_anim_decode_block. rewrite Hoff, Hlen, skipn_pre.
    unfold rle_block in *. cbn [length app] in *.
    change (load (0 :: Rle.encode runs ++ post) 0) with (Some 0).
    cbv beta match. cbn [Z.eqb skipn].
    rewrite (sz_small (width * block_height)) by lia.
    replace (sz (Z.of_nat (S (length (Rle.encode runs))) - 1))
      with (Z.of_nat (length (Rle.encode runs)))
      by (rewrite sz_small; lia).
    unfold Rle.gfx_aaf_rle_decode.
    destruct (loop_runs runs [] post
                (S (Z.to_nat (Z.of_nat (length (Rle.encode runs)))))
                (Z.of_nat (length (Rle.encode runs))) (width * block_height)
                0 [] []) as [rd' Hrd']; try (simpl; lia); [assumption| |].
    { rewrite Nat2Z.id, rle_encode_length. lia. }
    change (Z.of_nat (length (@nil Z))) with 0 in Hrd'.
    cbn [app] in Hrd'. rewrite Z.sub_0_r in Hrd'. rewrite Hrd'.
    cbn [Rle.ret Rle.written].
    destruct (fits runs (width * block_height)); reflexivity.
  - apply in_bounds_write_from; [lia|].
    pose proof (fitting_length runs (width * block_height) Hok). lia.
Qed.

(** X5.  A run-length block (tag 0): the block decoder stores in
    [decode_buffer] the expansion of the runs that fit into
    [width * block_height] cells and returns [ESP_OK] exactly when all of
    them fit; nothing is stored outside those cells. *)
Theorem rle_block_decodes (pre post : list Z) (runs : list Rle.run)
        (offsets : list Z) (header : Header.gfx_aaf_header_t)
        (block width block_height : Z) (scratch : list Z) (swap : bool) :
  block_at pre (rle_block runs) offsets header block ->
  forallb run_byte runs = true ->
  Z.of_nat (length (rle_block runs)) < 2 ^ 32 - 1 ->
  0 <= width * block_height < 2 ^ 32 - 255 ->
  Block.gfx_anim_decode_block gfx_jpeg_decode (pre ++ rle_block runs ++ post)
                              offsets header block scratch width block_height
                              swap
  = Some (Block.mk_result
            (if fits runs (width * block_height) then ESP_OK else ESP_FAIL)
            (write_from 0 (Rle.expand (fitting runs (width * block_height))))
            [])
  /\ in_bounds (width * block_height)
               (write_from 0 (Rle.expand (fitting runs (width * block_height))))
     = true.
Proof. apply rle_block_result. Qed.

(** X6.  A Huffman-direct block (tag 3) of a non-empty pixel sequence:
    the block decoder stores the sequence in [decode_buffer] and returns
    [ESP_OK] exactly when its length is [width * block_height]; a
    sequence of any other length, shorter or longer, is stored all the
    same and answered with [ESP_FAIL]. *)
Theorem huffman_direct_block_decodes
        (pre post : list Z) (m : Huffman.mapping) (s : list Z)
        (pad : list bool) (n : nat) (offsets : list Z)
        (header : Header.gfx_aaf_header_t) (block width block_height : Z)
        (scratch : list Z) (swap : bool) :
  block_at pre (huffman_block 3 m s pad) offsets header block ->
  forallb Huffman.entry_ok m = true ->
  Huffman.prefix_free m = true ->
  forallb (Huffman.in_domain m) s = true ->
  (length pad <= 7)%nat ->
  length (Huffman.encode m s ++ pad) = (8 * n)%nat -> (0 < n)%nat ->
  Z.of_nat (length (Huffman.serialize_table (Z.of_nat (length pad)) m))
  < 65536 ->
  Z.of_nat (8 * n) < 2 ^ 32 ->
  0 <= width * block_height < 2 ^ 32 ->
  Block.gfx_anim_decode_block gfx_jpeg_decode
                              (pre ++ huffman_block 3 m s pad ++ post)
                              offsets header block scratch width block_height
                              swap
  = Some (Block.mk_result
            (if Z.of_nat (length s) =? width * block_height
             then ESP_OK else ESP_FAIL)
            (write_from 0 s) []).
Proof.
  intros [Hoff Hlen] Hok Hfree Hdom Hpad Hn Hpos Htable Hbits Hcap.
  unfold Block.gfx_anim_decode_block. rewrite Hoff, Hlen, skipn_pre.
  assert (load (huffman_block 3 m s pad ++ post) 0 = Some 3) as Htag
      by reflexivity.
  rewrite Htag. cbv beta match. cbn [Z.eqb].
  assert (Z.of_nat (length (huffman_block 3 m s pad)) < 2 ^ 32) as Hblk.
  { unfold huffman_block. cbn [length app le16].
    rewrite !length_app, (pack_bits_length n) by assumption. lia. }
  rewrite (sz_small (Z.of_nat _)) by lia.
  rewrite (huffman_wrapper_roundtrip 3 m s pad post n 0) by assumption.
  replace (0 <? Z.of_nat n) with true by (symmetry; apply Z.ltb_lt; lia).
  cbn [Huffman.ret Huffman.output_len Huffman.written].
  rewrite (sz_small (width * block_height)) by lia.
  destruct (Z.of_nat (length s) =? width * block_height); reflexivity.
Qed.

(** X7.  A Huffman block (tag 1) of at least one pixel, whose Huffman
    payload is itself a run-length stream: the two stages compose.  The
    Huffman stage stores all the (count, value) bytes of the stream into
    the scratch buffer of [width * block_height] bytes, whatever their
    number.  A stream of more
    bytes than that has by then been stored past the end of the scratch
    buffer, and only afterwards is the block refused with [ESP_FAIL],
    nothing having gone to [decode_buffer], even when all its runs would
    fit.  Otherwise the run-length stage expands from the scratch buffer
    into [decode_buffer] the runs that fit into [width * block_height]
    cells, and the result is [ESP_OK] exactly when all runs fit. *)
Theorem huffman_rle_block_decodes
        (pre post : list Z) (m : Huffman.mapping) (runs : list Rle.run)
        (pad : list bool) (n : nat) (offsets : list Z)
        (header : Header.gfx_aaf_header_t) (block width block_height : Z)
        (scratch : list Z) (swap : bool) :
  block_at pre (huffman_block 1 m (Rle.encode runs) pad) offsets header block ->
  forallb Huffman.entry_ok m = true ->
  Huffman.prefix_free m = true ->
  forallb run_byte runs = true ->
  forallb (Huffman.in_domain m) (Rle.encode runs) = true ->
  (length pad <= 7)%nat ->
  length (Huffman.encode m (Rle.encode runs) ++ pad) = (8 * n)%nat ->
  Z.of_nat (length (Huffman.serialize_table (Z.of_nat (length pad)) m))
  < 65536 ->
  Z.of_nat (8 * n) < 2 ^ 32 ->
  Z.of_nat (length scratch) = width * block_height ->
  0 < width * block_height < 2 ^ 32 - 255 ->
  Block.gfx_anim_decode_block
    gfx_jpeg_decode
    (pre ++ huffman_block 1 m (Rle.encode runs) pad ++ post)
    offsets header block scratch width block_height swap
  = Some (if 2 * Z.of_nat (length runs) >? width * block_height
          then Block.mk_result ESP_FAIL [] (write_from 0 (Rle.encode runs))
          else
            Block.mk_result
              (if fits runs (width * block_height) then ESP_OK else ESP_FAIL)
              (write_from 0
                          (Rle.expand (fitting runs (width * block_height))))
              (write_from 0 (Rle.encode runs)))
  /\ in_bounds (width * block_height) (write_from 0 (Rle.encode runs))
     = (2 * Z.of_nat (length runs) <=? width * block_height).
Proof.
  intros [Hoff Hlen] Hok Hfree Hruns Hdom Hpad Hn Htable Hbits Hscratch Hcap.
  pose proof (rle_encode_length runs) as Henc.
  split.
  2:{ destruct (Z.leb_spec (2 * Z.of_nat (length runs))
                           (width * block_height)) as [Hle|Hgt].
      - apply write_from_in_bounds; lia.
      - apply write_from_out_of_bounds; lia. }
  unfold Block.gfx_anim_decode_block. rewrite Hoff, Hlen, skipn_pre.
  assert (load (huffman_block 1 m (Rle.encode runs) pad ++ post) 0 = Some 1)
    as Htag by reflexivity.
  rewrite Htag. cbv beta match. cbn [Z.eqb].
  assert (Z.of_nat (length (huffman_block 1 m (Rle.encode runs) pad))
          < 2 ^ 32) as Hblk.
  { unfold huffman_block. cbn [length app le16].
    rewrite !length_app, (pack_bits_length n) by assumption. lia. }
  rewrite (sz_small (Z.of_nat _)) by lia.
  rewrite (huffman_wrapper_roundtrip 1 m (Rle.encode runs) pad post n 0)
    by assumption.
  rewrite (sz_small (width * block_height)) by lia.
  destruct (Z.ltb_spec 0 (Z.of_nat n)) as [Hpos|Hzero];
    cbn [Huffman.ret Huffman.output_len Huffman.written].
  - replace (2 * Z.of_nat (length runs))
      with (Z.of_nat (length (Rle.encode runs))) by lia.
    destruct (Z.gtb_spec (Z.of_nat (length (Rle.encode runs)))
                         (width * block_height)) as [Hgt|Hle];
      [reflexivity|].
    pose proof (apply_write_from (Rle.encode runs) [] scratch ltac:(lia))
      as Hbuf.
    cbn [app length] in Hbuf. change (Z.of_nat 0) with 0 in Hbuf.
    rewrite Hbuf. clear Hbuf.
    unfold Rle.gfx_aaf_rle_decode.
    destruct (loop_runs runs [] (skipn (length (Rle.encode runs)) scratch)
                (S (Z.to_nat (Z.of_nat (length (Rle.encode runs)))))
                (Z.of_nat (length (Rle.encode runs))) (width * block_height)
                0 [] []) as [rd' Hrd']; try (simpl; lia); [assumption|].
    change (Z.of_nat (length (@nil Z))) with 0 in Hrd'.
    cbn [app] in Hrd'. rewrite Z.sub_0_r in Hrd'. rewrite Hrd'.
    cbn [Rle.ret Rle.written].
    destruct (fits runs (width * block_height)); reflexivity.
  - assert (runs = []) as ->.
    { rewrite length_app in Hn.
      assert (Huffman.encode m (Rle.encode runs) = []) as He
          by (destruct (Huffman.encode m (Rle.encode runs));
              [reflexivity | simpl in Hn; lia]).
      apply (encode_nil m _ Hok Hdom) in He.
      destruct runs; [reflexivity | discriminate]. }
    cbn. repeat (zcase; try lia). reflexivity.
Qed.

End BlockFacts.

(** ** Frame header parser *)

Section HeaderFacts.

Import Header Layout HeaderLayout.

Lemma read_block_len_length (n : nat) :
  forall (data : list Z) (i : Z) (lens : list Z),
    read_block_len n data i = Some lens -> length lens = n.
Proof.
  induction n as [|n IH]; intros data i lens; cbn [read_block_len].
  - intros E. now injection E as <-.
  - destruct (load32 data _); [|discriminate].
    destruct (read_block_len n data (i + 1)) as [rest|] eqn:E; [|discriminate].
    intros E'. injection E' as <-. cbn [length]. f_equal. eauto.
Qed.

(** What a header that parses as a split bitmap looks like. *)
Lemma parse_header_sbmp (data : list Z) (h : gfx_aaf_header_t) :
  gfx_aaf_parse_header data = Some (GFX_AAF_FORMAT_SBMP, h) ->
  format h = tag_S
  /\ (bit_depth h = 4 \/ bit_depth h = 8 \/ bit_depth h = 24)
  /\ length (block_len h) = Z.to_nat (blocks h)
  /\ num_colors h = (if bit_depth h =? 24 then 0 else 2 ^ bit_depth h)
  /\ Z.of_nat (length (palette h)) = 4 * num_colors h
  /\ data_offset h = (18 + blocks h * 4 + num_colors h * 4) mod 2 ^ 16
  /\ (bit_depth h <> 24 ->
      18 + blocks h * 4 + num_colors h * 4 <= Z.of_nat (length data)).
Proof.
  unfold gfx_aaf_parse_header.
  destruct (slice data 0 2) as [fmt|] eqn:Efmt; [|discriminate].
  destruct (tag_eqb fmt tag_S) eqn:Etag.
  - assert (fmt = tag_S) as ->.
    { destruct fmt as [|a [|b [|? ?]]]; try discriminate.
      cbn in Etag. apply andb_prop in Etag as [Ha Hb].
      apply Z.eqb_eq in Ha, Hb. now subst. }
    destruct (slice data 3 6) as [ver|]; [|discriminate].
    destruct (load data 9) as [depth|]; [|discriminate].
    destruct (negb _) eqn:Edepth; [discriminate|].
    apply negb_false_iff in Edepth.
    assert (depth = 4 \/ depth = 8 \/ depth = 24) as Hd.
    { apply orb_prop in Edepth as [Edepth|Edepth];
        [apply orb_prop in Edepth as [Edepth|Edepth]|];
        apply Z.eqb_eq in Edepth; auto. }
    destruct (load16 data 10) as [w|]; [|discriminate].
    destruct (load16 data 12) as [ht|]; [|discriminate].
    destruct (load16 data 14) as [nblocks|]; [|discriminate].
    destruct (load16 data 16) as [bh|]; [|discriminate].
    destruct (read_block_len _ data 0) as [lens|] eqn:Elens; [|discriminate].
    apply read_block_len_length in Elens.
    destruct (Z.eqb_spec depth 24) as [E24|Hne].
    + intros E. injection E as <-. subst depth.
      cbn [format bit_depth block_len blocks num_colors palette data_offset
           length].
      refine (conj eq_refl (conj Hd (conj Elens (conj eq_refl
                (conj eq_refl (conj _ _)))))).
      * now rewrite Z.add_0_r.
      * intros H. congruence.
    + destruct (slice data (18 + nblocks * 4) (Z.shiftl 1 depth * 4))
        as [pal|] eqn:Epal; [|discriminate].
      intros E. injection E as <-.
      cbn [format bit_depth block_len blocks num_colors palette data_offset].
      assert (Z.shiftl 1 depth = 2 ^ depth) as Hsh
          by (destruct Hd as [-> | [-> | ->]]; reflexivity).
      rewrite Hsh in *.
      destruct (Z.eqb_spec depth 24) as [|_]; [contradiction|].
      pose proof Epal as Epal'. apply slice_spec in Epal' as [_ Hpl].
      refine (conj eq_refl (conj Hd (conj Elens (conj eq_refl
                (conj _ (conj eq_refl _)))))); [lia|].
      intros _. unfold slice in Epal.
      destruct (Z.ltb_spec (18 + nblocks * 4) 0); [discriminate|].
      destruct (Z.ltb_spec (2 ^ depth * 4) 0); [discriminate|].
      destruct (Z.ltb_spec (Z.of_nat (length data))
                           (18 + nblocks * 4 + 2 ^ depth * 4));
        [discriminate | lia].
  - destruct (tag_eqb fmt tag_R); [|intros E; discriminate].
    destruct (load data 2); [|discriminate].
    destruct (slice data 3 _); discriminate.
Qed.

(** X8.  A header that the parser returns as a split bitmap is
    consistent: the tag is "_S", the bit depth is 4, 8 or 24, there is one
    block length per block, the palette has four bytes for each of the
    [2 ^ bit_depth] colours (none at depth 24), and [data_offset] is the
    end of the header reduced to 16 bits.  A header with a palette was read
    from the first [18 + 4 * blocks + 4 * num_colors] bytes of the memory
    behind [data].  Nothing holds these bytes to the frame: the parser
    never consults [data_len], which is why its model has no such
    argument. *)
Theorem parsed_header_is_consistent (data : list Z) (h : gfx_aaf_header_t) :
  gfx_aaf_parse_header data = Some (GFX_AAF_FORMAT_SBMP, h) ->
  format h = tag_S
  /\ (bit_depth h = 4 \/ bit_depth h = 8 \/ bit_depth h = 24)
  /\ length (block_len h) = Z.to_nat (blocks h)
  /\ num_colors h = (if bit_depth h =? 24 then 0 else 2 ^ bit_depth h)
  /\ Z.of_nat (length (palette h)) = 4 * num_colors h
  /\ data_offset h = (18 + blocks h * 4 + num_colors h * 4) mod 2 ^ 16
  /\ (bit_depth h <> 24 ->
      18 + blocks h * 4 + num_colors h * 4 <= Z.of_nat (length data)).
Proof. apply parse_header_sbmp. Qed.

(** A frame of ten bytes, cut after the bit depth, parses as a split
    bitmap all the same: the geometry comes out of the bytes that follow
    the frame in the container, its width out of the two marker bytes of
    the next frame. *)
Example header_read_past_frame :
  let frame := [95; 83; 0; 0; 0; 0; 0; 0; 0; 24] in
  let next := ContainerLayout.blob [1; 0; 1; 0; 1; 0; 7; 0; 0; 0] in
  exists h,
    gfx_aaf_parse_header (frame ++ next) = Some (GFX_AAF_FORMAT_SBMP, h)
    /\ width h = 23130 /\ blocks h = 1 /\ block_len h = [7]
    /\ Z.of_nat (length frame) < 18 + blocks h * 4.
Proof.
  intros frame next. eexists. split; [reflexivity|].
  cbn. repeat split; lia.
Qed.

(** X9.  A frame whose tag is neither "_S" nor "_R", or whose tag is
    "_S" with a bit depth other than 4, 8 and 24, is answered with
    [GFX_AAF_FORMAT_INVALID], and the header comes back without geometry
    (its width is 0). *)
Theorem bad_header_is_invalid (data fmt : list Z) (depth : Z) :
  slice data 0 2 = Some fmt ->
  (tag_eqb fmt tag_S = false /\ tag_eqb fmt tag_R = false)
  \/ (tag_eqb fmt tag_S = true /\ (exists ver, slice data 3 6 = Some ver)
      /\ load data 9 = Some depth
      /\ depth <> 4 /\ depth <> 8 /\ depth <> 24) ->
  exists h,
    gfx_aaf_parse_header data = Some (GFX_AAF_FORMAT_INVALID, h)
    /\ width h = 0 /\ block_len h = [] /\ palette h = [].
Proof.
  intros Hfmt [[HS HR] | (HS & [ver Hver] & Hdepth & H4 & H8 & H24)];
    unfold gfx_aaf_parse_header; rewrite Hfmt, HS.
  - rewrite HR. eexists. split; [reflexivity|]. repeat split.
  - rewrite Hver, Hdepth.
    destruct (Z.eqb_spec depth 4); [contradiction|].
    destruct (Z.eqb_spec depth 8); [contradiction|].
    destruct (Z.eqb_spec depth 24); [contradiction|].
    cbn [orb negb]. eexists. split; [reflexivity|]. repeat split.
Qed.


Lemma le32_join (x : Z) :
  is_u32 x = true ->
  x mod 256 + 256 * (x / 256 mod 256) + 65536 * (x / 65536 mod 256)
  + 16777216 * (x / 16777216 mod 256) = x.
Proof.
  unfold is_u32. intros H. apply andb_prop in H as [H1 H2].
  assert (0 <= x / 16777216 < 256)
    by (split; [apply Z.div_pos | apply Z.div_lt_upper_bound]; lia).
  rewrite (Z.mod_small (x / 16777216)) by lia.
  pose proof (Z.div_mod x 256 ltac:(lia)).
  pose proof (Z.div_mod (x / 256) 256 ltac:(lia)).
  pose proof (Z.div_mod (x / 256 / 256) 256 ltac:(lia)).
  rewrite !Z.div_div in * by lia.
  change (256 * 256) with 65536 in *. change (65536 * 256) with 16777216 in *.
  lia.
Qed.


(** [slice] on explicit arguments. *)
Lemma slice_at (pre l post : list Z) :
  slice (pre ++ l ++ post) (Z.of_nat (length pre)) (Z.of_nat (length l))
  = Some l.
Proof.
  unfold slice. rewrite !length_app.
  repeat (zcase; try lia). cbn [orb]. f_equal.
  rewrite !Nat2Z.id, skipn_app, skipn_all, Nat.sub_diag. cbn [skipn app].
  rewrite firstn_app, firstn_all, Nat.sub_diag. cbn [firstn].
  apply app_nil_r.
Qed.



End HeaderFacts.

(** ** Block offsets *)

Section OffsetFacts.

Import Header HeaderLayout Container.



End OffsetFacts.

(** ** Container index: what an accepted container guarantees *)

Section ContainerIndex.

Import Header Container.

Lemma entries_loop_spec (n : nat) :
  forall (data : list Z) (total i : Z) (es : list asset_entry_t),
    entries_loop n data total i = Some (inr es) ->
    length es = n
    /\ forall j, (j < n)%nat ->
         exists size offset,
           load32 data (16 + (i + Z.of_nat j) * 8) = Some size
           /\ load32 data (16 + (i + Z.of_nat j) * 8 + 4) = Some offset
           /\ nth_error es j
              = Some (mk_entry (sz (16 + sz (total * 8) + offset))
                               (mk_table_entry size offset))
           /\ load16 data (sz (16 + sz (total * 8) + offset))
              = Some GFX_AAF_MAGIC_HEAD.
Proof.
  induction n as [|n IH]; intros data total i es; cbn [entries_loop].
  - intros E. injection E as <-. split; [reflexivity | lia].
  - unfold GFX_AAF_TABLE_OFFSET.
    destruct (load32 data (16 + i * 8)) as [size|] eqn:Esize; [|discriminate].
    destruct (load32 data (16 + i * 8 + 4)) as [offset|] eqn:Eoff;
      [|discriminate].
    destruct (load16 data _) as [magic|] eqn:Emagic; [|discriminate].
    destruct (Z.eqb_spec magic GFX_AAF_MAGIC_HEAD) as [->|]; cbn [negb];
      [|discriminate].
    destruct (entries_loop n data total (i + 1)) as [[e|rest]|] eqn:Erest;
      try discriminate.
    intros E. injection E as <-.
    destruct (IH _ _ _ _ Erest) as [Hlen Hnth].
    split; [cbn [length]; now f_equal|].
    intros [|j] Hj.
    + exists size, offset. rewrite Z.add_0_r. auto.
    + destruct (Hnth j ltac:(lia)) as (s' & o' & H1 & H2 & H3 & H4).
      exists s', o'.
      replace (i + Z.of_nat (S j)) with (i + 1 + Z.of_nat j) by lia. auto.
Qed.


End ContainerIndex.

(** ** What a render request decodes and renders *)

Section DrawFacts.

Import Header Render Cache Area.

Variable decode_block : Z -> bool -> esp_err_t.

Variables (hdr : gfx_aaf_header_t) (obj_x obj_y : Z).
Variables (clip_object : gfx_area_t) (swap_color : bool).

Lemma event_ok_weaken (lo : Z) (n : nat) (last last' : Z) (e : event) :
  event_ok decode_block hdr obj_x obj_y clip_object swap_color
           (lo + 1) n last' e ->
  last' = last \/ (last' = lo /\ decode_block lo swap_color = ESP_OK) ->
  event_ok decode_block hdr obj_x obj_y clip_object swap_color lo (S n) last e.
Proof.
  destruct e as [b res|b clip]; cbn [event_ok].
  - intros (Hb & Hres & Ht) _. repeat split; try assumption; lia.
  - intros (Hb & Hc & Hclip & Ht) Hlast.
    repeat split; try assumption; try lia.
    destruct Hc as [->|Hok]; [|now right].
    destruct Hlast as [->|[-> _]]; [now left | lia].
Qed.

Lemma blocks_loop_trace (n : nat) :
  forall (block last : Z) (trace : list event),
    exists added,
      snd (blocks_loop decode_block n hdr obj_x obj_y clip_object swap_color
                       block last trace) = trace ++ added
      /\ (forall e, In e added ->
            event_ok decode_block hdr obj_x obj_y clip_object swap_color
                     block n last e)
      /\ (forall b, block <= b < block + Z.of_nat n ->
            touches hdr obj_x obj_y clip_object b = true ->
            has_renderer hdr = true ->
            decode_block b swap_color = ESP_OK ->
            In (Rendered b (clip_of_block hdr obj_x obj_y clip_object b))
               added)
      /\ (let last' :=
            fst (blocks_loop decode_block n hdr obj_x obj_y clip_object
                             swap_color block last trace) in
          last' = last \/ In (Decoded last' ESP_OK) added).
Proof.
  induction n as [|n IH]; intros block last trace.
  - exists []. cbn [blocks_loop fst snd]. rewrite app_nil_r.
    repeat split; [intros e []| intros; lia | now left].
  - cbn [blocks_loop]. fold (has_renderer hdr).
    destruct (touches hdr obj_x obj_y clip_object block) eqn:Et; cbn [negb].
    2:{ destruct (IH (block + 1) last trace) as (added & E & Hok & Hin & Hl).
        exists added. repeat split; try assumption.
        - intros e He. apply (event_ok_weaken block n last last);
            [now apply Hok | now left].
        - intros b Hb Htb Hr Hd.
          destruct (Z.eq_dec b block) as [->|]; [congruence|].
          apply Hin; try assumption; lia. }
    destruct (Z.eqb_spec block last) as [Elast|Elast]; cbn [negb].
    + (* the cached block *)
      destruct (has_renderer hdr) eqn:Er.
      * destruct (IH (block + 1) last
                     (trace ++ [Rendered block
                        (clip_of_block hdr obj_x obj_y clip_object block)]))
          as (added & E & Hok & Hin & Hl).
        exists (Rendered block
                  (clip_of_block hdr obj_x obj_y clip_object block) :: added).
        rewrite E. split; [now rewrite <- ?app_assoc|]. repeat split.
        -- intros e [<-|He].
           ++ cbn [event_ok]. repeat split; auto; lia.
           ++ apply (event_ok_weaken block n last last);
                [now apply Hok | now left].
        -- intros b Hb Htb Hr Hd.
           destruct (Z.eq_dec b block) as [->|]; [now left|].
           right. apply Hin; try assumption; lia.
        -- cbn zeta in *. destruct Hl as [Hl|Hl]; [now left | right; now right].
      * destruct (IH (block + 1) last trace) as (added & E & Hok & Hin & Hl).
        exists added. repeat split; try assumption.
        -- intros e He. apply (event_ok_weaken block n last last);
             [now apply Hok | now left].
        -- intros b Hb Htb Hr Hd. discriminate.
    + destruct (decode_block block swap_color) eqn:Ed.
      * (* the decode succeeds *)
        destruct (has_renderer hdr) eqn:Er.
        -- destruct (IH (block + 1) block
                        ((trace ++ [Decoded block ESP_OK])
                           ++ [Rendered block
                                 (clip_of_block hdr obj_x obj_y clip_object
                                                block)]))
             as (added & E & Hok & Hin & Hl).
           exists (Decoded block ESP_OK
                     :: Rendered block
                          (clip_of_block hdr obj_x obj_y clip_object block)
                     :: added).
           rewrite E. split; [now rewrite <- ?app_assoc|]. repeat split.
           ++ intros e [<-|[<-|He]].
              ** cbn [event_ok]. repeat split; auto; lia.
              ** cbn [event_ok]. repeat split; auto; lia.
              ** apply (event_ok_weaken block n last block);
                   [now apply Hok | right; now split].
           ++ intros b Hb Htb Hr Hd.
              destruct (Z.eq_dec b block) as [->|]; [right; now left|].
              right. right. apply Hin; try assumption; lia.
           ++ cbn zeta in *.
              destruct Hl as [Hl|Hl];
                [right; rewrite Hl; now left | right; right; now right].
        -- destruct (IH (block + 1) block (trace ++ [Decoded block ESP_OK]))
             as (added & E & Hok & Hin & Hl).
           exists (Decoded block ESP_OK :: added).
           rewrite E. split; [now rewrite <- ?app_assoc|]. repeat split.
           ++ intros e [<-|He].
              ** cbn [event_ok]. repeat split; auto; lia.
              ** apply (event_ok_weaken block n last block);
                   [now apply Hok | right; now split].
           ++ intros b Hb Htb Hr Hd. discriminate.
           ++ cbn zeta in *.
              destruct Hl as [Hl|Hl];
                [right; rewrite Hl; now left | right; now right].
      * destruct (IH (block + 1) last (trace ++ [Decoded block ESP_FAIL]))
          as (added & E & Hok & Hin & Hl).
        exists (Decoded block ESP_FAIL :: added).
        rewrite E. split; [now rewrite <- ?app_assoc|]. repeat split.
        -- intros e [<-|He].
           ++ cbn [event_ok]. repeat split; auto; lia.
           ++ apply (event_ok_weaken block n last last);
                [now apply Hok | now left].
        -- intros b Hb Htb Hr Hd.
           destruct (Z.eq_dec b block) as [->|]; [congruence|].
           right. apply Hin; try assumption; lia.
        -- cbn zeta in *. destruct Hl as [Hl|Hl]; [now left | right; now right].
      * destruct (IH (block + 1) last (trace ++ [Decoded block ESP_ERR_NO_MEM]))
          as (added & E & Hok & Hin & Hl).
        exists (Decoded block ESP_ERR_NO_MEM :: added).
        rewrite E. split; [now rewrite <- ?app_assoc|]. repeat split.
        -- intros e [<-|He].
           ++ cbn [event_ok]. repeat split; auto; lia.
           ++ apply (event_ok_weaken block n last last);
                [now apply Hok | now left].
        -- intros b Hb Htb Hr Hd.
           destruct (Z.eq_dec b block) as [->|]; [congruence|].
           right. apply Hin; try assumption; lia.
        -- cbn zeta in *. destruct Hl as [Hl|Hl]; [now left | right; now right].
      * destruct (IH (block + 1) last
                     (trace ++ [Decoded block ESP_ERR_INVALID_CRC]))
          as (added & E & Hok & Hin & Hl).
        exists (Decoded block ESP_ERR_INVALID_CRC :: added).
        rewrite E. split; [now rewrite <- ?app_assoc|]. repeat split.
        -- intros e [<-|He].
           ++ cbn [event_ok]. repeat split; auto; lia.
           ++ apply (event_ok_weaken block n last last);
                [now apply Hok | now left].
        -- intros b Hb Htb Hr Hd.
           destruct (Z.eq_dec b block) as [->|]; [congruence|].
           right. apply Hin; try assumption; lia.
        -- cbn zeta in *. destruct Hl as [Hl|Hl]; [now left | right; now right].
Qed.

End DrawFacts.

Section DrawRequests.

Import Header Render Cache Area.

Variable decode_block : Z -> bool -> esp_err_t.

(** A request that gets to the block loop. *)
Lemma draw_runs_blocks_loop (frame : gfx_anim_frame_info_t) (obj_x obj_y : Z)
      (req : gfx_area_t) (swap_color : bool) :
  let hdr := header frame in
  let clip_object := clip_of_request hdr obj_x obj_y req in
  let r :=
    blocks_loop decode_block (Z.to_nat (blocks hdr)) hdr obj_x obj_y
                clip_object swap_color 0 (last_block frame) [] in
  gfx_draw_animation decode_block frame obj_x obj_y req swap_color
  = (frame, [])
  \/ (bound frame = true
      /\ nonempty clip_object
      /\ gfx_draw_animation decode_block frame obj_x obj_y req swap_color
         = (mk_frame hdr (frame_data frame) (block_offsets frame)
                     (pixel_buffer frame) (fst r), snd r)).
Proof.
  intros hdr clip_object r. unfold gfx_draw_animation, bound.
  fold hdr. fold clip_object.
  destruct (frame_data frame); cbn [negb andb]; [|now left].
  destruct (width hdr =? 0); cbn [negb andb]; [now left|].
  destruct (block_offsets frame); cbn [negb andb orb]; [|now left].
  destruct (pixel_buffer frame); cbn [negb andb orb]; [|now left].
  destruct (x1 clip_object >=? x2 clip_object) eqn:Ex; cbn [orb]; [now left|].
  destruct (y1 clip_object >=? y2 clip_object) eqn:Ey; [now left|].
  right. rewrite Z.geb_leb, Z.leb_gt in Ex, Ey.
  repeat split; assumption.
Qed.

(** The clip rectangle of a block the request touches has a pixel, lies
    in the request and begins in the rows and columns of the block. *)
Lemma touches_clip_geometry (hdr : gfx_aaf_header_t) (obj_x obj_y : Z)
      (req : gfx_area_t) (b : Z) :
  let clip_object := clip_of_request hdr obj_x obj_y req in
  let clip := clip_of_block hdr obj_x obj_y clip_object b in
  touches hdr obj_x obj_y clip_object b = true ->
  nonempty clip /\ inside clip req
  /\ covers (block_box hdr obj_x obj_y b) (x1 clip) (y1 clip).
Proof.
  intros clip_object clip Ht. subst clip.
  unfold touches in Ht. apply andb_prop in Ht as [H1 H2].
  apply negb_true_iff, orb_false_iff in H1 as [Hx Hy].
  apply negb_true_iff in H2. repeat (apply orb_false_iff in H2 as [H2 ?]).
  rewrite Z.geb_leb, Z.leb_gt in *. rewrite Z.ltb_ge in *.
  revert Hx Hy H H0 H1 H2.
  unfold nonempty, inside, covers, block_box, clip_of_block, clip_object,
    clip_of_request.
  cbn [x1 y1 x2 y2]. intros. lia.
Qed.

(** On a bound frame whose blocks tile its rows, a pixel of the request
    that lies on the object is in the clip rectangle of the block of its
    row, [(y - obj_y) / block_height], which is rendered when it decodes
    with [ESP_OK], and in no other rendered rectangle of the call. *)
Lemma request_pixel_rendered_once
        (frame : gfx_anim_frame_info_t) (obj_x obj_y : Z)
        (req : gfx_area_t) (swap_color : bool) (x y : Z) :
  let hdr := header frame in
  let b := (y - obj_y) / block_height hdr in
  let trace :=
    snd (gfx_draw_animation decode_block frame obj_x obj_y req swap_color) in
  bound frame = true ->
  tiled hdr ->
  has_renderer hdr = true ->
  decode_block b swap_color = ESP_OK ->
  covers req x y ->
  covers (mk_area obj_x obj_y (obj_x + width hdr) (obj_y + height hdr)) x y ->
  (exists clip, In (Rendered b clip) trace /\ covers clip x y)
  /\ forall b' clip',
       In (Rendered b' clip') trace -> covers clip' x y -> b' = b.
Proof.
  intros hdr b trace Hbound (Hbh & Hblocks & Hheight) Hdepth Hdec
         (Hrx & Hry) (Hox & Hoy).
  cbn [x1 y1 x2 y2] in Hox, Hoy.
  assert (Hdiv : block_height hdr * b <= y - obj_y
                 < block_height hdr * (b + 1)).
  { split; [apply Z.mul_div_le; lia | apply Z.mul_succ_div_gt; lia]. }
  assert (Hb : 0 <= b < blocks hdr) by nia.
  set (clip_object := clip_of_request hdr obj_x obj_y req).
  assert (Hcov : covers (clip_of_block hdr obj_x obj_y clip_object b) x y).
  { unfold covers, clip_of_block, clip_object, clip_of_request.
    cbn [x1 y1 x2 y2]. destruct (Z.eqb_spec b (blocks hdr - 1)); nia. }
  assert (Ht : touches hdr obj_x obj_y clip_object b = true).
  { unfold touches. destruct Hcov as [Hcx Hcy].
    assert (Hy2 : y2 (clip_of_block hdr obj_x obj_y clip_object b)
                  <= (b + 1) * block_height hdr + obj_y).
    { unfold clip_of_block. cbn [y2].
      destruct (Z.eqb_spec b (blocks hdr - 1)); nia. }
    revert Hcx Hcy Hy2. unfold clip_of_block at 1 2 3 4 5.
    unfold clip_of_block, clip_object, clip_of_request.
    cbn [x1 y1 x2 y2]. intros.
    apply andb_true_intro. split; apply negb_true_iff;
      repeat (apply orb_false_iff; split);
      rewrite ?Z.geb_leb, ?Z.leb_gt, ?Z.ltb_ge; nia. }
  subst trace.
  destruct (draw_runs_blocks_loop frame obj_x obj_y req swap_color)
    as [E|(_ & _ & E)].
  { exfalso. revert E. unfold gfx_draw_animation.
    unfold bound in Hbound. fold hdr in Hbound |- *.
    apply andb_prop in Hbound as [Hbound ->].
    apply andb_prop in Hbound as [Hbound ->].
    apply andb_prop in Hbound as [-> Hw]. apply negb_true_iff in Hw.
    rewrite Hw. cbn [negb orb].
    pose proof (touches_clip_nonempty _ _ _ _ _ Ht) as Hne.
    fold clip_object. rewrite Hne.
    destruct (blocks_loop_trace decode_block hdr obj_x obj_y clip_object
                                swap_color (Z.to_nat (blocks hdr)) 0
                                (last_block frame) [])
      as (added & Etr & _ & Hin & _).
    intros E. injection E as _ E. rewrite Etr in E. cbn [app] in E.
    specialize (Hin b ltac:(lia) Ht Hdepth Hdec). rewrite E in Hin.
    destruct Hin. }
  rewrite E. cbn [snd]. fold hdr. fold clip_object.
  destruct (blocks_loop_trace decode_block hdr obj_x obj_y clip_object
                              swap_color (Z.to_nat (blocks hdr)) 0
                              (last_block frame) [])
    as (added & Etr & Hok & Hin & _).
  rewrite Etr. cbn [app]. split.
  - eexists. split; [apply Hin; try assumption; lia | exact Hcov].
  - intros b' clip' Hin' Hcov'.
    destruct (Hok _ Hin') as (Hb' & _ & -> & _).
    destruct Hcov' as [_ Hcy]. revert Hcy.
    unfold clip_of_block. cbn [y1 y2]. intros Hcy.
    assert (block_height hdr * b' <= y - obj_y
            < block_height hdr * (b' + 1))
      by (destruct (Z.eqb_spec b' (blocks hdr - 1)); nia).
    nia.
Qed.

End DrawRequests.

(** ** What a render request reads from the pixel buffer *)

Section PixelLoop.

Import Header Render Area Pixels.

Variable decode_block : Z -> bool -> esp_err_t * stores.

Variables (hdr : gfx_aaf_header_t) (obj_x obj_y : Z).
Variables (clip_object : gfx_area_t) (swap_color : bool).

Lemma stores_of_app (t1 t2 : list event) :
  stores_of (t1 ++ t2) = stores_of t1 ++ stores_of t2.
Proof. apply flat_map_app. Qed.

Lemma apply_stores_app (buf : list Z) (l1 l2 : stores) :
  apply_stores buf (l1 ++ l2) = apply_stores (apply_stores buf l1) l2.
Proof. apply fold_left_app. Qed.

Lemma stores_of_no_decode (trace : list event) :
  (forall b res out, ~ In (Decoded b res out) trace) -> stores_of trace = [].
Proof.
  induction trace as [|e trace IH]; intros H; [reflexivity|].
  destruct e as [b res out|b clip source].
  - exfalso. apply (H b res out). now left.
  - cbn. apply IH. intros b' res out Hin. apply (H b' res out). now right.
Qed.

(** One iteration of the loop. *)
Lemma block_step_spec (block last : Z) (buf : list Z) :
  let r := block_step decode_block hdr obj_x obj_y clip_object swap_color
                      block last buf in
  snd (fst r) = apply_stores buf (stores_of (snd r))
  /\ (forall before e after,
        snd r = before ++ e :: after ->
        event_at decode_block hdr obj_x obj_y clip_object swap_color
                 block 1 last buf before e)
  /\ ((fst (fst r) = last
       /\ forall b' res out,
            In (Decoded b' res out) (snd r) ->
            b' = block /\ decode_block b' swap_color = (res, out)
            /\ res <> ESP_OK)
      \/ (fst (fst r) = block /\ block <> last
          /\ exists out, In (Decoded block ESP_OK out) (snd r))).
Proof.
  unfold block_step. fold (has_renderer hdr).
  destruct (Cache.touches hdr obj_x obj_y clip_object block) eqn:Et;
    cbn [negb].
  2:{ cbn. split; [reflexivity|]. split.
      - intros [|e1 l1] e0 after E; discriminate.
      - left. split; [reflexivity|]. intros ? ? ? []. }
  destruct (Z.eqb_spec block last) as [Elast|Elast]; cbn [negb].
  - (* the cached block *)
    destruct (has_renderer hdr); cbn [fst snd]; cbn [stores_of flat_map app].
    + split; [reflexivity|]. split.
      * intros [|e1 [|e2 l2]] e0 after E; try discriminate.
        injection E as <- <-. cbn [event_at stores_of flat_map].
        repeat split; try lia; try assumption; try reflexivity.
        right. split; [assumption|]. intros ? ? ? [].
      * left. split; [reflexivity|].
        intros ? ? ? [E|[]]. discriminate.
    + split; [reflexivity|]. split.
      * intros [|e1 l1] e0 after E; discriminate.
      * left. split; [reflexivity|]. intros ? ? ? [].
  - destruct (decode_block block swap_color) as [res out] eqn:Ed.
    assert (Hfail :
              res <> ESP_OK ->
              let r := (last, apply_stores buf out, [Decoded block res out]) in
              snd (fst r) = apply_stores buf (stores_of (snd r))
              /\ (forall before e after,
                    snd r = before ++ e :: after ->
                    event_at decode_block hdr obj_x obj_y clip_object
                             swap_color block 1 last buf before e)
              /\ ((fst (fst r) = last
                   /\ forall b' res' out',
                        In (Decoded b' res' out') (snd r) ->
                        b' = block
                        /\ decode_block b' swap_color = (res', out')
                        /\ res' <> ESP_OK)
                  \/ (fst (fst r) = block /\ block <> last
                      /\ exists out', In (Decoded block ESP_OK out') (snd r)))).
    { intros Hres. cbn [fst snd stores_of flat_map app].
      rewrite app_nil_r. split; [reflexivity|]. split.
      - intros [|e1 [|e2 l2]] e0 after E; try discriminate.
        injection E as <- <-. cbn [event_at].
        repeat split; try lia; assumption.
      - left. split; [reflexivity|].
        intros b' res' out' [E|[]]. injection E as <- <- <-.
        repeat split; assumption. }
    destruct res; try (apply Hfail; discriminate). clear Hfail.
    destruct (has_renderer hdr); cbn [fst snd stores_of flat_map app];
      rewrite ?app_nil_r.
    + split; [reflexivity|]. split.
      * intros [|e1 [|e2 [|e3 l3]]] e0 after E; try discriminate.
        -- injection E as <- <-. cbn [event_at].
           repeat split; try lia; assumption.
        -- injection E as <- <- <-.
           cbn [event_at stores_of flat_map app]. rewrite app_nil_r.
           repeat split; try lia; try assumption; try reflexivity.
           left. exists [], out. reflexivity.
      * right. repeat split; try assumption. exists out. now left.
    + split; [reflexivity|]. split.
      * intros [|e1 [|e2 l2]] e0 after E; try discriminate.
        injection E as <- <-. cbn [event_at].
        repeat split; try lia; assumption.
      * right. repeat split; try assumption. exists out. now left.
Qed.

Lemma event_at_widen (lo : Z) (n : nat) (last : Z) (buf : list Z)
      (before : list event) (e : event) :
  event_at decode_block hdr obj_x obj_y clip_object swap_color
           lo 1 last buf before e ->
  event_at decode_block hdr obj_x obj_y clip_object swap_color
           lo (S n) last buf before e.
Proof.
  destruct e as [b res out|b clip source]; cbn [event_at].
  - intros (Hb & Ht & Hd). repeat split; try assumption; lia.
  - intros (Hb & Ht & Hc & Hs & Hfrom).
    repeat split; try assumption; lia.
Qed.

Lemma event_at_shift (lo : Z) (n : nat) (last last2 : Z) (buf buf2 : list Z)
      (prefix before : list event) (e : event) :
  event_at decode_block hdr obj_x obj_y clip_object swap_color
           (lo + 1) n last2 buf2 before e ->
  buf2 = apply_stores buf (stores_of prefix) ->
  (last2 = last
   /\ forall b' res out,
        In (Decoded b' res out) prefix ->
        b' = lo /\ decode_block b' swap_color = (res, out) /\ res <> ESP_OK)
  \/ last2 = lo ->
  event_at decode_block hdr obj_x obj_y clip_object swap_color
           lo (S n) last buf (prefix ++ before) e.
Proof.
  destruct e as [b res out|b clip source]; cbn [event_at].
  - intros (Hb & Ht & Hd) _ _. repeat split; try assumption; lia.
  - intros (Hb & Ht & Hc & Hs & Hfrom) -> Hcarry.
    split; [lia|]. split; [assumption|]. split; [assumption|].
    split; [now rewrite stores_of_app, apply_stores_app|].
    destruct Hfrom as [(before' & out & ->)|[Hlast Hall]].
    + left. exists (prefix ++ before'), out. now rewrite app_assoc.
    + destruct Hcarry as [[-> Hprefix]| ->]; [|lia].
      right. split; [assumption|].
      intros b' res out Hin. apply in_app_or in Hin as [Hin|Hin].
      * destruct (Hprefix _ _ _ Hin) as (-> & Hd & Hres).
        repeat split; try assumption; lia.
      * destruct (Hall _ _ _ Hin) as (Hb' & Hd & Hres).
        repeat split; try assumption; lia.
Qed.

(** The whole loop: the trace grows, the buffer takes the stores of all
    decodes, and every event is as [event_at] says. *)
Lemma blocks_loop_events (n : nat) :
  forall (block last : Z) (buf : list Z) (trace : list event),
    let r := blocks_loop decode_block n hdr obj_x obj_y clip_object
                         swap_color block last buf trace in
    exists added,
      snd r = trace ++ added
      /\ snd (fst r) = apply_stores buf (stores_of added)
      /\ (fst (fst r) = last
          \/ exists out, In (Decoded (fst (fst r)) ESP_OK out) added)
      /\ forall before e after,
           added = before ++ e :: after ->
           event_at decode_block hdr obj_x obj_y clip_object swap_color
                    block n last buf before e.
Proof.
  induction n as [|n IH]; intros block last buf trace; cbn zeta.
  - exists []. cbn [blocks_loop fst snd stores_of flat_map apply_stores
                               fold_left].
    rewrite app_nil_r. repeat split; [now left|].
    intros [|e1 l1] e0 after E; discriminate.
  - cbn [blocks_loop].
    pose proof (block_step_spec block last buf) as Hstep. cbn zeta in Hstep.
    destruct (block_step decode_block hdr obj_x obj_y clip_object swap_color
                         block last buf) as [[last2 buf2] events].
    cbn [fst snd] in Hstep. destruct Hstep as (Hbuf & Hev & Hcarry).
    destruct (IH (block + 1) last2 buf2 (trace ++ events))
      as (added & Etr & Ebuf & Elast & Hall).
    exists (events ++ added).
    split; [now rewrite Etr, app_assoc|].
    split; [now rewrite Ebuf, Hbuf, stores_of_app, apply_stores_app|].
    split.
    + destruct Elast as [-> |(out & Hin)].
      * destruct Hcarry as [[-> _]|(-> & _ & out & Hin)]; [now left|].
        right. exists out. apply in_or_app. now left.
      * right. exists out. apply in_or_app. now right.
    + intros before e after E.
      apply app_eq_app in E as [l [[E1 E2]|[E1 E2]]].
      * destruct l as [|e' l].
        -- rewrite app_nil_r in E1. subst events. cbn [app] in E2.
           rewrite <- (app_nil_r before).
           apply (event_at_shift block n last last2 buf buf2 before [] e).
           ++ apply (Hall [] e after). now rewrite <- E2.
           ++ exact Hbuf.
           ++ destruct Hcarry as [[? ?]|(? & _)]; [left; now split | now right].
        -- injection E2 as <- E2. subst events.
           apply event_at_widen. apply (Hev before e l). reflexivity.
      * subst before.
        apply (event_at_shift block n last last2 buf buf2 events l e).
        -- apply (Hall l e after). exact E2.
        -- exact Hbuf.
        -- destruct Hcarry as [[? ?]|(? & _)]; [left; now split | now right].
Qed.

(** Without the bytes, the loop is the loop of the decode cache. *)
Lemma blocks_loop_erase (n : nat) :
  forall (block last : Z) (buf : list Z) (trace : list event),
    let r := blocks_loop decode_block n hdr obj_x obj_y clip_object
                         swap_color block last buf trace in
    Cache.blocks_loop (fun b swap => fst (decode_block b swap)) n hdr
                      obj_x obj_y clip_object swap_color block last
                      (map erase_event trace)
    = (fst (fst r), map erase_event (snd r)).
Proof.
  induction n as [|n IH]; intros block last buf trace; cbn zeta;
    [reflexivity|].
  cbn [blocks_loop Cache.blocks_loop]. unfold block_step.
  destruct (Cache.touches hdr obj_x obj_y clip_object block); cbn [negb].
  2:{ rewrite app_nil_r. apply IH. }
  destruct (block =? last); cbn [negb].
  - destruct ((bit_depth hdr =? 4) || (bit_depth hdr =? 8)
              || (bit_depth hdr =? 24)).
    + rewrite <- IH. now rewrite map_app.
    + rewrite app_nil_r. apply IH.
  - destruct (decode_block block swap_color) as [res out]. cbn [fst].
    destruct res; try (rewrite <- IH; now rewrite map_app).
    destruct ((bit_depth hdr =? 4) || (bit_depth hdr =? 8)
              || (bit_depth hdr =? 24)).
    + rewrite <- IH. rewrite !map_app. cbn [map erase_event].
      now rewrite <- app_assoc.
    + rewrite <- IH. now rewrite map_app.
Qed.

End PixelLoop.

Section PixelRequests.

Import Header Render Area Pixels.

Variable decode_block : Z -> bool -> esp_err_t * stores.

(** A request that gets to the block loop. *)
Lemma draw_runs_pixel_loop (frame : gfx_anim_frame_info_t) (obj_x obj_y : Z)
      (req : gfx_area_t) (swap_color : bool) :
  let hdr := header frame in
  let clip_object := Cache.clip_of_request hdr obj_x obj_y req in
  gfx_draw_animation decode_block frame obj_x obj_y req swap_color
  = (frame, [])
  \/ exists buffer,
       bound frame = true
       /\ pixel_buffer frame = Some buffer
       /\ nonempty clip_object
       /\ let r :=
            blocks_loop decode_block (Z.to_nat (blocks hdr)) hdr obj_x obj_y
                        clip_object swap_color 0 (last_block frame) buffer []
          in
          gfx_draw_animation decode_block frame obj_x obj_y req swap_color
          = (mk_frame hdr (frame_data frame) (block_offsets frame)
                      (Some (snd (fst r))) (fst (fst r)), snd r).
Proof.
  intros hdr clip_object.
  unfold gfx_draw_animation, bound, Cache.bound, erase.
  cbn [Cache.frame_data Cache.header Cache.block_offsets Cache.pixel_buffer].
  fold hdr. fold clip_object.
  destruct (frame_data frame); cbn [negb andb]; [|now left].
  destruct (width hdr =? 0); cbn [negb andb]; [now left|].
  destruct (pixel_buffer frame) as [buffer|]; [|now left].
  destruct (block_offsets frame); cbn [negb andb]; [|now left].
  destruct (x1 clip_object >=? x2 clip_object) eqn:Ex; cbn [orb]; [now left|].
  destruct (y1 clip_object >=? y2 clip_object) eqn:Ey; [now left|].
  right. exists buffer. rewrite Z.geb_leb, Z.leb_gt in Ex, Ey.
  split; [reflexivity|]. split; [reflexivity|]. split; [now split|].
  cbn zeta.
  destruct (blocks_loop _ _ _ _ _ _ _ _ _ _ _) as [[last buffer'] trace].
  reflexivity.
Qed.

Lemma draw_unbound (frame : gfx_anim_frame_info_t) (obj_x obj_y : Z)
      (req : gfx_area_t) (swap_color : bool) :
  bound frame = false ->
  gfx_draw_animation decode_block frame obj_x obj_y req swap_color
  = (frame, []).
Proof.
  intros Hf.
  destruct (draw_runs_pixel_loop frame obj_x obj_y req swap_color)
    as [E|(buffer & Hb & _)]; [exact E | congruence].
Qed.

(** Without the bytes, a request is the request of the decode cache: the
    same decodes with the same results, the same rendered blocks, the same
    cached block. *)
Lemma draw_erase (frame : gfx_anim_frame_info_t) (obj_x obj_y : Z)
      (req : gfx_area_t) (swap_color : bool) :
  let r := gfx_draw_animation decode_block frame obj_x obj_y req swap_color in
  Cache.gfx_draw_animation (fun b swap => fst (decode_block b swap))
                           (erase frame) obj_x obj_y req swap_color
  = (erase (fst r), map erase_event (snd r)).
Proof.
  destruct frame as [hdr data offsets [buffer|] last]; cbn zeta;
    unfold gfx_draw_animation, Cache.gfx_draw_animation, erase;
    cbn [header frame_data block_offsets pixel_buffer last_block
         Cache.frame_data Cache.header Cache.block_offsets Cache.pixel_buffer
         Cache.last_block].
  2:{ destruct data; cbn [negb]; [|reflexivity].
      destruct (width hdr =? 0); [reflexivity|].
      now rewrite orb_true_r. }
  destruct data; cbn [negb]; [|reflexivity].
  destruct (width hdr =? 0); [reflexivity|].
  rewrite orb_false_r.
  destruct offsets; cbn [negb]; [|reflexivity].
  destruct ((x1 _ >=? x2 _) || (y1 _ >=? y2 _)); [reflexivity|].
  pose proof (blocks_loop_erase decode_block hdr obj_x obj_y
                (Cache.clip_of_request hdr obj_x obj_y req)
                swap_color (Z.to_nat (blocks hdr)) 0 last buffer []) as E.
  cbn zeta in E. cbn [map] in E. rewrite E.
  destruct (blocks_loop _ _ _ _ _ _ _ _ _ _ _) as [[last' buffer'] trace].
  reflexivity.
Qed.

(** X13.  What one call of [gfx_draw_animation] does to the frame and what
    it hands to the renderers.  It does not rebind the frame: the header is
    as before, and the frame data and the block offsets are there or [NULL]
    as before; on a frame that is not bound it does nothing.  It does write
    to the pixel buffer: after the call the buffer holds what it held
    before with the stores of every block decode of the call laid over it
    in order, those of the decodes that failed included (a store outside
    the buffer is a memory error and changes none of its bytes).
    The cached block after the call is the one before it or a block decoded
    with [ESP_OK] in this call.  Every decode is of a block of the frame
    that the request touches.  Every block handed to a renderer is rendered
    in a clip rectangle that has a pixel, lies in the request and begins in
    the rows and columns of the block, and it is read from the pixel buffer
    with the stores of all the decodes made so far in the call.  That block
    is either the one just decoded with [ESP_OK], or the block that was
    cached when the call began; in the second case every decode made so far
    in the call was of an earlier block and has failed, and the cached block
    is rendered with the stores of those failed decodes in it. *)
Theorem draw_renders_decoded_blocks
        (frame : gfx_anim_frame_info_t) (obj_x obj_y : Z)
        (req : gfx_area_t) (swap_color : bool) :
  let r := gfx_draw_animation decode_block frame obj_x obj_y req swap_color in
  let hdr := header frame in
  let clip_object := Cache.clip_of_request hdr obj_x obj_y req in
  (header (fst r) = hdr /\ frame_data (fst r) = frame_data frame
   /\ block_offsets (fst r) = block_offsets frame)
  /\ (bound frame = false -> r = (frame, []))
  /\ pixel_buffer (fst r)
     = option_map (fun buffer => apply_stores buffer (stores_of (snd r)))
                  (pixel_buffer frame)
  /\ (last_block (fst r) = last_block frame
      \/ exists out, In (Decoded (last_block (fst r)) ESP_OK out) (snd r))
  /\ forall before e after,
       snd r = before ++ e :: after ->
       exists buffer,
         pixel_buffer frame = Some buffer
         /\ event_at decode_block hdr obj_x obj_y clip_object swap_color
                     0 (Z.to_nat (blocks hdr)) (last_block frame) buffer
                     before e
         /\ match e with
            | Decoded _ _ _ => True
            | Rendered b clip _ =>
              nonempty clip /\ inside clip req
              /\ covers (block_box hdr obj_x obj_y b) (x1 clip) (y1 clip)
            end.
Proof.
  intros r hdr clip_object.
  split; [|split; [apply draw_unbound|]].
  all: destruct (draw_runs_pixel_loop frame obj_x obj_y req swap_color)
    as [E|(buffer & Hb & Hp & Hne & E)]; fold r in E; rewrite E;
    cbn [fst snd].
  - repeat split.
  - cbn zeta. cbn [header frame_data block_offsets]. repeat split.
  - split; [|split; [now left|]].
    + destruct (pixel_buffer frame); reflexivity.
    + intros [|e1 l1] e after E'; discriminate.
  - fold hdr in E |- *. fold clip_object in E |- *. cbn zeta in E |- *.
    destruct (blocks_loop_events decode_block hdr obj_x obj_y clip_object
                                 swap_color (Z.to_nat (blocks hdr)) 0
                                 (last_block frame) buffer [])
      as (added & Etr & Ebuf & Elast & Hall).
    cbn zeta in Etr, Ebuf, Elast. cbn [app] in Etr.
    cbn [pixel_buffer last_block]. rewrite Etr, Ebuf, Hp.
    split; [reflexivity|]. split; [exact Elast|].
    intros before e after E'. exists buffer. split; [reflexivity|].
    pose proof (Hall before e after E') as Hev. split; [exact Hev|].
    destruct e as [b res out|b clip source]; [exact I|].
    destruct Hev as (_ & Ht & -> & _).
    now apply touches_clip_geometry.
Qed.

(** X14.  On a bound frame whose blocks tile its rows, take a pixel of
    the request that lies on the object, and let [b] be the block of its
    row, [(y - obj_y) / block_height].  Provided that [b] and every block
    before it decode with [ESP_OK], block [b] is rendered in a rectangle
    that contains the pixel, and no other rendered rectangle of the call
    contains it.  The renderer reads the pixel buffer with the stores of
    the decodes made so far in the call: the last of them are those of the
    decode of [b] itself, or else [b] is the block that was cached when the
    call began and the buffer is as the call found it.  Without the proviso
    on the blocks before [b] the property fails (X13): a cached [b] is then
    rendered with the stores of the failed decodes in it. *)
Theorem draw_covers_request
        (frame : gfx_anim_frame_info_t) (obj_x obj_y : Z)
        (req : gfx_area_t) (swap_color : bool) (x y : Z)
        (buffer : list Z) :
  let hdr := header frame in
  let b := (y - obj_y) / block_height hdr in
  let trace :=
    snd (gfx_draw_animation decode_block frame obj_x obj_y req swap_color) in
  bound frame = true ->
  pixel_buffer frame = Some buffer ->
  tiled hdr ->
  has_renderer hdr = true ->
  (forall b', 0 <= b' <= b -> fst (decode_block b' swap_color) = ESP_OK) ->
  covers req x y ->
  covers (mk_area obj_x obj_y (obj_x + width hdr) (obj_y + height hdr)) x y ->
  (exists before clip source after,
     trace = before ++ Rendered b clip source :: after
     /\ covers clip x y
     /\ source = apply_stores buffer (stores_of before)
     /\ ((b = last_block frame /\ stores_of before = [])
         \/ exists before',
              before
              = before'
                  ++ [Decoded b ESP_OK (snd (decode_block b swap_color))]))
  /\ forall b' clip' source',
       In (Rendered b' clip' source') trace -> covers clip' x y -> b' = b.
Proof.
  intros hdr b trace Hbound Hp Htiled Hdepth Hdec Hreq Hobj.
  assert (Hb0 : 0 <= b).
  { destruct Htiled as (Hbh & _). destruct Hobj as [_ Hy].
    cbn [y1 y2] in Hy. apply Z.div_pos; lia. }
  pose proof (request_pixel_rendered_once
                (fun b swap => fst (decode_block b swap)) (erase frame)
                obj_x obj_y req swap_color x y Hbound Htiled Hdepth
                (Hdec b ltac:(lia)) Hreq Hobj) as Hcache.
  cbn zeta in Hcache. rewrite draw_erase in Hcache.
  cbn [snd Cache.header erase] in Hcache. fold hdr b trace in Hcache.
  destruct Hcache as [(clip & Hin & Hcov) Huniq].
  split.
  2:{ intros b' clip' source' Hin' Hcov'. apply (Huniq b' clip'); [|exact Hcov'].
      apply in_map_iff. exists (Rendered b' clip' source').
      split; [reflexivity | exact Hin']. }
  apply in_map_iff in Hin as (e & Ee & Hin).
  destruct e as [b' res out|b' clip' source]; [discriminate|].
  injection Ee as -> ->.
  apply in_split in Hin as (before & after & Etrace).
  exists before, clip, source, after.
  split; [exact Etrace|]. split; [exact Hcov|].
  destruct (draw_runs_pixel_loop frame obj_x obj_y req swap_color)
    as [E|(buffer' & _ & Hp' & _ & E)].
  { exfalso. unfold trace in Etrace. rewrite E in Etrace.
    destruct before; discriminate. }
  rewrite Hp in Hp'. injection Hp' as <-.
  fold hdr in E. cbn zeta in E. unfold trace in Etrace. rewrite E in Etrace.
  cbn [snd] in Etrace.
  destruct (blocks_loop_events
              decode_block hdr obj_x obj_y
              (Cache.clip_of_request hdr obj_x obj_y req) swap_color
              (Z.to_nat (blocks hdr)) 0 (last_block frame) buffer [])
    as (added & Etr & _ & _ & Hall).
  cbn zeta in Etr. cbn [app] in Etr. rewrite Etr in Etrace.
  pose proof (Hall before _ after Etrace) as Hev. cbn [event_at] in Hev.
  destruct Hev as (_ & _ & _ & Hsource & Hfrom).
  split; [exact Hsource|].
  destruct Hfrom as [(before' & out & Ebefore)|[Hlast Hfailed]].
  - right. exists before'. rewrite Ebefore. do 3 f_equal.
    subst before. rewrite <- app_assoc in Etrace. cbn [app] in Etrace.
    pose proof (Hall before' _ _ Etrace) as Hev. cbn [event_at] in Hev.
    destruct Hev as (_ & _ & Hd). now rewrite Hd.
  - left. split; [exact Hlast|].
    apply stores_of_no_decode. intros b' res out Hin.
    destruct (Hfailed _ _ _ Hin) as (Hb' & Hd & Hres).
    apply Hres. rewrite <- (Hdec b' ltac:(lia)). now rewrite Hd.
Qed.

End PixelRequests.

(** ** The renderers paint the palette colours, whatever the cache holds *)

Section PaintFacts.

Import Header Render Paint.

Lemma nth_error_poke (buf : list Z) (v : Z) :
  forall i k : nat,
    nth_error (poke buf i v) k
    = if ((k =? i) && (k <? length buf))%nat then Some v
      else nth_error buf k.
Proof.
  induction buf as [|h t IH]; intros i k.
  - cbn [poke length]. destruct i; now rewrite andb_false_r.
  - destruct i, k; cbn [poke nth_error length]; try reflexivity.
    rewrite IH. reflexivity.
Qed.

Lemma load_poke (buf : list Z) (i : nat) (v : Z) (j : Z) :
  load (poke buf i v) j
  = if (j =? Z.of_nat i) && (j <? Z.of_nat (length buf)) then Some v
    else load buf j.
Proof.
  unfold load. destruct (Z.ltb_spec j 0) as [Hj|Hj].
  { destruct (Z.eqb_spec j (Z.of_nat i)); [lia | reflexivity]. }
  rewrite nth_error_poke.
  replace (Z.to_nat j =? i)%nat with (j =? Z.of_nat i)
    by (destruct (Nat.eqb_spec (Z.to_nat j) i), (Z.eqb_spec j (Z.of_nat i));
        lia || reflexivity).
  replace (Z.to_nat j <? length buf)%nat with (j <? Z.of_nat (length buf))
    by (destruct (Nat.ltb_spec (Z.to_nat j) (length buf)),
          (Z.ltb_spec j (Z.of_nat (length buf))); lia || reflexivity).
  reflexivity.
Qed.

Lemma parse_palette_range (header : gfx_aaf_header_t) (index : Z)
      (swap : bool) (color : Z) :
  gfx_aaf_parse_palette header index swap = Some color ->
  0 <= color < 2 ^ 16.
Proof.
  unfold gfx_aaf_parse_palette.
  destruct (load _ _); [|discriminate].
  destruct (load _ _); [|discriminate].
  destruct (load _ _); [|discriminate].
  cbn [option_map]. intros E. injection E as <-.
  apply Z.mod_pos_bound. reflexivity.
Qed.

Lemma parse_palette_total (header : gfx_aaf_header_t) (index : Z)
      (swap : bool) :
  0 <= index -> index * 4 + 2 < Z.of_nat (length (palette header)) ->
  exists color, gfx_aaf_parse_palette header index swap = Some color.
Proof.
  intros Hi Hlen. unfold gfx_aaf_parse_palette.
  assert (forall k, 0 <= k <= 2 ->
            exists v, load (palette header) (index * 4 + k) = Some v) as H.
  { intros k Hk. unfold load. zcase; [lia|].
    destruct (nth_error (palette header) (Z.to_nat (index * 4 + k))) eqn:E;
      [eauto|].
    apply nth_error_None in E. lia. }
  destruct (H 0 ltac:(lia)) as [c0 E0]. rewrite Z.add_0_r in E0.
  destruct (H 1 ltac:(lia)) as [c1 E1].
  destruct (H 2 ltac:(lia)) as [c2 E2].
  rewrite E0, E1, E2. eauto.
Qed.

(** The lazy look-up returns the palette colour and keeps the cache
    consistent. *)
Lemma cached_color_spec (header : gfx_aaf_header_t) (swap : bool)
      (palette_cache : list Z) (index color : Z) :
  consistent header swap palette_cache ->
  0 <= index < Z.of_nat (length palette_cache) ->
  gfx_aaf_parse_palette header index swap = Some color ->
  exists cache',
    cached_color header palette_cache index swap = Some (cache', color)
    /\ consistent header swap cache'
    /\ length cache' = length palette_cache.
Proof.
  intros Hcons Hi Hcol. unfold cached_color.
  destruct (load palette_cache index) as [slot|] eqn:Eslot.
  2:{ unfold load in Eslot. revert Eslot. zcase; [lia|].
      intros E. apply nth_error_None in E. lia. }
  pose proof (parse_palette_range _ _ _ _ Hcol) as Hrange.
  cbv beta. destruct (Z.eqb_spec slot UNRESOLVED) as [->|Hne].
  - rewrite Hcol. cbv beta.
    exists (poke palette_cache (Z.to_nat index) color).
    rewrite Z.mod_small by assumption. split; [reflexivity|].
    split; [|apply poke_length].
    intros j s. rewrite load_poke, Z2Nat.id by lia.
    destruct (Z.eqb_spec j index) as [->|]; cbn [andb].
    + destruct (Z.ltb_spec index (Z.of_nat (length palette_cache))); [|lia].
      intros E. injection E as <-. now right.
    + apply Hcons.
  - exists palette_cache.
    destruct (Hcons _ _ Eslot) as [|Hs]; [contradiction|].
    rewrite Hcol in Hs. injection Hs as <-.
    rewrite Z.mod_small by assumption. repeat split. assumption.
Qed.

Lemma mirror_store_app (m : bool) (w mo dxo ds y x c : Z) (dest : stores) :
  mirror_store m w mo dxo ds y x c dest
  = dest ++ mirror_store m w mo dxo ds y x c [].
Proof.
  unfold mirror_store. destruct m; [|now rewrite app_nil_r].
  destruct (_ && _); [reflexivity | now rewrite app_nil_r].
Qed.

Variables (dest_stride : Z) (src_buf : list Z) (src_stride : Z).
Variables (header : gfx_aaf_header_t).
Variables (swap_color mirror_enabled : bool).
Variables (mirror_offset dest_x_offset : Z).

Hypothesis src_bytes : forallb is_byte src_buf = true.
Hypothesis palette_full : 1024 <= Z.of_nat (length (palette header)).

Lemma row_8bit_paints (y : Z) (n : nat) :
  forall (x : Z) (palette_cache : list Z) (dest : stores),
    consistent header swap_color palette_cache ->
    length palette_cache = 256%nat ->
    0 <= y * src_stride + x ->
    ((0 < n)%nat ->
     y * src_stride + x + Z.of_nat n <= Z.of_nat (length src_buf)) ->
    exists cache' groups,
      row_8bit dest_stride src_buf src_stride header swap_color
               mirror_enabled mirror_offset dest_x_offset n y x
               palette_cache dest
      = Some (cache', dest ++ concat groups)
      /\ map Some groups
         = map (fun k => paint_8bit dest_stride src_buf src_stride header
                                    swap_color mirror_enabled mirror_offset
                                    dest_x_offset y (x + Z.of_nat k))
               (seq 0 n)
      /\ consistent header swap_color cache'
      /\ length cache' = 256%nat.
Proof.
  induction n as [|n IH]; intros x palette_cache dest Hcons Hlen Hlo Hhi.
  - exists palette_cache, []. cbn. rewrite app_nil_r. auto.
  - cbn [row_8bit]. specialize (Hhi ltac:(lia)).
    destruct (load src_buf (y * src_stride + x)) as [index|] eqn:Eidx.
    2:{ unfold load in Eidx. revert Eidx. zcase; [lia|].
        intros E. apply nth_error_None in E. lia. }
    pose proof (load_byte _ _ _ src_bytes Eidx) as Hbyte.
    destruct (parse_palette_total header index swap_color) as [color Hcol];
      [lia | lia |].
    destruct (cached_color_spec header swap_color palette_cache index color)
      as (cache1 & Ecache & Hcons1 & Hlen1); [assumption | lia | assumption |].
    cbv beta. rewrite Ecache. cbv beta iota.
    destruct (IH (x + 1) cache1
                 (mirror_store mirror_enabled (width header) mirror_offset
                    dest_x_offset dest_stride y x color
                    (dest ++ [(y * dest_stride + x, color)])))
      as (cache' & groups & Erow & Hgroups & Hcons' & Hlen');
      [assumption | lia | lia | intros; lia |].
    exists cache',
      (mirror_store mirror_enabled (width header) mirror_offset
                    dest_x_offset dest_stride y x color
                    [(y * dest_stride + x, color)] :: groups).
    rewrite Erow. split; [|split; [|split; assumption]].
    + f_equal. f_equal. cbn [concat].
      rewrite (mirror_store_app _ _ _ _ _ _ _ _ (dest ++ _)).
      rewrite (mirror_store_app _ _ _ _ _ _ _ _ [_]).
      now rewrite <- !app_assoc.
    + cbn [seq map]. f_equal.
      * unfold paint_8bit. rewrite Z.add_0_r, Eidx. cbv beta.
        rewrite Hcol. reflexivity.
      * rewrite Hgroups, <- seq_shift, map_map. apply map_ext.
        intros k. f_equal. lia.
Qed.

Lemma flat_map_seq_shift {A : Type} (f : nat -> list A) (n : nat) :
  flat_map f (seq 1 n) = flat_map (fun j => f (S j)) (seq 0 n).
Proof.
  rewrite <- seq_shift, !flat_map_concat_map, map_map. reflexivity.
Qed.

Lemma rows_8bit_paints (w : Z) (n : nat) :
  forall (y : Z) (palette_cache : list Z) (dest : stores),
    consistent header swap_color palette_cache ->
    length palette_cache = 256%nat ->
    0 <= src_stride -> w <= src_stride -> 0 <= y ->
    ((0 < n)%nat -> 0 < w ->
     (y + Z.of_nat n - 1) * src_stride + w <= Z.of_nat (length src_buf)) ->
    exists cache' groups,
      rows_8bit dest_stride src_buf src_stride header swap_color
                mirror_enabled mirror_offset dest_x_offset n w y
                palette_cache dest
      = Some (cache', dest ++ concat groups)
      /\ map Some groups
         = map (fun p => paint_8bit dest_stride src_buf src_stride header
                                    swap_color mirror_enabled mirror_offset
                                    dest_x_offset (fst p) (snd p))
               (flat_map (fun j => map (fun k => (y + Z.of_nat j, Z.of_nat k))
                                       (seq 0 (Z.to_nat w)))
                         (seq 0 n))
      /\ consistent header swap_color cache'
      /\ length cache' = 256%nat.
Proof.
  induction n as [|n IH]; intros y palette_cache dest Hcons Hlen Hss Hw Hy Hsrc.
  - exists palette_cache, []. cbn. rewrite app_nil_r. auto.
  - cbn [rows_8bit].
    destruct (row_8bit_paints y (Z.to_nat w) 0 palette_cache dest)
      as (cache1 & g1 & Erow & Hg1 & Hcons1 & Hlen1);
      [assumption | assumption | nia
       | intros Hpos; specialize (Hsrc ltac:(lia) ltac:(lia)); nia |].
    rewrite Erow. cbv beta. cbn [fst snd].
    destruct (IH (y + 1) cache1 (dest ++ concat g1))
      as (cache' & g2 & Erows & Hg2 & Hcons' & Hlen');
      [assumption | assumption | assumption | assumption | lia
       | intros Hn' Hw'; specialize (Hsrc ltac:(lia) Hw'); nia |].
    exists cache', (g1 ++ g2). rewrite Erows.
    split; [now rewrite concat_app, app_assoc|].
    split; [|split; assumption].
    cbn [seq flat_map]. rewrite !map_app, Hg1, Hg2, map_map. f_equal.
    + apply map_ext. intros k. cbn [fst snd]. now rewrite Z.add_0_r.
    + f_equal. rewrite flat_map_seq_shift. apply flat_map_ext. intros j.
      apply map_ext. intros k. f_equal. lia.
Qed.

(** X15.  The 8-bit renderer on a source that holds the [h] rows of the
    clip rectangle, [src_stride] bytes apart, with a palette of 256
    entries and a cache of 256 slots that
    agrees with the palette: for every pixel of the clip rectangle, row by
    row, it stores the palette colour of the source byte at the pixel (and
    at its mirror column when mirroring is on and the column is in range),
    whatever part of the cache was resolved before; the cache it leaves
    still agrees with the palette. *)
Theorem render_8bit_paints_palette_colors
        (clip_area : gfx_area_t) (palette_cache : list Z) :
  let w := x2 clip_area - x1 clip_area in
  let h := y2 clip_area - y1 clip_area in
  consistent header swap_color palette_cache ->
  length palette_cache = 256%nat ->
  0 <= src_stride -> w <= src_stride ->
  (0 < h -> 0 < w ->
   (h - 1) * src_stride + w <= Z.of_nat (length src_buf)) ->
  exists cache' groups,
    gfx_anim_render_8bit_pixels dest_stride src_buf src_stride header
                                clip_area swap_color mirror_enabled
                                mirror_offset dest_x_offset palette_cache
    = Some (cache', concat groups)
    /\ map Some groups
       = map (fun p => paint_8bit dest_stride src_buf src_stride header
                                  swap_color mirror_enabled mirror_offset
                                  dest_x_offset (fst p) (snd p))
             (positions h w)
    /\ consistent header swap_color cache'
    /\ length cache' = 256%nat.
Proof.
  intros w h Hcons Hlen Hss Hw Hsrc. unfold gfx_anim_render_8bit_pixels.
  fold w. fold h.
  destruct (rows_8bit_paints w (Z.to_nat h) 0 palette_cache [])
    as (cache' & groups & E & Hg & Hcons' & Hlen');
    [assumption | assumption | assumption | assumption | lia
     | intros Hh' Hw'; specialize (Hsrc ltac:(lia) Hw'); nia |].
  exists cache', groups. rewrite E. cbn [app].
  split; [reflexivity|]. split; [exact Hg|]. split; assumption.
Qed.

Lemma row_24bit_paints (y : Z) (n : nat) :
  forall (x : Z) (dest : stores),
    0 <= y * src_stride + x ->
    ((0 < n)%nat ->
     2 * (y * src_stride + x + Z.of_nat n) <= Z.of_nat (length src_buf)) ->
    exists groups,
      row_24bit dest_stride src_buf src_stride mirror_enabled mirror_offset
                dest_x_offset n y x dest
      = Some (dest ++ concat groups)
      /\ map Some groups
         = map (fun k => paint_24bit dest_stride src_buf src_stride
                                     mirror_enabled mirror_offset
                                     dest_x_offset y (x + Z.of_nat k))
               (seq 0 n).
Proof.
  clear src_bytes palette_full.
  induction n as [|n IH]; intros x dest Hlo Hhi.
  - exists []. cbn. now rewrite app_nil_r.
  - cbn [row_24bit]. specialize (Hhi ltac:(lia)).
    destruct (load16 src_buf (2 * (y * src_stride + x))) as [pixel|] eqn:Epx.
    2:{ exfalso. revert Epx. unfold load16, load.
        repeat (zcase; try lia).
        destruct (nth_error src_buf (Z.to_nat (2 * (y * src_stride + x))))
          eqn:E0; [|apply nth_error_None in E0; lia].
        destruct (nth_error src_buf
                            (Z.to_nat (2 * (y * src_stride + x) + 1)))
          eqn:E1; [|apply nth_error_None in E1; lia].
        discriminate. }
    cbv beta.
    destruct (IH (x + 1)
                 (mirror_store mirror_enabled src_stride mirror_offset
                    dest_x_offset dest_stride y x pixel
                    (dest ++ [(y * dest_stride + x, pixel)])))
      as (groups & Erow & Hgroups); [lia | intros; lia |].
    exists (mirror_store mirror_enabled src_stride mirror_offset
                         dest_x_offset dest_stride y x pixel
                         [(y * dest_stride + x, pixel)] :: groups).
    rewrite Erow. split.
    + f_equal. cbn [concat].
      rewrite (mirror_store_app _ _ _ _ _ _ _ _ (dest ++ _)).
      rewrite (mirror_store_app _ _ _ _ _ _ _ _ [_]).
      now rewrite <- !app_assoc.
    + cbn [seq map]. f_equal.
      * unfold paint_24bit. rewrite Z.add_0_r, Epx. reflexivity.
      * rewrite Hgroups, <- seq_shift, map_map. apply map_ext.
        intros k. f_equal. lia.
Qed.

Lemma rows_24bit_paints (w : Z) (n : nat) :
  forall (y : Z) (dest : stores),
    0 <= src_stride -> w <= src_stride -> 0 <= y ->
    ((0 < n)%nat -> 0 < w ->
     2 * ((y + Z.of_nat n - 1) * src_stride + w)
     <= Z.of_nat (length src_buf)) ->
    exists groups,
      rows_24bit dest_stride src_buf src_stride mirror_enabled mirror_offset
                 dest_x_offset n w y dest
      = Some (dest ++ concat groups)
      /\ map Some groups
         = map (fun p => paint_24bit dest_stride src_buf src_stride
                                     mirror_enabled mirror_offset
                                     dest_x_offset (fst p) (snd p))
               (flat_map (fun j => map (fun k => (y + Z.of_nat j, Z.of_nat k))
                                       (seq 0 (Z.to_nat w)))
                         (seq 0 n)).
Proof.
  clear src_bytes palette_full.
  induction n as [|n IH]; intros y dest Hss Hw Hy Hsrc.
  - exists []. cbn. now rewrite app_nil_r.
  - cbn [rows_24bit].
    destruct (row_24bit_paints y (Z.to_nat w) 0 dest)
      as (g1 & Erow & Hg1);
      [nia | intros Hpos; specialize (Hsrc ltac:(lia) ltac:(lia)); nia |].
    rewrite Erow. cbv beta.
    destruct (IH (y + 1) (dest ++ concat g1))
      as (g2 & Erows & Hg2);
      [assumption | assumption | lia
       | intros Hn' Hw'; specialize (Hsrc ltac:(lia) Hw'); nia |].
    exists (g1 ++ g2). rewrite Erows.
    split; [now rewrite concat_app, app_assoc|].
    cbn [seq flat_map]. rewrite !map_app, Hg1, Hg2, map_map. f_equal.
    + apply map_ext. intros k. cbn [fst snd]. now rewrite Z.add_0_r.
    + f_equal. rewrite flat_map_seq_shift. apply flat_map_ext. intros j.
      apply map_ext. intros k. f_equal. lia.
Qed.

(** X16.  The renderer of 16-bit colour on a source that holds the [h]
    rows of the clip rectangle, [src_stride] pixels of two bytes apart:
    for every pixel of the clip
    rectangle, row by row, it stores the 16-bit value read from the source
    at the pixel (and at its mirror column when mirroring is on and the
    column is in range), and it reads no byte outside the source. *)
Theorem render_24bit_copies_pixels (clip_area : gfx_area_t) :
  let w := x2 clip_area - x1 clip_area in
  let h := y2 clip_area - y1 clip_area in
  0 <= src_stride -> w <= src_stride ->
  (0 < h -> 0 < w ->
   2 * ((h - 1) * src_stride + w) <= Z.of_nat (length src_buf)) ->
  exists groups,
    gfx_anim_render_24bit_pixels dest_stride src_buf src_stride clip_area
                                 mirror_enabled mirror_offset dest_x_offset
    = Some (concat groups)
    /\ map Some groups
       = map (fun p => paint_24bit dest_stride src_buf src_stride
                                   mirror_enabled mirror_offset dest_x_offset
                                   (fst p) (snd p))
             (positions h w).
Proof.
  clear src_bytes palette_full.
  intros w h Hss Hw Hsrc. unfold gfx_anim_render_24bit_pixels.
  fold w. fold h.
  destruct (rows_24bit_paints w (Z.to_nat h) 0 [])
    as (groups & E & Hg);
    [assumption | assumption | lia
     | intros Hh' Hw'; specialize (Hsrc ltac:(lia) Hw'); nia |].
  exists groups. rewrite E. cbn [app]. split; [reflexivity | exact Hg].
Qed.

End PaintFacts.

Section Paint4Facts.

Import Header Render Paint.

Variables (dest_stride : Z) (src_buf : list Z) (src_stride : Z).
Variables (header : gfx_aaf_header_t).
Variables (swap_color mirror_enabled : bool).
Variables (mirror_offset dest_x_offset : Z).

Hypothesis src_bytes : forallb is_byte src_buf = true.
Hypothesis palette_full : 64 <= Z.of_nat (length (palette header)).

Lemma nibbles (b : Z) :
  0 <= b < 256 ->
  0 <= Z.shiftr (Z.land b 240) 4 < 16 /\ 0 <= Z.land b 15 < 16.
Proof.
  intros H.
  pose proof (forall_below
                (fun b => (0 <=? Z.shiftr (Z.land b 240) 4)
                          && (Z.shiftr (Z.land b 240) 4 <? 16)
                          && (0 <=? Z.land b 15) && (Z.land b 15 <? 16))
                256 ltac:(now vm_compute) b H) as Hb.
  cbv beta in Hb. apply andb_prop in Hb as [Hb H4].
  apply andb_prop in Hb as [Hb H3]. apply andb_prop in Hb as [H1 H2].
  lia.
Qed.

Lemma row_4bit_paints (y : Z) (n : nat) :
  forall (j : Z) (palette_cache : list Z) (dest : stores),
    consistent header swap_color palette_cache ->
    length palette_cache = 16%nat ->
    0 <= j -> 0 <= Z.quot (y * src_stride) 2 ->
    ((0 < n)%nat ->
     Z.quot (y * src_stride) 2 + j + Z.of_nat n
     <= Z.of_nat (length src_buf)) ->
    exists cache' groups,
      row_4bit dest_stride src_buf src_stride header swap_color
               mirror_enabled mirror_offset dest_x_offset n y (2 * j)
               palette_cache dest
      = Some (cache', dest ++ concat groups)
      /\ map Some groups
         = map (fun k => paint_4bit dest_stride src_buf src_stride header
                                    swap_color mirror_enabled mirror_offset
                                    dest_x_offset y (2 * (j + Z.of_nat k)))
               (seq 0 n)
      /\ consistent header swap_color cache'
      /\ length cache' = 16%nat.
Proof.
  induction n as [|n IH]; intros j palette_cache dest Hcons Hlen Hj Hbase Hhi.
  - exists palette_cache, []. cbn. rewrite app_nil_r. auto.
  - cbn [row_4bit]. specialize (Hhi ltac:(lia)).
    assert (Hq : Z.quot (2 * j) 2 = j)
      by (rewrite Z.mul_comm; apply Z.quot_mul; lia).
    rewrite Hq.
    destruct (load src_buf (Z.quot (y * src_stride) 2 + j))
      as [packed|] eqn:Epk.
    2:{ unfold load in Epk. revert Epk. zcase; [lia|].
        intros E. apply nth_error_None in E. lia. }
    pose proof (load_byte _ _ _ src_bytes Epk) as Hbyte.
    destruct (nibbles packed Hbyte) as [Hi1 Hi2].
    destruct (parse_palette_total header (Z.shiftr (Z.land packed 240) 4)
                                  swap_color) as [color1 Hc1]; [lia | lia |].
    destruct (parse_palette_total header (Z.land packed 15) swap_color)
      as [color2 Hc2]; [lia | lia |].
    destruct (cached_color_spec header swap_color palette_cache
                                (Z.shiftr (Z.land packed 240) 4) color1)
      as (cache1 & Ecache1 & Hcons1 & Hlen1); [assumption | lia | assumption |].
    destruct (cached_color_spec header swap_color cache1
                                (Z.land packed 15) color2)
      as (cache2 & Ecache2 & Hcons2 & Hlen2); [assumption | lia | assumption |].
    cbv beta. rewrite Ecache1. cbv beta iota. rewrite Ecache2.
    cbv beta iota.
    replace (2 * j + 2) with (2 * (j + 1)) by lia.
    match goal with
    | |- context [row_4bit _ _ _ _ _ _ _ _ n y (2 * (j + 1)) cache2 ?d] =>
      destruct (IH (j + 1) cache2 d)
        as (cache' & groups & Erow & Hgroups & Hcons' & Hlen');
        [assumption | lia | lia | assumption | intros; lia |]
    end.
    exists cache',
      (mirror_store mirror_enabled (width header) mirror_offset dest_x_offset
                    dest_stride y (2 * j + 1) color1
                    (mirror_store mirror_enabled (width header)
                                  mirror_offset dest_x_offset dest_stride y
                                  (2 * j) color1
                                  [(y * dest_stride + 2 * j, color1)]
                     ++ [(y * dest_stride + 2 * j + 1, color2)]) :: groups).
    rewrite Erow. split; [|split; [|split; [assumption | lia]]].
    + f_equal. f_equal. cbn [concat].
      rewrite (mirror_store_app _ _ _ _ _ _ (2 * j + 1) _ (_ ++ _)).
      rewrite (mirror_store_app _ _ _ _ _ _ (2 * j) _ (dest ++ _)).
      rewrite (mirror_store_app _ _ _ _ _ _ (2 * j + 1) _
                                (mirror_store _ _ _ _ _ _ _ _ [_] ++ _)).
      rewrite (mirror_store_app _ _ _ _ _ _ (2 * j) _ [_]).
      now rewrite <- !app_assoc.
    + cbn [seq map]. f_equal.
      * unfold paint_4bit. rewrite Z.add_0_r, Hq, Epk. cbv beta.
        rewrite Hc1. cbv beta. rewrite Hc2. reflexivity.
      * rewrite Hgroups, <- seq_shift, map_map. apply map_ext.
        intros k. f_equal. lia.
Qed.

Lemma rows_4bit_paints (clip_w : Z) (n : nat) :
  forall (y : Z) (palette_cache : list Z) (dest : stores),
    consistent header swap_color palette_cache ->
    length palette_cache = 16%nat ->
    0 <= src_stride -> 0 <= y ->
    ((0 < n)%nat -> 0 < clip_w ->
     (y + Z.of_nat n - 1) * src_stride / 2 + (clip_w + 1) / 2
     <= Z.of_nat (length src_buf)) ->
    exists cache' groups,
      rows_4bit dest_stride src_buf src_stride header swap_color
                mirror_enabled mirror_offset dest_x_offset n clip_w y
                palette_cache dest
      = Some (cache', dest ++ concat groups)
      /\ map Some groups
         = map (fun p => paint_4bit dest_stride src_buf src_stride header
                                    swap_color mirror_enabled mirror_offset
                                    dest_x_offset (fst p) (2 * snd p))
               (flat_map (fun j => map (fun k => (y + Z.of_nat j, Z.of_nat k))
                                       (seq 0 (Z.to_nat ((clip_w + 1) / 2))))
                         (seq 0 n))
      /\ consistent header swap_color cache'
      /\ length cache' = 16%nat.
Proof.
  induction n as [|n IH]; intros y palette_cache dest Hcons Hlen Hss Hy Hsrc.
  - exists palette_cache, []. cbn. rewrite app_nil_r. auto.
  - cbn [rows_4bit].
    assert (Hq : Z.quot (y * src_stride) 2 = y * src_stride / 2)
      by (apply Z.quot_div_nonneg; nia).
    assert (Hmono : y * src_stride / 2
                    <= (y + Z.of_nat (S n) - 1) * src_stride / 2)
      by (apply Z.div_le_mono; nia).
    assert (Hhalf : 0 < (clip_w + 1) / 2 -> 0 < clip_w).
    { intros H. destruct (Z.le_gt_cases clip_w 0) as [Hle|]; [|assumption].
      assert ((clip_w + 1) / 2 <= 1 / 2) by (apply Z.div_le_mono; lia).
      change (1 / 2) with 0 in *. lia. }
    change 0 with (2 * 0) at 1.
    destruct (row_4bit_paints y (Z.to_nat ((clip_w + 1) / 2)) 0
                              palette_cache dest)
      as (cache1 & g1 & Erow & Hg1 & Hcons1 & Hlen1);
      [assumption | assumption | lia
       | rewrite Hq; apply Z.div_pos; nia
       | intros Hpos; rewrite Hq;
         specialize (Hsrc ltac:(lia) ltac:(apply Hhalf; lia)); lia |].
    rewrite Erow. cbv beta. cbn [fst snd].
    destruct (IH (y + 1) cache1 (dest ++ concat g1))
      as (cache' & g2 & Erows & Hg2 & Hcons' & Hlen');
      [assumption | assumption | assumption | lia
       | intros Hn' Hw'; specialize (Hsrc ltac:(lia) Hw');
         replace (y + 1 + Z.of_nat n - 1) with (y + Z.of_nat (S n) - 1)
           by lia; assumption |].
    exists cache', (g1 ++ g2). rewrite Erows.
    split; [now rewrite concat_app, app_assoc|].
    split; [|split; assumption].
    cbn [seq flat_map]. rewrite !map_app, Hg1, Hg2, map_map. f_equal.
    + apply map_ext. intros k. cbn [fst snd]. now rewrite Z.add_0_r.
    + f_equal. rewrite flat_map_seq_shift. apply flat_map_ext. intros j.
      apply map_ext. intros k. f_equal. lia.
Qed.

(** X17.  The 4-bit renderer on a source that holds the rows of the clip
    rectangle, two pixels to a byte, with a palette of 16 entries and a
    cache of 16 slots that agrees with the palette: for every row it
    handles [(clip_w + 1) / 2] source bytes and stores, for each, the
    palette colour of the high nibble at the even column and that of the
    low nibble at the odd column.  For an odd [clip_w] it therefore
    stores at column [clip_w] of every row, one column past the clip
    rectangle. *)
Theorem render_4bit_paints_pixel_pairs
        (clip_area : gfx_area_t) (palette_cache : list Z) :
  let clip_w := x2 clip_area - x1 clip_area in
  let clip_h := y2 clip_area - y1 clip_area in
  consistent header swap_color palette_cache ->
  length palette_cache = 16%nat ->
  0 <= src_stride ->
  (0 < clip_h -> 0 < clip_w ->
   (clip_h - 1) * src_stride / 2 + (clip_w + 1) / 2
   <= Z.of_nat (length src_buf)) ->
  exists cache' groups,
    gfx_anim_render_4bit_pixels dest_stride src_buf src_stride header
                                clip_area swap_color mirror_enabled
                                mirror_offset dest_x_offset palette_cache
    = Some (cache', concat groups)
    /\ map Some groups
       = map (fun p => paint_4bit dest_stride src_buf src_stride header
                                  swap_color mirror_enabled mirror_offset
                                  dest_x_offset (fst p) (2 * snd p))
             (positions clip_h ((clip_w + 1) / 2))
    /\ consistent header swap_color cache'
    /\ (0 < clip_w -> Z.odd clip_w = true ->
        forall y, 0 <= y < clip_h ->
          exists color, In (y * dest_stride + clip_w, color) (concat groups)).
Proof.
  intros clip_w clip_h Hcons Hlen Hss Hsrc.
  unfold gfx_anim_render_4bit_pixels. fold clip_w. fold clip_h.
  destruct (rows_4bit_paints clip_w (Z.to_nat clip_h) 0 palette_cache [])
    as (cache' & groups & E & Hg & Hcons' & Hlen');
    [assumption | assumption | assumption | lia
     | intros Hh' Hw'; specialize (Hsrc ltac:(lia) Hw');
       replace (0 + Z.of_nat (Z.to_nat clip_h) - 1) with (clip_h - 1) by lia;
       assumption |].
  assert (Hg' : map Some groups
                = map (fun p => paint_4bit dest_stride src_buf src_stride
                                           header swap_color mirror_enabled
                                           mirror_offset dest_x_offset
                                           (fst p) (2 * snd p))
                      (positions clip_h ((clip_w + 1) / 2))) by exact Hg.
  clear Hg. rename Hg' into Hg.
  exists cache', groups. rewrite E. cbn [app].
  split; [reflexivity|]. split; [exact Hg|]. split; [assumption|].
  intros Hw Hodd y Hy.
  apply Z.odd_spec in Hodd as [m Hm].
  assert (Hhalf : (clip_w + 1) / 2 = m + 1).
  { replace (clip_w + 1) with ((m + 1) * 2) by lia. apply Z.div_mul. lia. }
  assert (Hp : In (y, m) (positions clip_h ((clip_w + 1) / 2))).
  { unfold positions. apply in_flat_map. exists (Z.to_nat y).
    split; [apply in_seq; lia|]. apply in_map_iff. exists (Z.to_nat m).
    split; [rewrite !Z2Nat.id by lia; reflexivity | apply in_seq; lia]. }
  apply (in_map (fun p => paint_4bit dest_stride src_buf src_stride header
                                     swap_color mirror_enabled mirror_offset
                                     dest_x_offset (fst p) (2 * snd p)))
    in Hp.
  rewrite <- Hg in Hp. apply in_map_iff in Hp as (g & Eg & Hing).
  cbn [fst snd] in Eg. unfold paint_4bit in Eg.
  destruct (load src_buf _) as [packed|]; [|discriminate].
  cbv beta in Eg.
  destruct (gfx_aaf_parse_palette header _ swap_color) as [color1|];
    [|discriminate].
  destruct (gfx_aaf_parse_palette header _ swap_color) as [color2|];
    [|discriminate].
  injection Eg as ->. exists color2. apply in_concat.
  eexists. split; [exact Hing|].
  rewrite mirror_store_app. apply in_or_app. left.
  apply in_or_app. right. left. f_equal. rewrite Hm. destruct m; lia.
Qed.

End Paint4Facts.

(** ** Animation playback *)

Section AnimFacts.

Import Header Container Cache Anim.

Lemma succ_mod (x len : Z) :
  0 < len ->
  (x + 1) mod len = if x mod len =? len - 1 then 0 else x mod len + 1.
Proof.
  intros Hlen. pose proof (Z.mod_pos_bound x len Hlen) as Hx.
  rewrite <- Z.add_mod_idemp_l by lia.
  destruct (Z.eqb_spec (x mod len) (len - 1)) as [E|E].
  - rewrite E. replace (len - 1 + 1) with len by lia.
    apply Z.mod_same. lia.
  - apply Z.mod_small. lia.
Qed.

(** The timer callback iterated on a repeating animation. *)
Lemma ticks_repeat (obj : gfx_obj_t) (anim : gfx_anim_property_t) (n : nat) :
  src obj = Some anim ->
  is_playing anim = true ->
  repeat anim = true ->
  0 <= start_frame anim <= current_frame anim ->
  current_frame anim <= end_frame anim < 2 ^ 32 - 1 ->
  let len := end_frame anim - start_frame anim + 1 in
  let current :=
    start_frame anim
    + (current_frame anim - start_frame anim + Z.of_nat n) mod len in
  ticks n obj
  = mk_obj (type obj) (Some (set_current anim current))
           (if (0 <? Z.of_nat n) then true else is_dirty obj)
  /\ start_frame anim <= current <= end_frame anim.
Proof.
  intros Hsrc Hplay Hrep Hlo Hhi len current.
  assert (Hlen : 0 < len) by (unfold len; lia).
  assert (Hcur : start_frame anim <= current <= end_frame anim).
  { unfold current.
    pose proof (Z.mod_pos_bound
                  (current_frame anim - start_frame anim + Z.of_nat n)
                  len Hlen). unfold len in *. lia. }
  split; [|exact Hcur]. clear Hcur. subst current.
  induction n as [|n IH].
  - change (ticks 0 obj) with obj. rewrite Z.add_0_r, Z.mod_small
      by (unfold len; lia).
    replace (start_frame anim + (current_frame anim - start_frame anim))
      with (current_frame anim) by lia.
    destruct obj as [t s d], anim; cbn in *. now subst.
  - change (ticks (S n) obj) with (gfx_anim_timer_callback (ticks n obj)).
    rewrite IH.
    unfold gfx_anim_timer_callback. cbn [src type is_dirty].
    cbn [set_current is_playing current_frame end_frame repeat start_frame].
    rewrite Hplay, Hrep. cbn [negb].
    pose proof (Z.mod_pos_bound
                  (current_frame anim - start_frame anim + Z.of_nat n)
                  len Hlen) as Hm.
    replace (current_frame anim - start_frame anim + Z.of_nat (S n))
      with (current_frame anim - start_frame anim + Z.of_nat n + 1) by lia.
    rewrite (succ_mod _ len Hlen).
    rewrite sz_small by (unfold len in *; lia).
    destruct (Z.eqb_spec
                ((current_frame anim - start_frame anim + Z.of_nat n) mod len)
                (len - 1)) as [E|E].
    + rewrite E. zcase; [|unfold len in *; lia].
      rewrite Z.add_0_r. destruct (0 <? Z.of_nat (S n)) eqn:E0;
        [reflexivity | apply Z.ltb_ge in E0; lia].
    + zcase; [unfold len in *; lia|].
      rewrite Z.add_assoc. destruct (0 <? Z.of_nat (S n)) eqn:E0;
        [reflexivity | apply Z.ltb_ge in E0; lia].
Qed.

(** X18.  A playing animation with [repeat] set, whose current frame is
    in the segment [start_frame .. end_frame], cycles through the segment:
    after [n] timer periods the current frame is
    [start + (current - start + n) mod (end - start + 1)], nothing else of
    the animation has changed, and the object has been marked dirty. *)
Theorem playback_cycles_through_segment
        (obj : gfx_obj_t) (anim : gfx_anim_property_t) (n : nat) :
  src obj = Some anim ->
  is_playing anim = true ->
  repeat anim = true ->
  0 <= start_frame anim <= current_frame anim ->
  current_frame anim <= end_frame anim < 2 ^ 32 - 1 ->
  let len := end_frame anim - start_frame anim + 1 in
  let current :=
    start_frame anim
    + (current_frame anim - start_frame anim + Z.of_nat n) mod len in
  ticks n obj
  = mk_obj (type obj) (Some (set_current anim current))
           (if (0 <? Z.of_nat n) then true else is_dirty obj)
  /\ start_frame anim <= current <= end_frame anim.
Proof.
  intros Hsrc Hplay Hrep Hlo Hhi. now apply ticks_repeat.
Qed.

(** X19.  A playing animation without [repeat]: for the first
    [end - current] timer periods the current frame advances by one and
    the object is marked dirty; the next period stops the animation with
    the current frame at [end + 1], one past the segment, and does not
    mark the object dirty; later periods change nothing. *)
Theorem playback_without_repeat_stops_past_end
        (obj : gfx_obj_t) (anim : gfx_anim_property_t) (n : nat) :
  src obj = Some anim ->
  is_playing anim = true ->
  repeat anim = false ->
  0 <= current_frame anim <= end_frame anim ->
  end_frame anim < 2 ^ 32 - 1 ->
  let left := end_frame anim - current_frame anim in
  ticks n obj
  = if Z.of_nat n <=? left then
      mk_obj (type obj)
             (Some (set_current anim (current_frame anim + Z.of_nat n)))
             (if 0 <? Z.of_nat n then true else is_dirty obj)
    else
      mk_obj (type obj)
             (Some (set_playing (set_current anim (end_frame anim + 1)) false))
             (if 0 <? left then true else is_dirty obj).
Proof.
  intros Hsrc Hplay Hrep Hlo Hhi left.
  induction n as [|n IH].
  - change (ticks 0 obj) with obj.
    destruct (Z.leb_spec (Z.of_nat 0) left) as [_|H];
      [|unfold left in H; lia].
    rewrite Z.add_0_r. destruct obj as [t s d], anim; cbn in *. now subst.
  - change (ticks (S n) obj) with (gfx_anim_timer_callback (ticks n obj)).
    rewrite IH. clear IH.
    unfold gfx_anim_timer_callback.
    destruct (Z.leb_spec (Z.of_nat n) left) as [Hn|Hn];
      cbn [src type is_dirty set_current set_playing is_playing
           current_frame end_frame repeat start_frame].
    + rewrite Hplay, Hrep. cbn [negb].
      rewrite sz_small by (unfold left in *; lia).
      destruct (Z.leb_spec (Z.of_nat (S n)) left) as [Hn'|Hn'].
      * zcase; [unfold left in *; lia|].
        replace (current_frame anim + Z.of_nat n + 1)
          with (current_frame anim + Z.of_nat (S n)) by lia.
        destruct (0 <? Z.of_nat (S n)) eqn:E0;
          [reflexivity | apply Z.ltb_ge in E0; lia].
      * zcase; [|unfold left in *; lia].
        replace (current_frame anim + Z.of_nat n + 1)
          with (end_frame anim + 1) by (unfold left in *; lia).
        f_equal.
        destruct (Z.ltb_spec 0 (Z.of_nat n)), (Z.ltb_spec 0 left);
          reflexivity || lia.
    + cbn [negb].
      destruct (Z.leb_spec (Z.of_nat (S n)) left); [lia | reflexivity].
Qed.

Lemma to_int_range (z : Z) : - 2 ^ 31 <= to_int z < 2 ^ 31.
Proof.
  unfold to_int. cbv zeta.
  pose proof (Z.mod_pos_bound z (2 ^ 32) ltac:(reflexivity)) as H.
  unfold sz. zcase; lia.
Qed.

(** A handle that [gfx_aaf_format_init] returns has one entry for each of
    its frames, and its frame count is an [int]. *)
Lemma format_init_handle (data : list Z) (e : esp_err_t)
      (parser : gfx_aaf_format_ctx_t) :
  gfx_aaf_format_init data = Some (e, Some parser) ->
  e = ESP_OK
  /\ length (entries parser) = Z.to_nat (total_frames parser)
  /\ - 2 ^ 31 <= total_frames parser < 2 ^ 31.
Proof.
  unfold gfx_aaf_format_init.
  destruct (load data _) as [magic|]; [|discriminate]. cbv beta.
  destruct (negb _); [discriminate|].
  destruct (slice data _ _) as [str|]; [|discriminate]. cbv beta.
  destruct (negb _); [discriminate|].
  destruct (load32 data _) as [frames|]; [|discriminate]. cbv beta zeta.
  destruct (load32 data _) as [chk|]; [|discriminate]. cbv beta.
  destruct (load32 data _) as [len|]; [|discriminate]. cbv beta.
  destruct (gfx_aaf_format_calc_checksum _ _); [|discriminate]. cbv beta.
  destruct (negb _); [discriminate|].
  destruct (entries_loop _ data (to_int frames) 0) as [[e'|es]|] eqn:Eent;
    try discriminate.
  intros E. injection E as <- <-. cbn [entries total_frames].
  apply entries_loop_spec in Eent as [Hlen _].
  repeat split; try assumption; apply to_int_range.
Qed.

(** A frame index below the frame count of such a handle has data. *)
Lemma frame_data_of_valid_index (parser : gfx_aaf_format_ctx_t) (index : Z) :
  length (entries parser) = Z.to_nat (total_frames parser) ->
  0 <= index < total_frames parser ->
  exists v, gfx_aaf_format_get_frame_data parser index = Value v.
Proof.
  intros Hlen Hi. unfold gfx_aaf_format_get_frame_data, entry_at.
  repeat (zcase; try lia).
  destruct (nth_error (entries parser) (Z.to_nat index)) eqn:E; [eauto|].
  apply nth_error_None in E. lia.
Qed.

(** X20.  [gfx_anim_set_src] on an animation object, with a buffer the
    container check can read.  Whatever the outcome, the animation is
    left stopped and its frame unbound, so a draw paints nothing before the
    next frame is prepared.  If the container is accepted the call returns
    [ESP_OK], installs the new handle and rewinds to the whole file:
    [start = current = 0], [end = total_frames - 1] as a [uint32_t].  If
    it is refused the call returns [ESP_FAIL] and keeps the old handle and
    the old segment. *)
Theorem set_src_rewinds_or_keeps_handle
        (o : gfx_obj_t) (anim : gfx_anim_property_t) (data : list Z)
        (e : esp_err_t) (handle : option gfx_aaf_format_ctx_t) :
  type o = GFX_OBJ_TYPE_ANIMATION ->
  src o = Some anim ->
  gfx_aaf_format_init data = Some (e, handle) ->
  exists err anim',
    gfx_anim_set_src (Some o) (Some data)
    = Some (err, Some (mk_obj (type o) (Some anim') (is_dirty o)))
    /\ is_playing anim' = false
    /\ bound (frame anim') = false
    /\ fps anim' = fps anim /\ repeat anim' = repeat anim
    /\ match handle with
       | Some parser =>
         err = Esp ESP_OK
         /\ file_desc anim' = Some parser
         /\ start_frame anim' = 0 /\ current_frame anim' = 0
         /\ end_frame anim' = sz (total_frames parser - 1)
       | None =>
         err = Esp ESP_FAIL
         /\ file_desc anim' = file_desc anim
         /\ start_frame anim' = start_frame anim
         /\ current_frame anim' = current_frame anim
         /\ end_frame anim' = end_frame anim
       end.
Proof.
  intros Htype Hsrc Hinit. unfold gfx_anim_set_src.
  rewrite Htype, Hsrc, Hinit. cbv beta. cbn [snd].
  destruct handle as [parser|]; do 2 eexists;
    (split; [reflexivity|]);
    destruct (is_playing anim) eqn:Ep;
    cbn [set_frame set_playing is_playing frame fps repeat file_desc
         start_frame current_frame end_frame bound frame_data andb];
    repeat split; assumption || reflexivity.
Qed.

(** X21.  [gfx_anim_set_segment] on an animation object that has a
    container with at least one frame, with a frame rate that is not
    zero: the call returns [ESP_OK], the segment starts and the playback
    is put at [start] as given, and the end of the segment is [end] cut
    down to the last frame of the file.  (When the container declares no
    frame the end is taken as given.) *)
Theorem set_segment_clamps_end
        (o : gfx_obj_t) (anim : gfx_anim_property_t)
        (parser : gfx_aaf_format_ctx_t) (start end_ fps_ : Z)
        (repeat_ : bool) :
  type o = GFX_OBJ_TYPE_ANIMATION ->
  src o = Some anim ->
  file_desc anim = Some parser ->
  0 <= total_frames parser < 2 ^ 31 ->
  0 <= end_ < 2 ^ 32 ->
  0 < fps_ ->
  exists anim',
    gfx_anim_set_segment (Some o) start end_ fps_ repeat_
    = Some (Esp ESP_OK, Some (mk_obj (type o) (Some anim') (is_dirty o)))
    /\ file_desc anim' = Some parser
    /\ start_frame anim' = start /\ current_frame anim' = start
    /\ fps anim' = fps_ /\ repeat anim' = repeat_
    /\ is_playing anim' = is_playing anim
    /\ frame anim' = frame anim
    /\ (1 <= total_frames parser ->
        end_frame anim' = Z.min end_ (total_frames parser - 1))
    /\ (total_frames parser = 0 -> end_frame anim' = end_).
Proof.
  intros Htype Hsrc Hdesc Htotal Hend Hfps. unfold gfx_anim_set_segment.
  rewrite Htype, Hsrc, Hdesc. cbv beta zeta.
  assert (Htimer :
            exists t,
              (if negb (fps anim =? fps_) then
                 match timer anim with
                 | Some _ => if fps_ =? 0 then None else Some (Some (1000 / fps_))
                 | None => Some None
                 end
               else Some (timer anim)) = Some t).
  { destruct (negb _); [|eauto]. destruct (timer anim); [|eauto].
    destruct (Z.eqb_spec fps_ 0); [lia | eauto]. }
  destruct Htimer as [t ->]. cbv beta.
  eexists. split; [reflexivity|].
  cbn [file_desc start_frame current_frame fps repeat is_playing frame
       end_frame].
  repeat split.
  - intros H1. rewrite sz_small by lia. zcase; lia.
  - intros H0. rewrite H0. change (sz (0 - 1)) with (2 ^ 32 - 1).
    zcase; [lia | reflexivity].
Qed.

(** X22.  From a container to playback.  On an animation object, after
    [gfx_anim_set_src] with a container of at least one frame,
    [gfx_anim_set_segment] with [start <= end], [start] a frame of the
    file, a frame rate greater than 0 and [repeat] set, and
    [gfx_anim_start]: all three calls return [ESP_OK], and after any number
    of timer periods the animation is playing, its current frame lies in
    the segment and is a frame of the file, for which
    [gfx_aaf_format_get_frame_data] returns data.  The frame rate is the
    caller's to get right: [gfx_anim_set_segment] does not check it and
    divides by it. *)
Theorem playing_frame_is_in_file
        (o : gfx_obj_t) (anim : gfx_anim_property_t) (data : list Z)
        (parser : gfx_aaf_format_ctx_t) (start end_ fps_ : Z) :
  type o = GFX_OBJ_TYPE_ANIMATION ->
  src o = Some anim ->
  gfx_aaf_format_init data = Some (ESP_OK, Some parser) ->
  0 <= start <= end_ ->
  start < total_frames parser ->
  end_ < 2 ^ 32 ->
  0 < fps_ ->
  exists o1 o2 o3,
    gfx_anim_set_src (Some o) (Some data) = Some (Esp ESP_OK, Some o1)
    /\ gfx_anim_set_segment (Some o1) start end_ fps_ true
       = Some (Esp ESP_OK, Some o2)
    /\ gfx_anim_start (Some o2) = (Esp ESP_OK, Some o3)
    /\ forall n,
         exists anim',
           src (ticks n o3) = Some anim'
           /\ is_playing anim' = true
           /\ start <= current_frame anim'
              <= Z.min end_ (total_frames parser - 1)
           /\ exists v,
                gfx_aaf_format_get_frame_data parser (current_frame anim')
                = Value v.
Proof.
  intros Htype Hsrc Hinit Hstart Hfile Hend Hfps.
  destruct (format_init_handle _ _ _ Hinit) as (_ & Hlen & Htotal).
  assert (Htimer :
            exists t,
              (if negb (fps anim =? fps_) then
                 match timer anim with
                 | Some _ => if fps_ =? 0 then None else Some (Some (1000 / fps_))
                 | None => Some None
                 end
               else Some (timer anim)) = Some t).
  { destruct (negb _); [|eauto]. destruct (timer anim); [|eauto].
    destruct (Z.eqb_spec fps_ 0); [lia | eauto]. }
  destruct Htimer as [t Htimer].
  assert (Hstop : is_playing (if is_playing anim then set_playing anim false
                              else anim) = false)
    by (destruct (is_playing anim) eqn:E; [reflexivity | now rewrite E]).
  assert (Hfps' : fps (if is_playing anim then set_playing anim false
                       else anim) = fps anim)
    by (destruct (is_playing anim); reflexivity).
  assert (Htm' : timer (if is_playing anim then set_playing anim false
                        else anim) = timer anim)
    by (destruct (is_playing anim); reflexivity).
  unfold gfx_anim_set_src. rewrite Htype, Hsrc, Hinit. cbv beta zeta.
  cbn [snd]. eexists. eexists. eexists.
  split; [reflexivity|].
  unfold gfx_anim_set_segment.
  cbn [type src file_desc fps timer is_dirty set_frame set_playing
       is_playing].
  rewrite Hfps', Htm', Htimer, Hstop.
  cbv beta. split; [reflexivity|].
  unfold gfx_anim_start, on_animation.
  cbn [type src file_desc is_playing is_dirty fst snd].
  split; [reflexivity|].
  intros n.
  rewrite sz_small by lia.
  assert (Hmin : (if end_ >? total_frames parser - 1
                  then total_frames parser - 1 else end_)
                 = Z.min end_ (total_frames parser - 1))
    by (zcase; lia).
  rewrite Hmin.
  match goal with
  | |- context [ticks n (mk_obj ?t (Some ?a) ?d)] =>
    assert (Hlo : 0 <= start_frame a <= current_frame a)
      by (cbn [start_frame current_frame set_current set_playing]; lia);
    assert (Hhi : current_frame a <= end_frame a < 2 ^ 32 - 1)
      by (cbn [start_frame current_frame end_frame set_current set_playing];
          lia);
    destruct (ticks_repeat (mk_obj t (Some a) d) a n eq_refl eq_refl eq_refl
                           Hlo Hhi) as [Eticks Hrange]
  end.
  rewrite Eticks. eexists. split; [reflexivity|].
  cbn [is_playing set_current set_playing current_frame start_frame
       end_frame] in Hrange |- *.
  split; [reflexivity|]. split; [lia|].
  apply frame_data_of_valid_index; [assumption | lia].
Qed.

End AnimFacts.

(** ** Frame preparation *)

Section PreprocessFacts.

Import Header Container Render Cache Paint Preprocess.

Lemma unresolved_cache_consistent (header : gfx_aaf_header_t) (swap : bool)
      (n : nat) :
  consistent header swap (List.repeat UNRESOLVED n).
Proof.
  intros index slot. unfold load. destruct (index <? 0); [discriminate|].
  intros E. apply nth_error_In, repeat_spec in E. now left.
Qed.

(** A parse that does not give a split bitmap leaves a header of width 0. *)
Lemma parse_header_other_width (data : list Z) (fmt : gfx_aaf_format_t)
      (h : gfx_aaf_header_t) :
  gfx_aaf_parse_header data = Some (fmt, h) ->
  fmt <> GFX_AAF_FORMAT_SBMP -> width h = 0.
Proof.
  unfold gfx_aaf_parse_header.
  destruct (slice data 0 2) as [tag|]; [|discriminate]. cbv beta.
  destruct (tag_eqb tag tag_S).
  - destruct (slice data 3 6); [|discriminate]. cbv beta.
    destruct (load data 9) as [depth|]; [|discriminate]. cbv beta.
    destruct (negb _).
    + intros E. injection E as <- <-. reflexivity.
    + destruct (load16 data 10); [|discriminate]. cbv beta.
      destruct (load16 data 12); [|discriminate]. cbv beta.
      destruct (load16 data 14); [|discriminate]. cbv beta.
      destruct (load16 data 16); [|discriminate]. cbv beta.
      destruct (read_block_len _ data 0); [|discriminate]. cbv beta.
      destruct (depth =? 24).
      * intros E. injection E as <- <-. congruence.
      * cbv zeta. destruct (slice data _ _); [|discriminate].
        intros E. injection E as <- <-. congruence.
  - destruct (tag_eqb tag tag_R).
    + destruct (load data 2); [|discriminate]. cbv beta.
      destruct (slice data 3 _); [|discriminate].
      intros E. injection E as <- <-. reflexivity.
    + intros E. injection E as <- <-. reflexivity.
Qed.

Variable decode_block : Z -> bool -> esp_err_t.
Variable malloc_zero : bool.

(** X23.  What [gfx_anim_preprocess_frame] leaves behind.  The cached
    block is reset in every case.  When the call returns [false] the frame
    is not bound and a draw paints nothing.  When it returns [true] the
    frame data was found in the container and parsed as a split bitmap of
    depth 4, 8 or 24, the three buffers are there, the offsets stored are
    those of [gfx_aaf_calculate_offsets], and the palette cache has one
    unresolved slot for each of the [2 ^ bit_depth] colours, which agrees
    with the palette (there is no cache at depth 24).  This holds whichever
    way the allocator answers a request for zero bytes. *)
Theorem preprocess_outcome
        (data : list Z) (parser : gfx_aaf_format_ctx_t) (current : Z)
        (frame0 : gfx_anim_frame_info_t) (p : prepared) :
  gfx_anim_preprocess_frame malloc_zero data parser current frame0 = Some p ->
  let h := header (frame p) in
  last_block (frame p) = -1
  /\ (ret p = false ->
      bound (frame p) = false
      /\ forall obj_x obj_y req swap,
           gfx_draw_animation decode_block (frame p) obj_x obj_y req swap
           = (frame p, []))
  /\ (ret p = true ->
      frame_data (frame p) = true /\ block_offsets (frame p) = true
      /\ pixel_buffer (frame p) = true
      /\ (bit_depth h = 4 \/ bit_depth h = 8 \/ bit_depth h = 24)
      /\ offsets p = gfx_aaf_calculate_offsets h
      /\ (exists frame_data,
            gfx_aaf_format_get_frame_data parser (to_int current)
            = Value frame_data
            /\ gfx_aaf_parse_header (skipn (Z.to_nat frame_data) data)
               = Some (GFX_AAF_FORMAT_SBMP, h))
      /\ match color_palette p with
         | None => bit_depth h = 24
         | Some cache =>
           Z.of_nat (length cache) = 2 ^ bit_depth h
           /\ forall swap, consistent h swap cache
         end).
Proof.
  unfold gfx_anim_preprocess_frame.
  assert (Hunbound :
            forall f, bound f = false ->
              forall obj_x obj_y req swap,
                gfx_draw_animation decode_block f obj_x obj_y req swap
                = (f, [])).
  { intros f Hf obj_x obj_y req swap.
    destruct (draw_runs_blocks_loop decode_block f obj_x obj_y req swap)
      as [E|(Hb & _)]; [exact E | congruence]. }
  destruct (gfx_aaf_format_get_frame_data parser (to_int current))
    as [|addr|] eqn:Eaddr; [|
                            |discriminate].
  - intros E. injection E as <-. cbn [frame ret last_block].
    split; [reflexivity|]. split; [|discriminate].
    intros _. split; [reflexivity|]. now apply Hunbound.
  - destruct (gfx_aaf_parse_header _) as [[fmt hdr]|] eqn:Eparse;
      [|discriminate].
    cbv beta zeta. cbn [fst snd].
    assert (Hfail :
              last_block (mk_frame hdr true false false (-1)) = -1
              /\ (false = false ->
                  bound (mk_frame hdr true false false (-1)) = false
                  /\ forall obj_x obj_y req swap,
                       gfx_draw_animation decode_block
                                          (mk_frame hdr true false false (-1))
                                          obj_x obj_y req swap
                       = (mk_frame hdr true false false (-1), []))).
    { split; [reflexivity|]. intros _.
      assert (bound (mk_frame hdr true false false (-1)) = false) as Hb
          by (unfold bound; cbn [frame_data block_offsets pixel_buffer];
              now rewrite andb_false_r).
      split; [exact Hb | now apply Hunbound]. }
    assert (Hfailed :
              forall q,
                Some (mk_prepared false (mk_frame hdr true false false (-1))
                                  [] 0 None) = Some q ->
                last_block (frame q) = -1
                /\ (ret q = false ->
                    bound (frame q) = false
                    /\ forall obj_x obj_y req swap,
                         gfx_draw_animation decode_block (frame q)
                                            obj_x obj_y req swap
                         = (frame q, []))
                /\ (ret q = true ->
                    frame_data (frame q) = true
                    /\ block_offsets (frame q) = true
                    /\ pixel_buffer (frame q) = true
                    /\ (bit_depth (header (frame q)) = 4
                        \/ bit_depth (header (frame q)) = 8
                        \/ bit_depth (header (frame q)) = 24)
                    /\ offsets q = gfx_aaf_calculate_offsets (header (frame q))
                    /\ (exists frame_data,
                          Value addr = Value frame_data
                          /\ gfx_aaf_parse_header
                               (skipn (Z.to_nat frame_data) data)
                             = Some (GFX_AAF_FORMAT_SBMP, header (frame q)))
                    /\ match color_palette q with
                       | None => bit_depth (header (frame q)) = 24
                       | Some cache =>
                         Z.of_nat (length cache)
                         = 2 ^ bit_depth (header (frame q))
                         /\ forall swap,
                             consistent (header (frame q)) swap cache
                       end)).
    { intros q E. injection E as <-. cbn [frame ret].
      destruct Hfail as [H1 H2].
      split; [exact H1|]. split; [exact H2 | discriminate]. }
    destruct fmt; try exact (Hfailed p).
    destruct (negb (allocated malloc_zero (blocks hdr * 4)));
      [exact (Hfailed p)|].
    destruct (pixel_bytes hdr) as [[n|]|] eqn:Esize; [
                                                     |
                                                     |discriminate];
      cbv beta; [|exact (Hfailed p)].
    destruct (negb (allocated malloc_zero n)); [exact (Hfailed p)|].
    destruct (blocks hdr =? 0); [discriminate|].
    intros E. injection E as <-.
    cbn [frame ret last_block header frame_data block_offsets pixel_buffer
         offsets color_palette].
    destruct (parse_header_sbmp _ _ Eparse) as (_ & Hdepth & _).
    split; [reflexivity|]. split; [discriminate|]. intros _.
    repeat (split; [reflexivity || assumption|]).
    split; [eauto|].
    unfold color_depth.
    destruct Hdepth as [Hd|[Hd|Hd]]; rewrite Hd; cbn [Z.eqb Pos.eqb];
      try reflexivity;
      (split; [reflexivity | intros swap; apply unresolved_cache_consistent]).
Qed.


End PreprocessFacts.

(** ** The pixel buffer of a 4-bit frame and the capacity given to the
    block decoder *)

Section PixelBuffer.

Import Header Layout Preprocess.

Variable gfx_jpeg_decode : list Z -> Z -> Z -> bool -> esp_err_t * stores.

Lemma fits_fitting (runs : list Rle.run) :
  forall room, fits runs room = true -> fitting runs room = runs.
Proof.
  induction runs as [|r runs IH]; intros room; cbn [fits fitting];
    [reflexivity|].
  intros H. apply andb_prop in H as [-> H]. now rewrite IH.
Qed.

(** X25.  For a frame of depth 4, [gfx_anim_preprocess_frame] allocates
    [width * (block_height + block_height % 2) / 2] bytes of pixel buffer,
    while the block decoder is called with the capacity
    [width * block_height].  A run-length block whose expansion is longer
    than the buffer and no longer than that capacity is therefore
    accepted: the decoder returns [ESP_OK] and stores past the end of the
    pixel buffer. *)
Theorem four_bit_block_overruns_pixel_buffer
        (pre post : list Z) (runs : list Rle.run) (offsets : list Z)
        (header : gfx_aaf_header_t) (block : Z) (scratch : list Z)
        (swap : bool) (size : Z) :
  bit_depth header = 4 ->
  0 <= width header -> 0 <= block_height header ->
  width header * block_height header < 2 ^ 32 - 255 ->
  pixel_bytes header = Some (Some size) ->
  block_at pre (rle_block runs) offsets header block ->
  forallb run_byte runs = true ->
  Z.of_nat (length (rle_block runs)) < 2 ^ 32 - 1 ->
  fits runs (width header * block_height header) = true ->
  size < Z.of_nat (length (Rle.expand runs)) ->
  exists r,
    Block.gfx_anim_decode_block gfx_jpeg_decode (pre ++ rle_block runs ++ post)
                                offsets header block scratch (width header)
                                (block_height header) swap
    = Some r
    /\ Block.ret r = ESP_OK
    /\ Block.to_decode_buffer r = write_from 0 (Rle.expand runs)
    /\ in_bounds size (Block.to_decode_buffer r) = false
    /\ size = Z.quot (width header
                      * (block_height header + Z.rem (block_height header) 2))
                     2.
Proof.
  intros Hdepth Hw Hbh Hcap Hsize Hat Hok Hlen Hfits Hover.
  destruct (rle_block_result gfx_jpeg_decode pre post runs offsets header
                             block (width header) (block_height header)
                             scratch swap Hat Hok Hlen ltac:(nia))
    as [E _].
  rewrite Hfits, (fits_fitting _ _ Hfits) in E.
  eexists. split; [exact E|]. cbn [Block.ret Block.to_decode_buffer].
  split; [reflexivity|]. split; [reflexivity|].
  unfold pixel_bytes in Hsize. rewrite Hdepth in Hsize.
  cbn [Z.eqb Pos.eqb] in Hsize.
  destruct (_ <? 2 ^ 31); [|discriminate]. injection Hsize as <-.
  split; [|reflexivity].
  apply write_from_out_of_bounds; [|lia].
  split; [lia|].
  assert (0 <= Z.rem (block_height header) 2)
    by (apply Z.rem_nonneg; lia).
  assert (0 <= Z.quot (width header
                       * (block_height header + Z.rem (block_height header) 2))
                      2)
    by (apply Z.quot_pos; nia).
  lia.
Qed.

End PixelBuffer.

(** ** Object alignment *)

Section AlignFacts.

Import Align.

Variable coord : Z -> Z.

(** [gfx_coord_t] holds every integer of 16 bits. *)
Hypothesis coord_small : forall z, - 2 ^ 15 <= z < 2 ^ 15 -> coord z = z.

(** X26.  The position computed for an aligned object that is not
    larger than its parent, with sizes below 2^14 and offsets within
    (-2^14, 2^14).  With offsets 0, each of the nine inner alignments
    puts the object inside the parent and each of the twelve outer ones
    puts it outside, touching no pixel of the parent; the offsets then
    move the object by that much.  An alignment type the switch does not
    name, or an object that does not use alignment, gives [(obj->x,
    obj->y)]. *)
Theorem aligned_position_inside_or_outside
        (obj : gfx_obj_t) (parent_width parent_height : Z) :
  0 <= width obj <= parent_width -> parent_width < 2 ^ 14 ->
  0 <= height obj <= parent_height -> parent_height < 2 ^ 14 ->
  - 2 ^ 14 < align_x_ofs obj < 2 ^ 14 ->
  - 2 ^ 14 < align_y_ofs obj < 2 ^ 14 ->
  - 2 ^ 15 <= x obj < 2 ^ 15 -> - 2 ^ 15 <= y obj < 2 ^ 15 ->
  let p :=
    gfx_obj_calculate_aligned_position coord obj parent_width parent_height in
  let px := fst p - align_x_ofs obj in
  let py := snd p - align_y_ofs obj in
  (use_align obj = true -> inner (align_type obj) = true ->
   0 <= px /\ px + width obj <= parent_width
   /\ 0 <= py /\ py + height obj <= parent_height)
  /\ (use_align obj = true -> outer (align_type obj) = true ->
      px + width obj <= 0 \/ parent_width <= px
      \/ py + height obj <= 0 \/ parent_height <= py)
  /\ (use_align obj = true -> align_type obj = GFX_ALIGN_CENTER ->
      0 <= (parent_width - width obj) - 2 * px <= 1
      /\ 0 <= (parent_height - height obj) - 2 * py <= 1)
  /\ (use_align obj = false \/ align_type obj = GFX_ALIGN_other ->
      p = (x obj, y obj)).
Proof.
  intros Hw Hpw Hh Hph Hdx Hdy Hx Hy p px py.
  assert (Hqx : 0 <= (parent_width - width obj)
                     - 2 * Z.quot (parent_width - width obj) 2 <= 1).
  { rewrite Z.quot_div_nonneg by lia.
    pose proof (Z.div_mod (parent_width - width obj) 2 ltac:(lia)).
    pose proof (Z.mod_pos_bound (parent_width - width obj) 2 ltac:(lia)).
    lia. }
  assert (Hqy : 0 <= (parent_height - height obj)
                     - 2 * Z.quot (parent_height - height obj) 2 <= 1).
  { rewrite Z.quot_div_nonneg by lia.
    pose proof (Z.div_mod (parent_height - height obj) 2 ltac:(lia)).
    pose proof (Z.mod_pos_bound (parent_height - height obj) 2 ltac:(lia)).
    lia. }
  subst p px py. unfold gfx_obj_calculate_aligned_position.
  rewrite (coord_small parent_width), (coord_small parent_height) by lia.
  cbv zeta.
  destruct (use_align obj); cbn [negb].
  - destruct (align_type obj); cbn [inner outer negb fst snd];
      rewrite ?coord_small by lia;
      (repeat split; intros; try discriminate; try lia;
       try (destruct H; discriminate)).
  - cbn [fst snd]. rewrite !coord_small by lia.
    repeat split; intros; try discriminate; try reflexivity.
Qed.

End AlignFacts.

(** ** Container round trip *)

Section ContainerRoundTrip.

Import Header Container Layout HeaderLayout ContainerLayout.

Lemma load32_le32 (pre post : list Z) (x : Z) :
  is_u32 x = true ->
  load32 (pre ++ le32 x ++ post) (Z.of_nat (length pre)) = Some x.
Proof.
  intros Hx. unfold load32, le32. cbn [app].
  rewrite <- (Z.add_0_r (Z.of_nat (length pre))) at 1.
  rewrite !load_app_r by lia.
  change (load (?a :: ?b :: ?c :: ?d :: ?t) 0) with (Some a).
  change (load (?a :: ?b :: ?c :: ?d :: ?t) 1) with (Some b).
  change (load (?a :: ?b :: ?c :: ?d :: ?t) 2) with (Some c).
  change (load (?a :: ?b :: ?c :: ?d :: ?t) 3) with (Some d).
  cbv beta match. f_equal. now apply le32_join.
Qed.

Lemma is_u32_small (x : Z) : 0 <= x < 2 ^ 32 -> is_u32 x = true.
Proof. intros H. unfold is_u32. do 2 (zcase; [|lia]). reflexivity. Qed.

Lemma table_bytes_length (t : list (Z * Z)) :
  length (table_bytes t) = (8 * length t)%nat.
Proof. induction t; simpl in *; lia. Qed.

Lemma table_bytes_app (t1 t2 : list (Z * Z)) :
  table_bytes (t1 ++ t2) = table_bytes t1 ++ table_bytes t2.
Proof. unfold table_bytes. now rewrite flat_map_app. Qed.

Lemma table_of_length (frames : list (list Z)) :
  forall off, length (table_of off frames) = length frames.
Proof. induction frames; intros; simpl; auto. Qed.

(** The table loop on the bytes of a container: [done_t] and [done_b] are
    the table entries and the stored frames it has passed. *)
Lemma entries_loop_layout (rest pre16 : list Z) (total : Z)
      (todo : list (list Z)) :
  forall (done_t : list (Z * Z)) (done_b : list Z),
    length pre16 = 16%nat ->
    Z.of_nat (length done_t + length todo) = total ->
    16 + 8 * total
    + Z.of_nat (length (done_b ++ concat (map blob todo))) < 2 ^ 31 ->
    entries_loop (length todo)
                 (pre16
                    ++ (table_bytes done_t
                          ++ table_bytes
                               (table_of (Z.of_nat (length done_b)) todo))
                    ++ (done_b ++ concat (map blob todo)) ++ rest)
                 total (Z.of_nat (length done_t))
    = Some (inr (entries_of (16 + 8 * total)
                            (table_of (Z.of_nat (length done_b)) todo))).
Proof.
  induction todo as [|f todo IH]; intros done_t done_b Hpre Htotal Hsize;
    [reflexivity|].
  cbn [length] in Htotal.
  set (size := Z.of_nat (length (blob f))).
  set (off := Z.of_nat (length done_b)).
  set (t' := table_of (off + size) todo).
  change (table_of off (f :: todo)) with ((size, off) :: t').
  assert (Hsz : 0 <= size /\ 0 <= off) by (unfold size, off; lia).
  assert (Hblob : Z.of_nat (length (done_b ++ concat (map blob (f :: todo))))
                  = off + size + Z.of_nat (length (concat (map blob todo)))).
  { cbn [map concat]. rewrite !length_app. unfold off, size. lia. }
  rewrite Hblob in Hsize.
  assert (Hdata :
            pre16 ++ (table_bytes done_t ++ table_bytes ((size, off) :: t'))
              ++ (done_b ++ concat (map blob (f :: todo))) ++ rest
            = pre16 ++ table_bytes done_t ++ le32 size ++ le32 off
                ++ table_bytes t' ++ done_b
                ++ 90 :: 90 :: f ++ concat (map blob todo) ++ rest).
  { cbn [table_bytes flat_map fst snd map concat blob].
    rewrite <- !app_assoc. reflexivity. }
  rewrite Hdata.
  set (data := pre16 ++ table_bytes done_t ++ le32 size ++ le32 off
                 ++ table_bytes t' ++ done_b
                 ++ 90 :: 90 :: f ++ concat (map blob todo) ++ rest).
  assert (E1 : load32 data (16 + Z.of_nat (length done_t) * 8) = Some size).
  { replace (16 + Z.of_nat (length done_t) * 8)
      with (Z.of_nat (length (pre16 ++ table_bytes done_t)))
      by (rewrite length_app, table_bytes_length, Hpre; lia).
    unfold data. rewrite (app_assoc pre16 (table_bytes done_t)).
    apply load32_le32, is_u32_small. lia. }
  assert (E2 : load32 data (16 + Z.of_nat (length done_t) * 8 + 4)
               = Some off).
  { replace (16 + Z.of_nat (length done_t) * 8 + 4)
      with (Z.of_nat (length ((pre16 ++ table_bytes done_t) ++ le32 size)))
      by (rewrite !length_app, table_bytes_length, Hpre; cbn [le32 length];
          lia).
    unfold data. rewrite (app_assoc pre16 (table_bytes done_t)).
    rewrite (app_assoc (pre16 ++ table_bytes done_t) (le32 size)).
    apply load32_le32, is_u32_small. lia. }
  assert (Hmem : sz (16 + sz (total * 8) + off) = 16 + 8 * total + off).
  { rewrite (sz_small (total * 8)) by lia. rewrite sz_small; lia. }
  assert (E3 : load16 data (16 + 8 * total + off) = Some GFX_AAF_MAGIC_HEAD).
  { replace (16 + 8 * total + off)
      with (Z.of_nat (length (pre16 ++ table_bytes done_t ++ le32 size
                                ++ le32 off ++ table_bytes t' ++ done_b))).
    2:{ rewrite !length_app, !table_bytes_length. cbn [le32 length].
        unfold t'. rewrite table_of_length, Hpre. unfold off. lia. }
    replace data
      with ((pre16 ++ table_bytes done_t ++ le32 size ++ le32 off
               ++ table_bytes t' ++ done_b)
              ++ 90 :: 90 :: (f ++ concat (map blob todo) ++ rest))
      by (unfold data; now rewrite <- !app_assoc).
    unfold load16. rewrite load_app_head, load_app_next. reflexivity. }
  cbn [length entries_loop]. unfold GFX_AAF_TABLE_OFFSET.
  rewrite E1. cbv beta. rewrite E2. cbv beta zeta. rewrite Hmem, E3.
  cbv beta. rewrite Z.eqb_refl. cbn [negb].
  (* the rest of the table *)
  specialize (IH (done_t ++ [(size, off)]) (done_b ++ blob f) Hpre).
  replace (Z.of_nat (length (done_b ++ blob f))) with (off + size) in IH
    by (rewrite length_app; unfold off, size; lia).
  fold t' in IH.
  replace (Z.of_nat (length (done_t ++ [(size, off)])))
    with (Z.of_nat (length done_t) + 1) in IH
    by (rewrite length_app; cbn [length]; lia).
  replace (pre16 ++ (table_bytes (done_t ++ [(size, off)]) ++ table_bytes t')
             ++ ((done_b ++ blob f) ++ concat (map blob todo)) ++ rest)
    with data in IH.
  2:{ unfold data. rewrite table_bytes_app.
      cbn [table_bytes flat_map fst snd blob].
      rewrite app_nil_r. rewrite <- !app_assoc. reflexivity. }
  rewrite IH; [reflexivity | |].
  - rewrite length_app. cbn [length] in *. lia.
  - rewrite !length_app in *. unfold off, size in *. lia.
Qed.

Lemma table_of_nth (l1 l2 : list (list Z)) (f : list Z) :
  forall off,
    nth_error (table_of off (l1 ++ f :: l2)) (length l1)
    = Some (Z.of_nat (length (blob f)),
            off + Z.of_nat (length (concat (map blob l1)))).
Proof.
  induction l1 as [|g l1 IH]; intros off.
  - cbn. now rewrite Z.add_0_r.
  - cbn [app table_of length nth_error map concat]. rewrite IH.
    do 2 f_equal. rewrite length_app. lia.
Qed.

Lemma to_int_small (z : Z) : 0 <= z < 2 ^ 31 -> to_int z = z.
Proof.
  intros H. unfold to_int. cbv zeta. rewrite sz_small by lia.
  zcase; lia.
Qed.

(** X27.  Container round trip.  For frames laid out as a container
    (0x89 "AAF", frame count, checksum and length of the body, table of
    sizes and offsets, then each frame behind its 0x5A5A magic), of less
    than 2^31 bytes in all: [gfx_aaf_format_init] accepts the bytes and
    returns a handle with as many frames, and for every frame the
    accessors return its position in the buffer and its length. *)
Theorem container_roundtrip (frames : list (list Z)) (rest : list Z) :
  Z.of_nat (length (serialize_container frames)) < 2 ^ 31 ->
  let data := serialize_container frames ++ rest in
  exists parser,
    gfx_aaf_format_init data = Some (ESP_OK, Some parser)
    /\ total_frames parser = Z.of_nat (length frames)
    /\ forall i f,
         nth_error frames i = Some f ->
         exists addr,
           gfx_aaf_format_get_frame_data parser (Z.of_nat i) = Value addr
           /\ gfx_aaf_format_get_frame_size parser (Z.of_nat i)
              = Value (Z.of_nat (length f))
           /\ firstn (length f) (skipn (Z.to_nat addr) data) = f.
Proof.
  intros Hsize data.
  set (n := Z.of_nat (length frames)).
  set (chk := sz (byte_sum (body frames))).
  set (len := Z.of_nat (length (body frames))).
  set (pre16 := [137; 65; 65; 70] ++ le32 n ++ le32 chk ++ le32 len).
  assert (Hdata : data = pre16 ++ body frames ++ rest).
  { unfold data, serialize_container, pre16. fold n chk len.
    now rewrite <- !app_assoc. }
  assert (Hpre : length pre16 = 16%nat) by reflexivity.
  assert (Hlen : Z.of_nat (length (serialize_container frames))
                 = 16 + len).
  { unfold serialize_container. fold n chk len.
    rewrite !length_app. cbn [le32 length]. unfold len. lia. }
  assert (Hbody : len = 8 * n + Z.of_nat (length (concat (map blob frames)))).
  { unfold len, body. rewrite length_app, table_bytes_length, table_of_length.
    unfold n. lia. }
  assert (Hchk : 0 <= chk < 2 ^ 32)
    by (apply Z.mod_pos_bound; reflexivity).
  exists (mk_ctx (entries_of (16 + 8 * n) (table_of 0 frames)) n).
  split; [|split; [reflexivity|]].
  - unfold gfx_aaf_format_init.
    unfold GFX_AAF_FORMAT_OFFSET, GFX_AAF_STR_OFFSET, GFX_AAF_NUM_OFFSET,
      GFX_AAF_CHECKSUM_OFFSET, GFX_AAF_TABLE_LEN, GFX_AAF_TABLE_OFFSET.
    assert (E0 : load data 0 = Some GFX_AAF_FORMAT_MAGIC) by reflexivity.
    assert (Es : slice data 1 3 = Some GFX_AAF_FORMAT_STR).
    { rewrite Hdata. unfold pre16.
      exact (slice_at [137] [65; 65; 70] _). }
    assert (En : load32 data 4 = Some n).
    { rewrite Hdata. unfold pre16. rewrite <- !app_assoc.
      apply (load32_le32 [137; 65; 65; 70]), is_u32_small. lia. }
    assert (Ec : load32 data 8 = Some chk).
    { rewrite Hdata. unfold pre16. rewrite <- !app_assoc.
      rewrite (app_assoc [137; 65; 65; 70] (le32 n)).
      apply (load32_le32 ([137; 65; 65; 70] ++ le32 n)), is_u32_small. lia. }
    assert (El : load32 data 12 = Some len).
    { rewrite Hdata. unfold pre16. rewrite <- !app_assoc.
      rewrite (app_assoc [137; 65; 65; 70] (le32 n)).
      rewrite (app_assoc ([137; 65; 65; 70] ++ le32 n) (le32 chk)).
      apply (load32_le32 (([137; 65; 65; 70] ++ le32 n) ++ le32 chk)),
        is_u32_small. lia. }
    rewrite E0. cbv beta. rewrite Z.eqb_refl. cbn [negb].
    rewrite Es. cbv beta. cbn [str_eqb GFX_AAF_FORMAT_STR Z.eqb Pos.eqb andb
                                 negb].
    rewrite En. cbv beta zeta. rewrite Ec. cbv beta. rewrite El. cbv beta.
    rewrite calc_checksum_spec.
    assert (Hskip : skipn (Z.to_nat 16) data = body frames ++ rest).
    { rewrite Hdata. change (Z.to_nat 16) with (length pre16).
      now rewrite skipn_app, skipn_all, Nat.sub_diag. }
    rewrite Hskip. unfold len at 1 2. rewrite Nat2Z.id.
    rewrite length_app.
    destruct (Nat.leb_spec (length (body frames))
                           (length (body frames) + length rest)); [|lia].
    cbv beta. rewrite firstn_app, firstn_all, Nat.sub_diag, firstn_O,
      app_nil_r.
    fold chk. rewrite Z.eqb_refl. cbn [negb].
    rewrite to_int_small by lia.
    pose proof (entries_loop_layout rest pre16 n frames [] [] Hpre
                                    ltac:(cbn [length]; unfold n; lia)
                                    ltac:(cbn [app length]; lia)) as Hloop.
    cbn [table_bytes flat_map app length Z.of_nat] in Hloop.
    fold (body frames) in Hloop.
    unfold n at 1. rewrite Nat2Z.id.
    replace data with (pre16 ++ body frames ++ rest).
    unfold body at 1. rewrite <- app_assoc.
    unfold table_bytes in Hloop |- *. rewrite Hloop. reflexivity.
  - intros i f Hnth.
    apply nth_error_split in Hnth as (l1 & l2 & Hframes & Hi). subst i.
    pose proof (table_of_nth l1 l2 f 0) as Ht. rewrite <- Hframes in Ht.
    set (o := Z.of_nat (length (concat (map blob l1)))) in *.
    rewrite Z.add_0_l in Ht.
    assert (Hblobs : concat (map blob frames)
                     = concat (map blob l1) ++ 90 :: 90 :: f
                         ++ concat (map blob l2)).
    { rewrite Hframes, map_app, concat_app. reflexivity. }
    assert (Hi : Z.of_nat (length l1) < n)
      by (unfold n; rewrite Hframes, length_app; cbn [length]; lia).
    assert (Hfl : Z.of_nat (length f) + 2 + o <= len - 8 * n).
    { rewrite Hbody, Hblobs, !length_app. cbn [length].
      rewrite length_app. unfold o. lia. }
    exists (16 + 8 * n + o + 2).
    unfold gfx_aaf_format_get_frame_data, gfx_aaf_format_get_frame_size,
      entry_at. cbn [total_frames entries].
    destruct (Z.gtb_spec n (Z.of_nat (length l1))) as [_|]; [|lia].
    destruct (Z.ltb_spec (Z.of_nat (length l1)) 0); [lia|].
    rewrite Nat2Z.id. unfold entries_of.
    rewrite (map_nth_error _ _ _ Ht). cbn [asset_mem table asset_size fst snd].
    unfold GFX_AAF_MAGIC_LEN.
    split; [reflexivity|]. split.
    + f_equal. cbn [blob length]. rewrite to_int_small; lia.
    + rewrite Hdata. unfold body. rewrite Hblobs.
      replace (pre16 ++ (table_bytes (table_of 0 frames)
                           ++ concat (map blob l1)
                           ++ 90 :: 90 :: f ++ concat (map blob l2)) ++ rest)
        with ((pre16 ++ table_bytes (table_of 0 frames)
                 ++ concat (map blob l1) ++ [90; 90])
                ++ f ++ concat (map blob l2) ++ rest)
        by (rewrite <- !app_assoc; cbn [app]; rewrite <- ?app_assoc;
            reflexivity).
      replace (Z.to_nat (16 + 8 * n + o + 2))
        with (length (pre16 ++ table_bytes (table_of 0 frames)
                        ++ concat (map blob l1) ++ [90; 90])).
      2:{ rewrite !length_app, table_bytes_length, table_of_length, Hpre.
          cbn [length]. unfold n, o. lia. }
      rewrite skipn_app, skipn_all, Nat.sub_diag. cbn [skipn app].
      now rewrite firstn_app, firstn_all, Nat.sub_diag, firstn_O, app_nil_r.
Qed.

End ContainerRoundTrip.

(** ** The further properties at concrete inputs *)

(** The runs (2, 7), (3, 9) and a capacity of four cells: the first run
    fits, the second does not. *)
Lemma rle_decode_by_capacity_witness :
  let runs := [(2, 7); (3, 9)] in
  exists r,
    Rle.gfx_aaf_rle_decode (Rle.encode runs ++ [])
                           (Z.of_nat (length (Rle.encode runs))) 4 = Some r
    /\ Rle.ret r = (if Layout.fits runs 4 then ESP_OK else ESP_FAIL)
    /\ Rle.written r = write_from 0 (Rle.expand (Layout.fitting runs 4))
    /\ in_bounds 4 (Rle.written r) = true.
Proof.
  intros runs.
  apply (rle_decode_by_capacity runs [] 4); [reflexivity | simpl; lia | lia].
Defined.

(** Two input bytes out of three. *)
Lemma rle_even_input_read_in_bounds_witness :
  exists r,
    Rle.gfx_aaf_rle_decode [2; 7; 1] (2 * 1) 10 = Some r
    /\ Forall (fun i => 0 <= i < 2 * 1) (Rle.read r).
Proof.
  apply (rle_even_input_read_in_bounds [2; 7; 1] 1 10);
    [lia | lia | simpl; lia].
Defined.

(** The table 65 -> 0, 66 -> 10, 67 -> 11 with two padding bits and the
    payload byte 0101_1001. *)
Lemma huffman_output_is_consecutive_witness :
  let dict := [2; 65; 1; 0; 66; 2; 2; 67; 2; 3] in
  let r := Huffman.mk_result ESP_OK 4 (write_from 0 [65; 66; 67; 65]) in
  Huffman.decode_huffman_data [89] 1 dict 10 = Some r
  /\ Huffman.written r = write_from 0 (map snd (Huffman.written r))
  /\ Huffman.output_len r = Z.of_nat (length (Huffman.written r))
  /\ Huffman.output_len r <= Huffman.total_bits 1 2
  /\ Huffman.total_bits 1 2 = 1 * 8 - 2.
Proof.
  intros dict r. split; [reflexivity|].
  destruct (huffman_output_is_consecutive [89] dict 1 10) as [H _].
  destruct (H r eq_refl) as (Hcells & Hcount & Hbits).
  destruct (Hbits 2 eq_refl) as [Hle Hexact].
  split; [exact Hcells|]. split; [exact Hcount|].
  split; [exact Hle | apply Hexact; lia].
Defined.

(** The same table and sequence as a block. *)
Lemma huffman_block_decodes_witness :
  let m := [(65, [false]); (66, [true; false]); (67, [true; true])] in
  let s := [65; 66; 67; 65] in
  let pad := [false; true] in
  (s <> [] ->
   Huffman.gfx_aaf_huffman_decode
     (Layout.huffman_block 3 m s pad ++ [])
     (Z.of_nat (length (Layout.huffman_block 3 m s pad))) 0
   = Some (Huffman.mk_result ESP_OK (Z.of_nat (length s)) (write_from 0 s)))
  /\ (s = [] ->
      Huffman.gfx_aaf_huffman_decode
        (Layout.huffman_block 3 m s pad ++ [])
        (Z.of_nat (length (Layout.huffman_block 3 m s pad))) 0
      = Some (Huffman.mk_result ESP_FAIL 0 [])).
Proof.
  intros m s pad.
  apply (huffman_block_decodes 3 m s pad [] 1 0);
    [reflexivity | reflexivity | reflexivity | simpl; lia | reflexivity
     | reflexivity | reflexivity].
Defined.

(** A run-length block of three pixels in a block of 2 x 2. *)
Lemma rle_block_decodes_witness :
  let jpeg := fun (_ : list Z) (_ _ : Z) (_ : bool) => (ESP_FAIL, @nil (Z * Z)) in
  let runs := [(2, 7); (1, 9)] in
  let header := Header.mk_header Header.tag_S [] 8 2 2 1 2 [5] 1046 [] 256 in
  Block.gfx_anim_decode_block jpeg ([] ++ Layout.rle_block runs ++ [])
                              [0] header 0 [] 2 2 false
  = Some (Block.mk_result
            (if Layout.fits runs (2 * 2) then ESP_OK else ESP_FAIL)
            (write_from 0 (Rle.expand (Layout.fitting runs (2 * 2))))
            [])
  /\ in_bounds (2 * 2)
               (write_from 0 (Rle.expand (Layout.fitting runs (2 * 2))))
     = true.
Proof.
  intros jpeg runs header.
  apply (rle_block_decodes jpeg [] [] runs [0] header 0 2 2 [] false);
    [split; reflexivity | reflexivity | simpl; lia | lia].
Defined.

(** A Huffman-direct block of four pixels in a block of 2 x 2. *)
Lemma huffman_direct_block_decodes_witness :
  let jpeg := fun (_ : list Z) (_ _ : Z) (_ : bool) => (ESP_FAIL, @nil (Z * Z)) in
  let m := [(65, [false]); (66, [true; false]); (67, [true; true])] in
  let s := [65; 66; 67; 65] in
  let pad := [false; true] in
  let header :=
    Header.mk_header Header.tag_S [] 8 2 2 1 2
                     [Z.of_nat (length (Layout.huffman_block 3 m s pad))]
                     1046 [] 256 in
  Block.gfx_anim_decode_block jpeg
                              ([] ++ Layout.huffman_block 3 m s pad ++ [])
                              [0] header 0 [] 2 2 false
  = Some (Block.mk_result
            (if Z.of_nat (length s) =? 2 * 2 then ESP_OK else ESP_FAIL)
            (write_from 0 s) []).
Proof.
  intros jpeg m s pad header.
  apply (huffman_direct_block_decodes jpeg [] [] m s pad 1 [0] header 0 2 2
                                      [] false);
    [split; reflexivity | reflexivity | reflexivity | reflexivity
     | simpl; lia | reflexivity | lia | reflexivity | reflexivity | lia].
Defined.

(** A Huffman block whose payload is the run-length stream 2, 7, 1, 9,
    and one whose stream of four runs of one pixel has eight bytes for a
    scratch buffer of four. *)
Lemma huffman_rle_block_decodes_witness :
  let jpeg := fun (_ : list Z) (_ _ : Z) (_ : bool) => (ESP_FAIL, @nil (Z * Z)) in
  let m := [(2, [false; false]); (7, [false; true]);
            (1, [true; false]); (9, [true; true])] in
  let header runs :=
    Header.mk_header Header.tag_S [] 8 2 2 1 2
                     [Z.of_nat (length (Layout.huffman_block
                                          1 m (Rle.encode runs) []))]
                     1046 [] 256 in
  let decode runs :=
    Block.gfx_anim_decode_block
      jpeg ([] ++ Layout.huffman_block 1 m (Rle.encode runs) [] ++ [])
      [0] (header runs) 0 [0; 0; 0; 0] 2 2 false in
  (decode [(2, 7); (1, 9)]
   = Some (Block.mk_result ESP_OK (write_from 0 [7; 7; 9])
                           (write_from 0 [2; 7; 1; 9]))
   /\ in_bounds (2 * 2) (write_from 0 [2; 7; 1; 9]) = true)
  /\ (decode [(1, 7); (1, 9); (1, 7); (1, 9)]
      = Some (Block.mk_result ESP_FAIL []
                              (write_from 0 [1; 7; 1; 9; 1; 7; 1; 9]))
      /\ in_bounds (2 * 2) (write_from 0 [1; 7; 1; 9; 1; 7; 1; 9]) = false).
Proof.
  intros jpeg m header decode. split.
  - apply (huffman_rle_block_decodes
             jpeg [] [] m [(2, 7); (1, 9)] [] 1 [0]
             (header [(2, 7); (1, 9)]) 0 2 2 [0; 0; 0; 0] false);
      [split; reflexivity | reflexivity | reflexivity | reflexivity
       | reflexivity | simpl; lia | reflexivity | reflexivity | reflexivity
       | reflexivity | lia].
  - apply (huffman_rle_block_decodes
             jpeg [] [] m [(1, 7); (1, 9); (1, 7); (1, 9)] [] 2 [0]
             (header [(1, 7); (1, 9); (1, 7); (1, 9)]) 0 2 2 [0; 0; 0; 0]
             false);
      [split; reflexivity | reflexivity | reflexivity | reflexivity
       | reflexivity | simpl; lia | reflexivity | reflexivity | reflexivity
       | reflexivity | lia].
Defined.

(** A 4-bit header of one block, with its palette of 16 colours. *)
Lemma parsed_header_is_consistent_witness :
  let h := Header.mk_header [95; 83] [0; 0; 0; 0; 0; 0] 4 2 2 1 2 [3] 86
                            (repeat 0 64) 16 in
  let data := [95; 83; 0; 0; 0; 0; 0; 0; 0; 4; 2; 0; 2; 0; 1; 0; 2; 0;
               3; 0; 0; 0] ++ repeat 0 64 ++ [0; 2; 7] in
  Header.gfx_aaf_parse_header data = Some (Header.GFX_AAF_FORMAT_SBMP, h)
  /\ Header.format h = Header.tag_S
  /\ (Header.bit_depth h = 4 \/ Header.bit_depth h = 8
      \/ Header.bit_depth h = 24)
  /\ length (Header.block_len h) = Z.to_nat (Header.blocks h)
  /\ Header.num_colors h
     = (if Header.bit_depth h =? 24 then 0 else 2 ^ Header.bit_depth h)
  /\ Z.of_nat (length (Header.palette h)) = 4 * Header.num_colors h
  /\ Header.data_offset h
     = (18 + Header.blocks h * 4 + Header.num_colors h * 4) mod 2 ^ 16
  /\ (Header.bit_depth h <> 24 ->
      18 + Header.blocks h * 4 + Header.num_colors h * 4
      <= Z.of_nat (length data)).
Proof.
  intros h data. split; [reflexivity|].
  apply (parsed_header_is_consistent data h). reflexivity.
Defined.

(** A header with the tag "_S" and the bit depth 5. *)
Lemma bad_header_is_invalid_witness :
  exists h,
    Header.gfx_aaf_parse_header [95; 83; 0; 0; 0; 0; 0; 0; 0; 5; 2; 0]
    = Some (Header.GFX_AAF_FORMAT_INVALID, h)
    /\ Header.width h = 0 /\ Header.block_len h = [] /\ Header.palette h = [].
Proof.
  apply (bad_header_is_invalid [95; 83; 0; 0; 0; 0; 0; 0; 0; 5; 2; 0]
                               [95; 83] 5);
    [reflexivity|].
  right. split; [reflexivity|]. split; [exists [0; 0; 0; 0; 0; 0]; reflexivity|].
  split; [reflexivity|]. repeat split; discriminate.
Defined.




(** A frame of two blocks of two rows with nothing cached, the request
    for the rows of block 1, and the pixel (1, 3). *)
Lemma draw_covers_request_witness :
  let header := Header.mk_header Header.tag_S [] 8 2 4 2 2 [3; 3] 1046 [] 256 in
  let frame := Pixels.mk_frame header true true (Some [6; 6; 6; 6]) (-1) in
  let decode_block :=
    fun (b : Z) (_ : bool) => (ESP_OK, write_from 0 [b; b; b; b]) in
  let req := Render.mk_area 0 2 2 4 in
  let b := (3 - 0) / Header.block_height header in
  let trace :=
    snd (Pixels.gfx_draw_animation decode_block frame 0 0 req false) in
  trace = [Pixels.Decoded 1 ESP_OK (write_from 0 [1; 1; 1; 1]);
           Pixels.Rendered 1 req [1; 1; 1; 1]]
  /\ (exists before clip source after,
        trace = before ++ Pixels.Rendered b clip source :: after
        /\ Area.covers clip 1 3
        /\ source = apply_stores [6; 6; 6; 6] (Pixels.stores_of before)
        /\ ((b = Pixels.last_block frame /\ Pixels.stores_of before = [])
            \/ exists before',
                 before
                 = before'
                     ++ [Pixels.Decoded b ESP_OK
                                        (snd (decode_block b false))]))
  /\ forall b' clip' source',
       In (Pixels.Rendered b' clip' source') trace -> Area.covers clip' 1 3 ->
       b' = b.
Proof.
  intros header frame decode_block req b trace. split; [reflexivity|].
  apply (draw_covers_request decode_block frame 0 0 req false 1 3
                             [6; 6; 6; 6]);
    [reflexivity
     | reflexivity
     | unfold Area.tiled; simpl; lia
     | reflexivity
     | intros; reflexivity
     | unfold Area.covers; simpl; lia
     | unfold Area.covers; simpl; lia].
Defined.

(** A frame of two blocks of 2 x 2 pixels whose block 1 is cached with the
    bytes 6, 6, 6, 6, and whose block 0 is the run-length block 2 x 7,
    3 x 9, one pixel too long.  A request for the whole frame decodes
    block 0, which stores 7, 7 and fails; block 1 is then rendered, with no
    decode, from 7, 7, 6, 6, and stays the cached block with those bytes. *)
Example failed_decode_spoils_cached_block :
  let jpeg :=
    fun (_ : list Z) (_ _ : Z) (_ : bool) => (ESP_FAIL, @nil (Z * Z)) in
  let header :=
    Header.mk_header [95; 83] [0; 0; 0; 0; 0; 0] 8 2 4 2 2 [5; 3] 1050
                     (repeat 0 1024) 256 in
  let data :=
    HeaderLayout.serialize_header 0 header ++ [0; 2; 7; 3; 9] ++ [0; 4; 6] in
  let decode_block :=
    fun (block : Z) (swap_color : bool) =>
      match Block.gfx_anim_decode_block
              jpeg data (Header.gfx_aaf_calculate_offsets header) header
              block [] (Header.width header) (Header.block_height header)
              swap_color with
      | Some r => (Block.ret r, Block.to_decode_buffer r)
      | None => (ESP_FAIL, [])
      end in
  let frame := Pixels.mk_frame header true true (Some [6; 6; 6; 6]) 1 in
  Header.gfx_aaf_parse_header data = Some (Header.GFX_AAF_FORMAT_SBMP, header)
  /\ decode_block 1 false = (ESP_OK, write_from 0 [6; 6; 6; 6])
  /\ Pixels.gfx_draw_animation decode_block frame 0 0
                               (Render.mk_area 0 0 2 4) false
     = (Pixels.mk_frame header true true (Some [7; 7; 6; 6]) 1,
        [Pixels.Decoded 0 ESP_FAIL (write_from 0 [7; 7]);
         Pixels.Rendered 1 (Render.mk_area 0 2 2 4) [7; 7; 6; 6]]).
Proof. repeat split; vm_compute; reflexivity. Qed.

(** A source of 2 x 2 indices, a grey palette of 256 entries and an
    unresolved cache. *)
Lemma render_8bit_paints_palette_colors_witness :
  let header :=
    Header.mk_header Header.tag_S [] 8 2 2 1 2 [5] 1046 (repeat 8 1024) 256 in
  let src_buf := [0; 1; 2; 3] in
  let clip := Render.mk_area 0 0 2 2 in
  let cache := repeat Render.UNRESOLVED 256 in
  exists cache' groups,
    Render.gfx_anim_render_8bit_pixels 2 src_buf 2 header clip false false
                                       0 0 cache
    = Some (cache', concat groups)
    /\ map Some groups
       = map (fun p => Paint.paint_8bit 2 src_buf 2 header false false 0 0
                                        (fst p) (snd p))
             (Paint.positions (2 - 0) (2 - 0))
    /\ Paint.consistent header false cache'
    /\ length cache' = 256%nat.
Proof.
  intros header src_buf clip cache.
  apply (render_8bit_paints_palette_colors
           2 src_buf 2 header false false 0 0
           ltac:(reflexivity) ltac:(simpl; lia) clip cache);
    [apply unresolved_cache_consistent | reflexivity | lia | simpl; lia
     | simpl; lia].
Defined.

(** A source of 2 x 2 pixels of two bytes. *)
Lemma render_24bit_copies_pixels_witness :
  let src_buf := [1; 0; 2; 0; 3; 0; 4; 0] in
  let clip := Render.mk_area 0 0 2 2 in
  exists groups,
    Render.gfx_anim_render_24bit_pixels 2 src_buf 2 clip false 0 0
    = Some (concat groups)
    /\ map Some groups
       = map (fun p => Paint.paint_24bit 2 src_buf 2 false 0 0
                                         (fst p) (snd p))
             (Paint.positions (2 - 0) (2 - 0)).
Proof.
  intros src_buf clip.
  apply (render_24bit_copies_pixels 2 src_buf 2 false 0 0 clip);
    [lia | simpl; lia | simpl; lia].
Defined.

(** One row of three pixels in two source bytes: the fourth nibble is
    stored at column 3. *)
Lemma render_4bit_paints_pixel_pairs_witness :
  let header :=
    Header.mk_header Header.tag_S [] 4 4 1 1 1 [3] 86 (repeat 8 64) 16 in
  let src_buf := [18; 52] in
  let clip := Render.mk_area 0 0 3 1 in
  let cache := repeat Render.UNRESOLVED 16 in
  exists cache' groups,
    Render.gfx_anim_render_4bit_pixels 4 src_buf 4 header clip false false
                                       0 0 cache
    = Some (cache', concat groups)
    /\ map Some groups
       = map (fun p => Paint.paint_4bit 4 src_buf 4 header false false 0 0
                                        (fst p) (2 * snd p))
             (Paint.positions (1 - 0) ((3 - 0 + 1) / 2))
    /\ Paint.consistent header false cache'
    /\ (0 < 3 - 0 -> Z.odd (3 - 0) = true ->
        forall y, 0 <= y < 1 - 0 ->
          exists color, In (y * 4 + (3 - 0), color) (concat groups)).
Proof.
  intros header src_buf clip cache.
  apply (render_4bit_paints_pixel_pairs
           4 src_buf 4 header false false 0 0
           ltac:(reflexivity) ltac:(simpl; lia) clip cache);
    [apply unresolved_cache_consistent | reflexivity | lia
     | intros _ _; reflexivity].
Defined.

(** Frames 2 to 5, playing at frame 3, seven timer periods. *)
Lemma playback_cycles_through_segment_witness :
  let frame :=
    Cache.mk_frame (Header.blank_header []) false false false (-1) in
  let anim := Anim.mk_anim None 2 5 3 30 true true None frame false 0 in
  let obj := Anim.mk_obj Anim.GFX_OBJ_TYPE_ANIMATION (Some anim) false in
  let current := 2 + (3 - 2 + Z.of_nat 7) mod (5 - 2 + 1) in
  Anim.ticks 7 obj
  = Anim.mk_obj Anim.GFX_OBJ_TYPE_ANIMATION
                (Some (Anim.set_current anim current))
                (if 0 <? Z.of_nat 7 then true else false)
  /\ 2 <= current <= 5.
Proof.
  intros frame anim obj.
  apply (playback_cycles_through_segment obj anim 7);
    [reflexivity | reflexivity | reflexivity | simpl; lia | simpl; lia].
Defined.

(** The same animation without repeat, seven timer periods. *)
Lemma playback_without_repeat_stops_past_end_witness :
  let frame :=
    Cache.mk_frame (Header.blank_header []) false false false (-1) in
  let anim := Anim.mk_anim None 2 5 3 30 false true None frame false 0 in
  let obj := Anim.mk_obj Anim.GFX_OBJ_TYPE_ANIMATION (Some anim) false in
  Anim.ticks 7 obj
  = (if Z.of_nat 7 <=? 5 - 3 then
       Anim.mk_obj Anim.GFX_OBJ_TYPE_ANIMATION
                   (Some (Anim.set_current anim (3 + Z.of_nat 7)))
                   (if 0 <? Z.of_nat 7 then true else false)
     else
       Anim.mk_obj Anim.GFX_OBJ_TYPE_ANIMATION
                   (Some (Anim.set_playing (Anim.set_current anim (5 + 1))
                                           false))
                   (if 0 <? 5 - 3 then true else false)).
Proof.
  intros frame anim obj.
  apply (playback_without_repeat_stops_past_end obj anim 7);
    [reflexivity | reflexivity | reflexivity | simpl; lia | simpl; lia].
Defined.

(** A playing animation is given the container of one frame. *)
Lemma set_src_rewinds_or_keeps_handle_witness :
  let data := [137; 65; 65; 70; 1; 0; 0; 0; 106; 1; 0; 0; 12; 0; 0; 0;
               4; 0; 0; 0; 0; 0; 0; 0; 90; 90; 95; 83] in
  let parser :=
    Container.mk_ctx [Container.mk_entry 24 (Container.mk_table_entry 4 0)]
                     1 in
  let frame :=
    Cache.mk_frame (Header.blank_header []) false false false (-1) in
  let anim := Anim.mk_anim None 2 5 3 30 true true None frame false 0 in
  let o := Anim.mk_obj Anim.GFX_OBJ_TYPE_ANIMATION (Some anim) false in
  exists err anim',
    Anim.gfx_anim_set_src (Some o) (Some data)
    = Some (err, Some (Anim.mk_obj Anim.GFX_OBJ_TYPE_ANIMATION (Some anim')
                                   false))
    /\ Anim.is_playing anim' = false
    /\ Cache.bound (Anim.frame anim') = false
    /\ Anim.fps anim' = 30 /\ Anim.repeat anim' = true
    /\ err = Anim.Esp ESP_OK
    /\ Anim.file_desc anim' = Some parser
    /\ Anim.start_frame anim' = 0 /\ Anim.current_frame anim' = 0
    /\ Anim.end_frame anim' = sz (Container.total_frames parser - 1).
Proof.
  intros data parser frame anim o.
  apply (set_src_rewinds_or_keeps_handle o anim data ESP_OK (Some parser));
    reflexivity.
Defined.

(** A segment 1 to 9 on a file of four frames. *)
Lemma set_segment_clamps_end_witness :
  let parser :=
    Container.mk_ctx
      (repeat (Container.mk_entry 48 (Container.mk_table_entry 4 0)) 4) 4 in
  let frame :=
    Cache.mk_frame (Header.blank_header []) false false false (-1) in
  let anim :=
    Anim.mk_anim (Some parser) 0 3 0 30 true false (Some 33) frame false 0 in
  let o := Anim.mk_obj Anim.GFX_OBJ_TYPE_ANIMATION (Some anim) false in
  exists anim',
    Anim.gfx_anim_set_segment (Some o) 1 9 25 false
    = Some (Anim.Esp ESP_OK,
            Some (Anim.mk_obj Anim.GFX_OBJ_TYPE_ANIMATION (Some anim') false))
    /\ Anim.file_desc anim' = Some parser
    /\ Anim.start_frame anim' = 1 /\ Anim.current_frame anim' = 1
    /\ Anim.fps anim' = 25 /\ Anim.repeat anim' = false
    /\ Anim.is_playing anim' = false
    /\ Anim.frame anim' = frame
    /\ (1 <= Container.total_frames parser ->
        Anim.end_frame anim' = Z.min 9 (Container.total_frames parser - 1))
    /\ (Container.total_frames parser = 0 -> Anim.end_frame anim' = 9).
Proof.
  intros parser frame anim o.
  apply (set_segment_clamps_end o anim parser 1 9 25 false);
    [reflexivity | reflexivity | reflexivity | simpl; lia | lia | lia].
Defined.

(** The container of one frame, played as the segment 0 to 5. *)
Lemma playing_frame_is_in_file_witness :
  let data := [137; 65; 65; 70; 1; 0; 0; 0; 106; 1; 0; 0; 12; 0; 0; 0;
               4; 0; 0; 0; 0; 0; 0; 0; 90; 90; 95; 83] in
  let parser :=
    Container.mk_ctx [Container.mk_entry 24 (Container.mk_table_entry 4 0)]
                     1 in
  let frame :=
    Cache.mk_frame (Header.blank_header []) false false false (-1) in
  let anim := Anim.mk_anim None 0 0 0 30 true false (Some 33) frame false 0 in
  let o := Anim.mk_obj Anim.GFX_OBJ_TYPE_ANIMATION (Some anim) false in
  exists o1 o2 o3,
    Anim.gfx_anim_set_src (Some o) (Some data)
    = Some (Anim.Esp ESP_OK, Some o1)
    /\ Anim.gfx_anim_set_segment (Some o1) 0 5 25 true
       = Some (Anim.Esp ESP_OK, Some o2)
    /\ Anim.gfx_anim_start (Some o2) = (Anim.Esp ESP_OK, Some o3)
    /\ forall n,
         exists anim',
           Anim.src (Anim.ticks n o3) = Some anim'
           /\ Anim.is_playing anim' = true
           /\ 0 <= Anim.current_frame anim'
              <= Z.min 5 (Container.total_frames parser - 1)
           /\ exists v,
                Container.gfx_aaf_format_get_frame_data
                  parser (Anim.current_frame anim')
                = Container.Value v.
Proof.
  intros data parser frame anim o.
  apply (playing_frame_is_in_file o anim data parser 0 5 25);
    [reflexivity | reflexivity | reflexivity | lia | simpl; lia | lia | lia].
Defined.

(** A container whose only frame is a 4-bit header of one block and the
    three bytes of that block. *)
Lemma preprocess_outcome_witness :
  let h := Header.mk_header [95; 83] [0; 0; 0; 0; 0; 0] 4 2 2 1 2 [3] 86
                            (repeat 0 64) 16 in
  let data :=
    ContainerLayout.serialize_container
      [HeaderLayout.serialize_header 0 h ++ [0; 2; 7]] in
  let parser :=
    Container.mk_ctx [Container.mk_entry 24 (Container.mk_table_entry 91 0)]
                     1 in
  let frame0 :=
    Cache.mk_frame (Header.blank_header []) false false false 3 in
  let decode_block := fun (_ : Z) (_ : bool) => ESP_OK in
  let p :=
    Preprocess.mk_prepared true (Cache.mk_frame h true true true (-1))
                           [86] 2 (Some (repeat Render.UNRESOLVED 16)) in
  Preprocess.gfx_anim_preprocess_frame false data parser 0 frame0 = Some p
  /\ Cache.last_block (Preprocess.frame p) = -1
  /\ (Preprocess.ret p = false ->
      Cache.bound (Preprocess.frame p) = false
      /\ forall obj_x obj_y req swap,
           Cache.gfx_draw_animation decode_block (Preprocess.frame p)
                                    obj_x obj_y req swap
           = (Preprocess.frame p, []))
  /\ (Preprocess.ret p = true ->
      Cache.frame_data (Preprocess.frame p) = true
      /\ Cache.block_offsets (Preprocess.frame p) = true
      /\ Cache.pixel_buffer (Preprocess.frame p) = true
      /\ (Header.bit_depth h = 4 \/ Header.bit_depth h = 8
          \/ Header.bit_depth h = 24)
      /\ Preprocess.offsets p = Header.gfx_aaf_calculate_offsets h
      /\ (exists frame_data,
            Container.gfx_aaf_format_get_frame_data parser
                                                    (Container.to_int 0)
            = Container.Value frame_data
            /\ Header.gfx_aaf_parse_header (skipn (Z.to_nat frame_data) data)
               = Some (Header.GFX_AAF_FORMAT_SBMP, h))
      /\ match Preprocess.color_palette p with
         | None => Header.bit_depth h = 24
         | Some cache =>
           Z.of_nat (length cache) = 2 ^ Header.bit_depth h
           /\ forall swap, Paint.consistent h swap cache
         end).
Proof.
  intros h data parser frame0 decode_block p. split; [reflexivity|].
  apply (preprocess_outcome decode_block false data parser 0 frame0 p).
  reflexivity.
Defined.


(** A 4-bit frame of 2 x 2 pixels has a pixel buffer of two bytes; a run
    of four bytes is within the capacity of four. *)
Lemma four_bit_block_overruns_pixel_buffer_witness :
  let jpeg := fun (_ : list Z) (_ _ : Z) (_ : bool) => (ESP_FAIL, @nil (Z * Z)) in
  let header := Header.mk_header [95; 83] [0; 0; 0; 0; 0; 0] 4 2 2 1 2 [3] 86
                                 (repeat 0 64) 16 in
  let runs := [(4, 7)] in
  exists r,
    Block.gfx_anim_decode_block jpeg ([] ++ Layout.rle_block runs ++ [])
                                [0] header 0 [] (Header.width header)
                                (Header.block_height header) false
    = Some r
    /\ Block.ret r = ESP_OK
    /\ Block.to_decode_buffer r = write_from 0 (Rle.expand runs)
    /\ in_bounds 2 (Block.to_decode_buffer r) = false
    /\ 2 = Z.quot (Header.width header
                   * (Header.block_height header
                      + Z.rem (Header.block_height header) 2)) 2.
Proof.
  intros jpeg header runs.
  apply (four_bit_block_overruns_pixel_buffer jpeg [] [] runs [0] header 0
                                              [] false 2);
    [reflexivity | simpl; lia | simpl; lia | simpl; lia | reflexivity
     | split; reflexivity | reflexivity | simpl; lia | reflexivity
     | simpl; lia].
Defined.

(** An object of 10 x 10 centred in a parent of 100 x 50 and moved by
    (3, -2), with 16-bit coordinates. *)
Lemma aligned_position_inside_or_outside_witness :
  let obj := Align.mk_obj 0 0 10 10 Align.GFX_ALIGN_CENTER 3 (-2) true in
  let p := Align.gfx_obj_calculate_aligned_position Align.int16 obj 100 50 in
  let px := fst p - 3 in
  let py := snd p - (-2) in
  (true = true -> Align.inner Align.GFX_ALIGN_CENTER = true ->
   0 <= px /\ px + 10 <= 100 /\ 0 <= py /\ py + 10 <= 50)
  /\ (true = true -> Align.outer Align.GFX_ALIGN_CENTER = true ->
      px + 10 <= 0 \/ 100 <= px \/ py + 10 <= 0 \/ 50 <= py)
  /\ (true = true -> Align.GFX_ALIGN_CENTER = Align.GFX_ALIGN_CENTER ->
      0 <= (100 - 10) - 2 * px <= 1 /\ 0 <= (50 - 10) - 2 * py <= 1)
  /\ (true = false \/ Align.GFX_ALIGN_CENTER = Align.GFX_ALIGN_other ->
      p = (0, 0)).
Proof.
  intros obj.
  apply (aligned_position_inside_or_outside
           Align.int16
           ltac:(intros z Hz; unfold Align.int16; rewrite Z.mod_small; lia)
           obj 100 50);
    simpl; lia.
Defined.

(** Two frames, of two and of three bytes. *)
Lemma container_roundtrip_witness :
  let frames := [[95; 83]; [1; 2; 3]] in
  let data := ContainerLayout.serialize_container frames ++ [] in
  exists parser,
    Container.gfx_aaf_format_init data = Some (ESP_OK, Some parser)
    /\ Container.total_frames parser = Z.of_nat (length frames)
    /\ forall i f,
         nth_error frames i = Some f ->
         exists addr,
           Container.gfx_aaf_format_get_frame_data parser (Z.of_nat i)
           = Container.Value addr
           /\ Container.gfx_aaf_format_get_frame_size parser (Z.of_nat i)
              = Container.Value (Z.of_nat (length f))
           /\ firstn (length f) (skipn (Z.to_nat addr) data) = f.
Proof.
  intros frames.
  apply (container_roundtrip frames []). simpl; lia.
Defined.
